(** * SBOM generation (lib/commands/sbom.js, lib/utils/sbom-spdx.js)

    A shallow embedding of the [sbom] command: the loading of the tree, the
    breadth-first walk of the dependency tree, the error gate, and the SPDX
    document builder, followed by the properties of the specification that
    were checked against it.

    Modelling conventions.
    - JS strings are [string]; a value that may be [undefined] or [null] is an
      [option]; truthiness of such a value is [truthy].  A value of
      package.json that is copied without a look at its type is a [value].
    - Arborist nodes are objects with identity: they live in a store
      ([list Node], an address is an index) that is threaded through every
      function that writes to a node.  Reading a property through an address
      that is not in the store stands for reading a property of [undefined]
      and throws a [TypeError].
    - A computation returns ([Ok]) or throws ([Throw]).  A computation that
      writes to the store returns the store with its result, and throws the
      store with its exception: the tree is left as it was when the
      exception arose.
    - The package object of a node is held by the target of the node: a Link
      shares the package object of its target, and the target of any other
      node is the node itself.  The getters [pkgid] and [version] of a node
      read the package object each time they are called.
    - The symbol-keyed properties [_invalid] and [_type] that the walk attaches
      to Arborist nodes are the fields [n_invalid] and [n_type].
    - The objects made by [mapEdgesToNodes] for unresolved edges are fresh, are
      referenced by nobody else and are never written after their creation:
      they are values ([Placeholder]).
    - Functions defined outside the two files (Arborist and the getters of
      its nodes, normalize-package-data, npm-package-arg, ssri, the locale
      comparison, os.EOL, [String.prototype.toUpperCase], the usage error of
      the base command, the CycloneDX builder) are the fields of [Lib];
      treeverse's [breadth] is written out from its contract: first in, first
      out, every object visited at most once, the children of an object
      requested right after its visit. *)

From Stdlib Require Import String Ascii List Bool Arith ZArith Lia.
From stdpp Require Import base option list strings.

Local Open Scope string_scope.
Local Open Scope list_scope.
Local Open Scope stdpp_scope.

(** ** JavaScript values *)

Inductive exn : Type :=
| TypeError
| EUSAGE (msg : string)
| ESBOMPROBLEMS (msg : string)
| LibError.

Inductive outcome (E A : Type) : Type :=
| Ok (a : A)
| Throw (e : E).

Arguments Ok {E A} a.
Arguments Throw {E A} e.

Definition bind {E A B : Type} (r : outcome E A) (k : A -> outcome E B)
    : outcome E B :=
  match r with
  | Ok a => k a
  | Throw e => Throw e
  end.

Notation "'let*' x ':=' r 'in' k" := (bind r (fun x => k))
  (at level 10, x pattern, r at level 100, k at level 200).

(** A computation that reads only. *)
Abbreviation result A := (outcome exn A) (only parsing).

(** The outcome of a call into another package: [None] when it throws. *)
Definition liftLib {A : Type} (r : option A) : result A :=
  match r with
  | Some a => Ok a
  | None => Throw LibError
  end.

(** [v ? ... : ...] on a string that may be undefined: the empty string and
    undefined are falsy. *)
Definition truthy (v : option string) : bool :=
  match v with
  | Some s => negb (String.eqb s "")
  | None => false
  end.

(** [v || d] *)
Definition orElse (v : option string) (d : string) : string :=
  match v with
  | Some s => if String.eqb s "" then d else s
  | None => d
  end.

(** A value interpolated in a template literal. *)
Definition interp (v : option string) : string :=
  match v with
  | Some s => s
  | None => "undefined"
  end.

(** A value of package.json that the builder copies into a record as it is:
    a string, or any other truthy value (an object for a license in the old
    style, an array, a number), given by the text that denotes it.  A falsy
    value other than the empty string is [None] in the field that holds
    it. *)
Inductive value : Type :=
| Str (s : string)
| Other (text : string).

Definition truthyValue (v : option value) : bool :=
  match v with
  | Some (Str s) => negb (String.eqb s "")
  | Some (Other _) => true
  | None => false
  end.

(** [v || d] *)
Definition orElseValue (v : option value) (d : string) : value :=
  match v with
  | Some (Str s) => if String.eqb s "" then Str d else Str s
  | Some (Other o) => Other o
  | None => Str d
  end.

(** [v || undefined] *)
Definition orUndefinedValue (v : option value) : option value :=
  if truthyValue v then v else None.

(** [Array.prototype.join] *)
Fixpoint join (sep : string) (l : list string) : string :=
  match l with
  | [] => ""
  | [x] => x
  | x :: r => x +:+ sep +:+ join sep r
  end.

(** [s.replace(/c/g, d)] for a single character [c]. *)
Fixpoint replaceAll (c d : ascii) (s : string) : string :=
  match s with
  | EmptyString => EmptyString
  | String x r => String (if Ascii.eqb x c then d else x) (replaceAll c d r)
  end.

(** [s.replace(/^@/, '')] *)
Definition stripLeadingAt (s : string) : string :=
  match s with
  | String "@"%char r => r
  | _ => s
  end.

(** [s] occurs in [t]. *)
Definition contains (t s : string) : Prop :=
  exists pre post, t = pre +:+ s +:+ post.

(** [Set.prototype.add] on a set kept in insertion order. *)
Definition setAdd (x : string) (s : list string) : list string :=
  if decide (x ∈ s) then s else s ++ [x].

(** [Map.prototype.set] on a map kept in insertion order: a key that is
    present keeps its place. *)
Fixpoint mapSet {V : Type} (k : option string) (v : V)
    (m : list (option string * V)) : list (option string * V) :=
  match m with
  | [] => [(k, v)]
  | (k', v') :: r =>
      if decide (k = k') then (k, v) :: r else (k', v') :: mapSet k v r
  end.

(** Monadic list traversals, left to right. *)
Fixpoint filterM {A : Type} (f : A -> result bool) (l : list A)
    : result (list A) :=
  match l with
  | [] => Ok []
  | x :: r =>
      let* b := f x in
      let* r' := filterM f r in
      Ok (if b then x :: r' else r')
  end.

Fixpoint findM {A : Type} (f : A -> result bool) (l : list A)
    : result (option A) :=
  match l with
  | [] => Ok None
  | x :: r =>
      let* b := f x in
      if b then Ok (Some x) else findM f r
  end.

(** ** sbom-spdx.js: identifiers *)

Definition SPDX_SCHEMA_VERSION : string := "SPDX-2.3".
Definition SPDX_DATA_LICENSE : string := "CC0-1.0".
Definition SPDX_IDENTIFER : string := "SPDXRef-DOCUMENT".

Definition toSpdxID (id : string) : string :=
  let name := stripLeadingAt id in
  let name := replaceAll "/" "." name in
  let name := replaceAll "@" "-" name in
  "SPDXRef-Package-" +:+ name.

(** ** The data handed over by the resolver *)

Abbreviation addr := nat (only parsing).

(** The fields of [node.package] that the builder and the getters of a node
    read. *)
Record Package : Type := {
  pk_name : option string;
  pk_version : option string;
  pk_description : option value;
  pk_homepage : option value;
  pk_license : option value }.

Record Edge : Type := {
  e_from : addr;
  e_to : option addr;
  e_name : string;
  e_spec : string;
  e_type : string;
  e_missing : bool;
  e_invalid : bool;
  e_optional : bool }.

(** [n_package] is the package object that the node holds; [node.package]
    is read through the target ([packageOf]). *)
Record Node : Type := {
  n_name : string;
  n_location : string;
  n_path : string;
  n_resolved : option string;
  n_integrity : option string;
  n_isRoot : bool;
  n_isLink : bool;
  n_isWorkspace : bool;
  n_isProjectRoot : bool;
  n_extraneous : bool;
  n_target : addr;
  n_edgesOut : list Edge;
  n_children : list addr;
  n_package : Package;
  n_invalid : bool;
  n_type : option string }.

Abbreviation Store := (list Node) (only parsing).

(** A computation that writes to nodes: it returns its result and the
    store, or throws its exception and the store. *)
Abbreviation effect A := (outcome (exn * Store) (A * Store)) (only parsing).

(** A reading computation in the middle of a writing one: when it throws,
    the store is the current one. *)
Definition inState {A : Type} (st : Store) (r : result A)
    : outcome (exn * Store) A :=
  match r with
  | Ok a => Ok a
  | Throw e => Throw (e, st)
  end.

(** The store that a writing computation leaves behind. *)
Definition storeOf {A : Type} (r : effect A) : Store :=
  match r with
  | Ok (_, st) => st
  | Throw (_, st) => st
  end.

(** [node[_invalid] = ...; node[_type] = ...] *)
Definition setMarks (n : Node) (inv : bool) (ty : option string) : Node :=
  {| n_name := n_name n;
     n_location := n_location n; n_path := n_path n;
     n_resolved := n_resolved n; n_integrity := n_integrity n;
     n_isRoot := n_isRoot n; n_isLink := n_isLink n;
     n_isWorkspace := n_isWorkspace n; n_isProjectRoot := n_isProjectRoot n;
     n_extraneous := n_extraneous n; n_target := n_target n;
     n_edgesOut := n_edgesOut n; n_children := n_children n;
     n_package := n_package n; n_invalid := inv; n_type := ty |}.

(** The package object of a node after it was rewritten in place. *)
Definition setPackage (n : Node) (p : Package) : Node :=
  {| n_name := n_name n;
     n_location := n_location n; n_path := n_path n;
     n_resolved := n_resolved n; n_integrity := n_integrity n;
     n_isRoot := n_isRoot n; n_isLink := n_isLink n;
     n_isWorkspace := n_isWorkspace n; n_isProjectRoot := n_isProjectRoot n;
     n_extraneous := n_extraneous n; n_target := n_target n;
     n_edgesOut := n_edgesOut n; n_children := n_children n;
     n_package := p; n_invalid := n_invalid n; n_type := n_type n |}.

(** [node.package]: the object held by the target of the node (by the node
    itself when it has no target). *)
Definition packageOf (st : Store) (node : Node) : Package :=
  match st !! n_target node with
  | Some target => n_package target
  | None => n_package node
  end.

(** The store after the package object of the node at [a] was rewritten in
    place to [pkg]. *)
Definition setPackageOf (st : Store) (a : addr) (node : Node) (pkg : Package)
    : Store :=
  match st !! n_target node with
  | Some target => <[n_target node := setPackage target pkg]> st
  | None => <[a := setPackage node pkg]> st
  end.

(** The object [{ name, pkgid, [_missing]: edge.from.pkgid }] of
    [mapEdgesToNodes], with the marks it receives before it is returned. *)
Record Placeholder : Type := {
  ph_name : string;
  ph_pkgid : string;
  ph_missing : string;
  ph_invalid : bool;
  ph_type : string }.

(** What the walk visits and the builder receives. *)
Inductive item : Type :=
| ArbNode (a : addr)
| Plain (p : Placeholder).

(** Property access through an address. *)
Definition deref (st : Store) (a : addr) : result Node :=
  match st !! a with
  | Some n => Ok n
  | None => Throw TypeError
  end.

(** [node.isRoot] as a condition. *)
Definition isRoot (st : Store) (it : item) : result bool :=
  match it with
  | ArbNode a => let* n := deref st a in Ok (n_isRoot n)
  | Plain _ => Ok false
  end.

(** ** The SPDX document *)

Record Relationship : Type := {
  spdxElementId : string;
  relatedSpdxElement : string;
  relationshipType : string }.

Record ExternalRef : Type := {
  referenceCategory : string;
  referenceType : string;
  referenceLocator : string }.

Record Checksum : Type := {
  algorithm : string;
  checksumValue : string }.

Record SpdxPackage : Type := {
  name : string;
  SPDXID : string;
  versionInfo : string;
  packageFileName : string;
  description : option value;
  primaryPackagePurpose : option string;
  downloadLocation : string;
  filesAnalyzed : bool;
  homePage : value;
  licenseDeclared : value;
  externalRefs : list ExternalRef;
  checksums : option (list Checksum) }.

Record SpdxDocument : Type := {
  spdxVersion : string;
  dataLicense : string;
  docSPDXID : string;
  docName : string;
  documentNamespace : string;
  created : string;
  creators : list string;
  documentDescribes : list string;
  packages : list SpdxPackage;
  relationships : list Relationship }.

(** What the run reads from its surroundings: [npm.version], the value of
    [uuid.v4()] and of [new Date().toISOString()]. *)
Record Env : Type := {
  npmVersion : string;
  uuid : string;
  now : string }.

(** ** The functions of other packages *)

(** An Arborist, as [exec] uses it: [arb.loadVirtual(opts)] and
    [arb.loadActual(opts)] give a tree, that is its nodes and its root, or
    throw ([None]). *)
Record Arborist : Type := {
  loadVirtual : option (Store * addr);
  loadActual : option (Store * addr) }.

(** The functions of other packages that the two files call; [None] stands
    for an exception of the package. *)
Record Lib : Type := {
  (** [require('@npmcli/arborist')] and [new Arborist(opts)] *)
  newArborist : option Arborist;
  (** The getter [pkgid] of an Arborist node: it reads [this.name],
      [this.isProjectRoot] and [this.package]. *)
  nodePkgid : string -> bool -> Package -> string;
  (** The getter [version] of an Arborist node: it reads [this.package]. *)
  nodeVersion : Package -> string;
  (** [normalizeData(pkg)] of normalize-package-data rewrites [pkg] in place
      (its return value is not used): [Ok p], it returns and the object is
      now [p]; [Throw p], it throws and leaves the object as [p]. *)
  normalizeData : Package -> outcome Package Package;
  (** [npa(id).escapedName] as it is interpolated, or npa throws. *)
  npaEscapedName : string -> option string;
  (** [npa.toPurl(id)] *)
  npaToPurl : string -> option string;
  (** [npa(spec).type]; [None] when npa throws. *)
  npaType : string -> option string;
  (** [ssri.parse(s, { single: true })]: the algorithm and the hex digest. *)
  ssriParse : string -> option (string * string);
  (** [localeCompare(a, b)] of @isaacs/string-locale-compare. *)
  localeCompare : string -> string -> Z;
  (** [os.EOL] *)
  EOL : string;
  (** [String.prototype.toUpperCase] *)
  toUpperCase : string -> string;
  (** The message of [this.usageError(prefix)] of the base command. *)
  usageError : string -> string;
  (** [cyclonedxOutput({ npm, nodes, packageType })] of sbom-cyclonedx.js,
      with its serialised document left opaque: the document, or [None] when
      it throws, and the store as the call leaves it. *)
  cyclonedxOutput :
    Env -> Store -> list item -> option string -> option string * Store }.

Section Definitions.

Variable lib : Lib.

(** [node.pkgid] and [node.version] *)
Definition pkgid (st : Store) (node : Node) : string :=
  nodePkgid lib (n_name node) (n_isProjectRoot node) (packageOf st node).

Definition version (st : Store) (node : Node) : string :=
  nodeVersion lib (packageOf st node).

(** [node.pkgid] of what the walk visits; [None] stands for undefined. *)
Definition pkgidOf (st : Store) (it : item) : option string :=
  match it with
  | ArbNode a => pkgid st <$> st !! a
  | Plain p => Some (ph_pkgid p)
  end.

(** ** sbom-spdx.js: relationships *)

Definition toSpdxRelationship (st : Store) (node : Node) (edge : Edge)
    : option Relationship :=
  match e_to edge ≫= (st !!.) with
  | None => None
  | Some to =>
      let type :=
        if String.eqb (e_type edge) "peer" then "HAS_PREREQUISITE"
        else if String.eqb (e_type edge) "optional" then "OPTIONAL_DEPENDENCY_OF"
        else if String.eqb (e_type edge) "dev" then "DEV_DEPENDENCY_OF"
        else "DEPENDS_ON" in
      Some {| spdxElementId := toSpdxID (pkgid st node);
              relatedSpdxElement := toSpdxID (pkgid st to);
              relationshipType := type |}
  end.

(** [nodes.find(n => n.pkgid === edge.to?.pkgid)] as a condition. *)
Definition linksIntoList (st : Store) (nodes : list item) (edge : Edge)
    : bool :=
  match e_to edge ≫= (st !!.) with
  | None => false
  | Some to =>
      existsb (fun n => bool_decide (pkgidOf st n = Some (pkgid st to))) nodes
  end.

(** The relationships that start at one node of the list. *)
Definition relationshipsOf (st : Store) (nodes : list item) (it : item)
    : result (list Relationship) :=
  match it with
  | Plain _ => Throw TypeError
  | ArbNode a =>
      let* node := deref st a in
      Ok (omap (toSpdxRelationship st node)
            (filter (fun edge => linksIntoList st nodes edge = true)
                    (n_edgesOut node)))
  end.

Fixpoint relationshipsFrom (st : Store) (nodes rest : list item)
    : result (list Relationship) :=
  match rest with
  | [] => Ok []
  | it :: rest' =>
      let* rels := relationshipsOf st nodes it in
      let* more := relationshipsFrom st nodes rest' in
      Ok (rels ++ more)
  end.

(** ** sbom-spdx.js: package records and the document *)

Definition isGitNode (node : Node) : bool :=
  match n_resolved node with
  | None => false
  | Some resolved =>
      if String.eqb resolved "" then false
      else
        match npaType lib resolved with
        | Some type => String.eqb type "git" || String.eqb type "hosted"
        | None => false
        end
  end.

(** [toSpdxItem(node, { packageType })].  [normalizeData] rewrites the
    package object of the node, and with it what [node.pkgid] and
    [node.version] return when they are read for the record.  The line that
    prints [node.package.license] to stderr is left out. *)
Definition toSpdxItem (st : Store) (it : item) (packageType : option string)
    : effect SpdxPackage :=
  match it with
  | Plain _ => Throw (TypeError, st)
  | ArbNode a =>
      let* node := inState st (deref st a) in
      match normalizeData lib (packageOf st node) with
      | Throw pkg => Throw (LibError, setPackageOf st a node pkg)
      | Ok pkg =>
          let st' := setPackageOf st a node pkg in
          let id := nodePkgid lib (n_name node) (n_isProjectRoot node) pkg in
          let* purl := inState st' (liftLib (npaToPurl lib id)) in
          let package :=
            {| name := n_name node;
               SPDXID := toSpdxID id;
               versionInfo := nodeVersion lib pkg;
               packageFileName := n_location node;
               description := orUndefinedValue (pk_description pkg);
               primaryPackagePurpose :=
                 if truthy packageType then toUpperCase lib <$> packageType
                 else None;
               downloadLocation :=
                 orElse (if n_isLink node then None else n_resolved node)
                        "NOASSERTION";
               filesAnalyzed := false;
               homePage := orElseValue (pk_homepage pkg) "NOASSERTION";
               licenseDeclared := orElseValue (pk_license pkg) "NOASSERTION";
               externalRefs :=
                 [ {| referenceCategory := "PACKAGE-MANAGER";
                      referenceType := "npm";
                      referenceLocator := id |};
                   {| referenceCategory := "PACKAGE-MANAGER";
                      referenceType := "purl";
                      referenceLocator :=
                        purl +:+ (if isGitNode node
                                  then "?vcs_url=" +:+ interp (n_resolved node)
                                  else "") |} ];
               checksums := None |} in
          if truthy (n_integrity node) then
            let* (alg, hex) :=
              inState st'
                (liftLib (ssriParse lib (interp (n_integrity node)))) in
            Ok ({| name := name package; SPDXID := SPDXID package;
                   versionInfo := versionInfo package;
                   packageFileName := packageFileName package;
                   description := description package;
                   primaryPackagePurpose := primaryPackagePurpose package;
                   downloadLocation := downloadLocation package;
                   filesAnalyzed := filesAnalyzed package;
                   homePage := homePage package;
                   licenseDeclared := licenseDeclared package;
                   externalRefs := externalRefs package;
                   checksums :=
                     Some [ {| algorithm := toUpperCase lib alg;
                               checksumValue := hex |} ] |}, st')
          else Ok (package, st')
      end
  end.

(** [childNodes.map(toSpdxItem)]: [map] passes the index as second argument,
    and destructuring [{ packageType }] from a number gives undefined. *)
Fixpoint toSpdxItems (st : Store) (l : list item)
    : effect (list SpdxPackage) :=
  match l with
  | [] => Ok ([], st)
  | it :: rest =>
      let* (p, st1) := toSpdxItem st it None in
      let* (ps, st2) := toSpdxItems st1 rest in
      Ok (p :: ps, st2)
  end.

Definition spdxOutput (env : Env) (st : Store) (nodes : list item)
    (packageType : option string) : effect SpdxDocument :=
  let* rootNode := inState st (findM (isRoot st) nodes) in
  let* childNodes :=
    inState st
      (filterM (fun node => let* b := isRoot st node in Ok (negb b)) nodes) in
  let* root :=
    inState st
      match rootNode with
      | Some (ArbNode a) => deref st a
      | _ => Throw TypeError
      end in
  let rootID := pkgid st root in
  let* escapedName := inState st (liftLib (npaEscapedName lib rootID)) in
  let ns := "http://spdx.org/spdxdocs/" +:+ escapedName +:+ "-"
            +:+ version st root +:+ "-" +:+ uuid env in
  let* rels := inState st (relationshipsFrom st nodes nodes) in
  let* (rootItem, st1) :=
    match rootNode with
    | Some r => toSpdxItem st r packageType
    | None => Throw (TypeError, st)
    end in
  let* (childItems, st2) := toSpdxItems st1 childNodes in
  Ok ({| spdxVersion := SPDX_SCHEMA_VERSION;
         dataLicense := SPDX_DATA_LICENSE;
         docSPDXID := SPDX_IDENTIFER;
         docName := rootID;
         documentNamespace := ns;
         created := now env;
         creators := [ "Tool: npm/cli-" +:+ npmVersion env ];
         documentDescribes := [ toSpdxID rootID ];
         packages := rootItem :: childItems;
         relationships :=
           {| spdxElementId := SPDX_IDENTIFER;
              relatedSpdxElement := toSpdxID rootID;
              relationshipType := "DESCRIBES" |} :: rels |}, st2).

(** ** sbom.js: the walk *)

(** What [exec] reads from the configuration of npm: [sbom-format], [omit],
    [package-lock-only], [workspacesEnabled], [package-type], and the nodes
    that [arb.workspaceNodes(tree, this.workspaceNames)] gives ([None] when
    no workspace is named). *)
Record Options : Type := {
  sbomFormat : option string;
  omit : list string;
  packageLockOnly : bool;
  workspacesEnabled : bool;
  wsNodes : option (list addr);
  packageType : option string }.

(** [seenNodes] and [errors] of [exec], with the store they are read from. *)
Record Walk : Type := {
  w_store : Store;
  w_seenNodes : list (option string * item);
  w_errors : list string }.

Definition filterBySelectedWorkspaces (opts : Options) (st : Store)
    (edge : Edge) : result bool :=
  let* excluded :=
    if workspacesEnabled opts then Ok false
    else
      let* from := deref st (e_from edge) in
      if n_isProjectRoot from then
        let* to :=
          match e_to edge with
          | Some a => deref st a
          | None => Throw TypeError
          end in
        Ok (n_isWorkspace to)
      else Ok false in
  if excluded then Ok false
  else
    match wsNodes opts with
    | None | Some [] => Ok true
    | Some ws =>
        let* from := deref st (e_from edge) in
        if n_isProjectRoot from then
          match e_to edge ≫= (st !!.) with
          | None => Ok false
          | Some to =>
              Ok (n_isWorkspace to && bool_decide (n_target to ∈ ws))
          end
        else Ok true
    end.

Definition filterByEdgesTypes (opts : Options) (edge : Edge) : bool :=
  negb (bool_decide (e_type edge ∈ omit opts)).

Definition mapEdgesToNodes (st : Store) (seenPaths : list string)
    (edge : Edge) : effect (item * list string) :=
  if e_missing edge
     || (e_optional edge
         && negb (bool_decide (is_Some (e_to edge ≫= (st !!.)))))
  then
    let* from := inState st (deref st (e_from edge)) in
    Ok (Plain {| ph_name := e_name edge;
                 ph_pkgid := e_name edge +:+ "@" +:+ e_spec edge;
                 ph_missing := pkgid st from;
                 ph_invalid := e_invalid edge;
                 ph_type := e_type edge |}, seenPaths, st)
  else
    match e_to edge with
    | None => Throw (TypeError, st)
    | Some a =>
        let* node := inState st (deref st a) in
        let node' :=
          setMarks node (if e_invalid edge then true else n_invalid node)
                   (Some (e_type edge)) in
        Ok (ArbNode a,
            if String.eqb (n_path node') "" then seenPaths
            else setAdd (n_path node') seenPaths,
            <[a := node']> st)
    end.

(** [edges.map(mapEdgesToNodes({ seenPaths }))] *)
Fixpoint mapEdges (st : Store) (seenPaths : list string) (edges : list Edge)
    : effect (list item * list string) :=
  match edges with
  | [] => Ok ([], seenPaths, st)
  | edge :: rest =>
      let* (node, seen1, st1) := mapEdgesToNodes st seenPaths edge in
      let* (nodes, seen2, st2) := mapEdges st1 seen1 rest in
      Ok (node :: nodes, seen2, st2)
  end.

Definition appendExtraneousChildren (st : Store) (node : Node)
    (seenPaths : list string) : result (list item) :=
  let* kept :=
    filterM (fun a =>
               let* i := deref st a in
               Ok (negb (bool_decide (n_path i ∈ seenPaths)) && n_extraneous i))
            (n_children node) in
  Ok (ArbNode <$> kept).

Definition sortAlphabetically (st : Store) (a b : item) : Z :=
  localeCompare lib (interp (pkgidOf st a)) (interp (pkgidOf st b)).

(** [Array.prototype.sort]: a stable sort (insertion from the right). *)
Fixpoint insertSorted (cmp : item -> item -> Z) (x : item) (l : list item)
    : list item :=
  match l with
  | [] => [x]
  | y :: r =>
      if (cmp x y <=? 0)%Z then x :: y :: r else y :: insertSorted cmp x r
  end.

Definition sort (cmp : item -> item -> Z) (l : list item) : list item :=
  foldr (insertSorted cmp) [] l.

Definition getChildren (opts : Options) (it : item) (w : Walk)
    : outcome (exn * Store) (list item * Walk) :=
  match it with
  | Plain _ => Ok ([], w)
  | ArbNode a =>
      let st := w_store w in
      let* node := inState st (deref st a) in
      let* target := inState st (deref st (n_target node)) in
      let* edges1 :=
        inState st
          (filterM (filterBySelectedWorkspaces opts st) (n_edgesOut target)) in
      let edges2 := filter (fun e => filterByEdgesTypes opts e = true) edges1 in
      let* (nodes, seenPaths, st') := mapEdges st [] edges2 in
      let* node' := inState st' (deref st' a) in
      let* extra := inState st' (appendExtraneousChildren st' node' seenPaths) in
      Ok (sort (sortAlphabetically st') (nodes ++ extra),
          {| w_store := st';
             w_seenNodes := w_seenNodes w;
             w_errors := w_errors w |})
  end.

Definition findErrors (st : Store) (it : item) : result (list string) :=
  match it with
  | ArbNode a =>
      let* node := deref st a in
      Ok (if n_invalid node
          then [ "invalid: " +:+ pkgid st node +:+ " " +:+ n_path node ]
          else [])
  | Plain p =>
      Ok ((if negb (String.eqb (ph_missing p) "")
              && negb (String.eqb (ph_type p) "optional"
                       || String.eqb (ph_type p) "peerOptional")
           then [ "missing: " +:+ ph_pkgid p +:+ ", required by "
                  +:+ ph_missing p ]
           else [])
          ++ (if ph_invalid p
              then [ "invalid: " +:+ ph_pkgid p +:+ " undefined" ]
              else []))
  end.

(** [node.path] as a key of [seenNodes]. *)
Definition pathOf (st : Store) (it : item) : option string :=
  match it with
  | ArbNode a => n_path <$> st !! a
  | Plain _ => None
  end.

Definition visit (it : item) (w : Walk) : outcome (exn * Store) Walk :=
  let* errs := inState (w_store w) (findErrors (w_store w) it) in
  Ok {| w_store := w_store w;
        w_seenNodes := mapSet (pathOf (w_store w) it) it (w_seenNodes w);
        w_errors := foldl (fun s e => setAdd e s) (w_errors w) errs |}.

(** ** treeverse: breadth *)

Definition seenHas (seen : list addr) (it : item) : bool :=
  match it with
  | ArbNode a => bool_decide (a ∈ seen)
  | Plain _ => false
  end.

Definition seenAdd (it : item) (seen : list addr) : list addr :=
  match it with
  | ArbNode a => a :: seen
  | Plain _ => seen
  end.

Fixpoint breadth (opts : Options) (fuel : nat) (queue : list item)
    (seen : list addr) (w : Walk) : option (outcome (exn * Store) Walk) :=
  match fuel with
  | O => None
  | S fuel' =>
      match queue with
      | [] => Some (Ok w)
      | node :: rest =>
          if seenHas seen node then breadth opts fuel' rest seen w
          else
            match visit node w with
            | Throw e => Some (Throw e)
            | Ok w1 =>
                match getChildren opts node w1 with
                | Throw e => Some (Throw e)
                | Ok (kids, w2) =>
                    breadth opts fuel' (rest ++ kids) (seenAdd node seen) w2
                end
            end
      end
  end.

(** ** sbom.js: exec *)

Inductive Response : Type :=
| SpdxResponse (doc : SpdxDocument)
| CycloneDXResponse (doc : string).

Definition buildResponse (opts : Options) (env : Env) (st : Store)
    (items : list item) : effect Response :=
  if bool_decide (sbomFormat opts = Some "cyclonedx") then
    match cyclonedxOutput lib env st items (packageType opts) with
    | (Some doc, st') => Ok (CycloneDXResponse doc, st')
    | (None, st') => Throw (LibError, st')
    end
  else
    let* (doc, st') := spdxOutput env st items (packageType opts) in
    Ok (SpdxResponse doc, st').

(** [node[_missing]] as a condition. *)
Definition isMissing (it : item) : bool :=
  match it with
  | ArbNode _ => false
  | Plain p => negb (String.eqb (ph_missing p) "")
  end.

(** The state of the walk when [breadth] starts. *)
Definition walkStart (st : Store) : Walk :=
  {| w_store := st; w_seenNodes := []; w_errors := [] |}.

(** The walk of [exec], from the loaded tree. *)
Definition walk (opts : Options) (fuel : nat) (st : Store) (tree : addr)
    : option (outcome (exn * Store) Walk) :=
  breadth opts fuel [ArbNode tree] [] (walkStart st).

(** The visited nodes without those that carry the missing mark: what
    [exec] hands to the builder. *)
Definition builderInput (w : Walk) : list item :=
  filter (fun it => isMissing it = false) (snd <$> w_seenNodes w).

(** The tree that [exec] loads: the virtual tree of the lock file in
    package-lock-only mode, where a failure to load is turned into a usage
    error, and the actual tree otherwise. *)
Definition loadTree (opts : Options) : result (Store * addr) :=
  let* arb := liftLib (newArborist lib) in
  if packageLockOnly opts then
    match loadVirtual arb with
    | Some tree => Ok tree
    | None =>
        Throw (EUSAGE (usageError lib
          "A package lock or shrinkwrap file is required in package-lock-only mode"))
    end
  else liftLib (loadActual arb).

(** [exec]; the response that is handed to [npm.output] is the result, with
    the tree as the run leaves it (no tree when none was loaded).  [None]:
    not enough fuel. *)
Definition exec (opts : Options) (env : Env) (fuel : nat)
    : option (effect Response) :=
  if negb (truthy (sbomFormat opts)) then
    Some (Throw (EUSAGE
      "Must specify --sbom-format flag with one of: cyclonedx, spdx.", []))
  else
    match loadTree opts with
    | Throw e => Some (Throw (e, []))
    | Ok (st, tree) =>
        match walk opts fuel st tree with
        | None => None
        | Some (Throw e) => Some (Throw e)
        | Some (Ok w) =>
            if (0 <? length (w_errors w))%nat then
              Some (Throw (ESBOMPROBLEMS (join (EOL lib) (w_errors w)),
                           w_store w))
            else
              Some (buildResponse opts env (w_store w) (builderInput w))
        end
    end.

End Definitions.

(** ** Vocabulary of the properties *)

(** Exceptions and outcomes are compared by value. *)
#[global] Instance exn_eq_dec : EqDecision exn.
Proof. solve_decision. Defined.

#[global] Instance outcome_eq_dec {E A : Type} `{EqDecision E, EqDecision A} :
  EqDecision (outcome E A).
Proof. solve_decision. Defined.

#[global] Instance value_eq_dec : EqDecision value.
Proof. solve_decision. Defined.

#[global] Instance Package_eq_dec : EqDecision Package.
Proof. solve_decision. Defined.

#[global] Instance Edge_eq_dec : EqDecision Edge.
Proof. solve_decision. Defined.

#[global] Instance Node_eq_dec : EqDecision Node.
Proof. solve_decision. Defined.

(** [c] occurs in [s]. *)
Fixpoint hasChar (c : ascii) (s : string) : bool :=
  match s with
  | EmptyString => false
  | String x r => Ascii.eqb x c || hasChar c r
  end.

(** [id] starts with the scope marker. *)
Definition scoped (id : string) : bool :=
  match id with
  | String "@"%char _ => true
  | _ => false
  end.

(** The substitutions of [toSpdxID] cannot tell the two characters apart. *)
Definition confusedChars (x y : ascii) : bool :=
  (Ascii.eqb x "/" && Ascii.eqb y ".") || (Ascii.eqb x "." && Ascii.eqb y "/")
  || (Ascii.eqb x "@" && Ascii.eqb y "-")
  || (Ascii.eqb x "-" && Ascii.eqb y "@").

(** At some place one of the strings holds a slash where the other holds a
    dot, or an at-sign where the other holds a hyphen. *)
Fixpoint confused (s t : string) : bool :=
  match s, t with
  | String x s', String y t' => confusedChars x y || confused s' t'
  | _, _ => false
  end.

(** The strings have the same length and hold, at every place, the same
    character or two characters that the substitutions cannot tell apart. *)
Fixpoint alike (s t : string) : bool :=
  match s, t with
  | EmptyString, EmptyString => true
  | String x s', String y t' =>
      (Ascii.eqb x y || confusedChars x y) && alike s' t'
  | _, _ => false
  end.

(** [s] occurs in [t], as a test. *)
Fixpoint containsb (t s : string) : bool :=
  String.prefix s t
  || match t with
     | EmptyString => false
     | String _ r => containsb r s
     end.


(** [n'] is [n] up to the two marks of the walk. *)
Definition sameShape (n n' : Node) : Prop :=
  n' = setMarks n (n_invalid n') (n_type n').

(** The stores hold the same nodes up to the marks of the walk. *)
Definition frame (st st' : Store) : Prop := Forall2 sameShape st st'.

(** [n'] is [n] up to the package object. *)
Definition samePackageShape (n n' : Node) : Prop :=
  n' = setPackage n (n_package n').

(** [n'] is [n] up to the two marks of the walk and the package object. *)
Definition sameNode (n n' : Node) : Prop :=
  n' = setPackage (setMarks n (n_invalid n') (n_type n')) (n_package n').

(** The condition under which [mapEdgesToNodes] makes a placeholder. *)
Definition isUnresolved (st : Store) (edge : Edge) : bool :=
  e_missing edge
  || (e_optional edge && negb (bool_decide (is_Some (e_to edge ≫= (st !!.))))).

(** The object that [mapEdgesToNodes] returns for an edge. *)
Definition edgeItem (lib : Lib) (st : Store) (edge : Edge) : option item :=
  if isUnresolved st edge then
    from ← st !! e_from edge;
    Some (Plain {| ph_name := e_name edge;
                   ph_pkgid := e_name edge +:+ "@" +:+ e_spec edge;
                   ph_missing := pkgid lib st from;
                   ph_invalid := e_invalid edge;
                   ph_type := e_type edge |})
  else
    a ← e_to edge; _ ← st !! a; Some (ArbNode a).

(** A bound on the number of children of an object. *)
Definition cap (st : Store) (it : item) : nat :=
  match it with
  | Plain _ => 0
  | ArbNode a =>
      match st !! a with
      | Some node =>
          match st !! n_target node with
          | Some target => length (n_edgesOut target) + length (n_children node)
          | None => 0
          end
      | None => 0
      end
  end.

(** The children that objects not seen so far may still add to the queue. *)
Definition remaining (st : Store) (seen : list addr) : nat :=
  sum_list ((fun a => cap st (ArbNode a))
              <$> filter (fun a => a ∉ seen) (seq 0 (length st))).

(** A reading computation that can only throw a [TypeError]. *)
Definition typeErrorOnly {A : Type} (r : result A) : Prop :=
  forall e, r = Throw e -> e = TypeError.

Definition isTypeError (e : exn) : Prop := e = TypeError.

(** A computation that can only throw exceptions with the property [P],
    leaving a store with the property [Q]. *)
Definition raises {A : Type} (P : exn -> Prop) (Q : Store -> Prop)
    (r : outcome (exn * Store) A) : Prop :=
  forall e st, r = Throw (e, st) -> P e /\ Q st.

(** The tree as the walk leaves it. *)
Definition walkStoreOf (r : outcome (exn * Store) Walk) : Store :=
  match r with
  | Ok w => w_store w
  | Throw (_, st) => st
  end.

(** What the builder throws: a [TypeError] or the exception of a package. *)
Definition builderError (e : exn) : Prop := e = TypeError \/ e = LibError.

(** [edge] is an outgoing edge of the target of the node at [a]. *)
Definition edgeOf (st : Store) (a : addr) (edge : Edge) : Prop :=
  exists node target,
    st !! a = Some node /\ st !! n_target node = Some target
    /\ edge ∈ n_edgesOut target.

(** [edge] passes the workspace filter and the omit filter. *)
Definition survives (opts : Options) (st : Store) (edge : Edge) : Prop :=
  filterBySelectedWorkspaces opts st edge = Ok true
  /\ filterByEdgesTypes opts edge = true.

(** The nodes that can enter the queue of the walk: the tree, the resolved
    targets of edges that pass the filters, and extraneous children. *)
Inductive reachable (lib : Lib) (opts : Options) (st : Store) (tree : addr)
    : addr -> Prop :=
| reachable_tree : reachable lib opts st tree tree
| reachable_edge (a b : addr) (edge : Edge) :
    reachable lib opts st tree a -> edgeOf st a edge ->
    survives opts st edge ->
    edgeItem lib st edge = Some (ArbNode b) -> reachable lib opts st tree b
| reachable_child (a b : addr) (node child : Node) :
    reachable lib opts st tree a -> st !! a = Some node ->
    b ∈ n_children node ->
    st !! b = Some child -> n_extraneous child = true ->
    reachable lib opts st tree b.

(** What the loop of [breadth] keeps about the children of seen objects:
    a resolved child is seen or queued, the errors of a placeholder are
    recorded unless it is still queued. *)
Definition childrenHandled (lib : Lib) (opts : Options) (st0 : Store)
    (queue : list item) (seen : list addr) (w : Walk) : Prop :=
  forall a edge it,
    a ∈ seen -> edgeOf st0 a edge -> survives opts st0 edge ->
    edgeItem lib st0 edge = Some it ->
    match it with
    | ArbNode b => b ∈ seen \/ ArbNode b ∈ queue
    | Plain ph =>
        Plain ph ∈ queue
        \/ (forall errs line,
              findErrors lib st0 (Plain ph) = Ok errs -> line ∈ errs ->
              line ∈ w_errors w)
    end.

(** What the loop of [breadth] keeps about the extraneous children of seen
    nodes: they are seen or queued. *)
Definition extraneousHandled (st0 : Store) (queue : list item)
    (seen : list addr) : Prop :=
  forall a node b child,
    a ∈ seen -> st0 !! a = Some node -> b ∈ n_children node ->
    st0 !! b = Some child -> n_extraneous child = true ->
    b ∈ seen \/ ArbNode b ∈ queue.

(** What the walk has recorded in [seenNodes]: an Arborist node under its
    path, a placeholder under the key undefined. *)
Definition recorded (lib : Lib) (opts : Options) (st0 : Store) (tree : addr)
    (w : Walk) : Prop :=
  forall k it,
    (k, it) ∈ w_seenNodes w ->
    match it with
    | ArbNode b =>
        reachable lib opts st0 tree b
        /\ exists n, st0 !! b = Some n /\ k = Some (n_path n)
    | Plain _ => k = None
    end.

(** The list is in ascending order of [cmp]: no element is followed by a
    smaller one. *)
Fixpoint ascending (cmp : item -> item -> Z) (l : list item) : Prop :=
  match l with
  | x :: r =>
      match r with
      | y :: _ => (cmp x y <= 0)%Z
      | [] => True
      end /\ ascending cmp r
  | [] => True
  end.

(** No two nodes of the store have the same path. *)
Definition pathsDistinct (st : Store) : Prop :=
  forall a b na nb,
    st !! a = Some na -> st !! b = Some nb -> n_path na = n_path nb -> a = b.

(** At most one node of the store is flagged as root. *)
Definition rootUnique (st : Store) : Prop :=
  forall a b na nb,
    st !! a = Some na -> st !! b = Some nb ->
    n_isRoot na = true -> n_isRoot nb = true -> a = b.

(** The two ends of the edge are nodes of the tree; an edge without a node
    at its far end is flagged missing or is optional, as Arborist has it. *)
Definition edgeClosed (st : Store) (e : Edge) : Prop :=
  is_Some (st !! e_from e)
  /\ match e_to e with
     | Some b => is_Some (st !! b)
     | None => e_missing e = true \/ e_optional e = true
     end.

(** The tree has no dangling reference: the target of a node, its children
    and the ends of its edges are nodes of the tree. *)
Definition wellFormed (st : Store) : Prop :=
  forall a n,
    st !! a = Some n ->
    is_Some (st !! n_target n)
    /\ (forall c, c ∈ n_children n -> is_Some (st !! c))
    /\ (forall e, e ∈ n_edgesOut n -> edgeClosed st e).

(** The same as tests, for trees that are given. *)
Definition edgeClosedb (st : Store) (e : Edge) : bool :=
  bool_decide (is_Some (st !! e_from e))
  && match e_to e with
     | Some b => bool_decide (is_Some (st !! b))
     | None => e_missing e || e_optional e
     end.

Definition wellFormedb (st : Store) : bool :=
  forallb (fun n =>
             bool_decide (is_Some (st !! n_target n))
             && forallb (fun c => bool_decide (is_Some (st !! c)))
                        (n_children n)
             && forallb (edgeClosedb st) (n_edgesOut n))
          st.

(** With workspaces disabled, every edge that starts at the project root has
    a node at its far end. *)
Definition workspacesSafe (opts : Options) (st : Store) : Prop :=
  workspacesEnabled opts = false ->
  forall a n e from,
    st !! a = Some n -> e ∈ n_edgesOut n ->
    st !! e_from e = Some from -> n_isProjectRoot from = true ->
    is_Some (e_to e).

(** [normalizeData] leaves the identifier and the version that the getters
    read from the package object as they are. *)
Definition sameIds (lib : Lib) (p p' : Package) : Prop :=
  (forall name root, nodePkgid lib name root p' = nodePkgid lib name root p)
  /\ nodeVersion lib p' = nodeVersion lib p.

(** The package objects of the tree are normalised as far as identifiers
    go: they are of a kind that [normalizeData] keeps and whose identifier
    and version it does not change. *)
Definition normalised (lib : Lib) (st : Store) : Prop :=
  exists clean : Package -> Prop,
    (forall a n, st !! a = Some n -> clean (n_package n))
    /\ (forall p p',
          clean p -> normalizeData lib p = Ok p' ->
          clean p' /\ sameIds lib p p').

(** The node at [b] carries the invalid mark. *)
Definition invalidAt (st : Store) (b : addr) : Prop :=
  exists n, st !! b = Some n /\ n_invalid n = true.

(** No node carries the invalid mark: a tree as Arborist loads it. *)
Definition unmarked (st : Store) : Prop :=
  forall a n, st !! a = Some n -> n_invalid n = false.

(** [edge] is an edge, passing both filters, of a node that the walk can
    reach. *)
Definition walked (lib : Lib) (opts : Options) (st : Store) (tree : addr)
    (edge : Edge) : Prop :=
  exists a,
    reachable lib opts st tree a /\ edgeOf st a edge
    /\ survives opts st edge.

(** [line] reports a problem of [edge]: its target does not satisfy it, or
    it has no target and is not optional. *)
Definition reports (lib : Lib) (st : Store) (edge : Edge) (line : string)
    : Prop :=
  match edgeItem lib st edge with
  | Some (ArbNode b) =>
      e_invalid edge = true
      /\ exists nb,
           st !! b = Some nb
           /\ line = "invalid: " +:+ pkgid lib st nb +:+ " " +:+ n_path nb
  | Some (Plain ph) =>
      (line = "missing: " +:+ ph_pkgid ph +:+ ", required by "
              +:+ ph_missing ph
       /\ e_type edge <> "optional" /\ e_type edge <> "peerOptional")
      \/ (e_invalid edge = true
          /\ line = "invalid: " +:+ ph_pkgid ph +:+ " undefined")
  | None => False
  end.

(** The address of the node that holds the package object of the node at
    [a]: its target, or the node itself when it has none. *)
Definition packageAddr (st : Store) (a : addr) (node : Node) : addr :=
  match st !! n_target node with
  | Some _ => n_target node
  | None => a
  end.

(** The package object held at [b] is the one of a node of the list: it was
    handed to [normalizeData]. *)
Definition handedOver (st : Store) (nodes : list item) (b : addr) : Prop :=
  exists a node,
    ArbNode a ∈ nodes /\ st !! a = Some node /\ packageAddr st a node = b.

(** What the builder writes: package objects, and only those of the nodes
    of the list. *)
Definition builderWrites (st st' : Store) (nodes : list item) : Prop :=
  Forall2 samePackageShape st st'
  /\ forall b n n',
       st !! b = Some n -> st' !! b = Some n' -> n' <> n ->
       handedOver st nodes b.

(** The record was made from the node: it has its name and its location. *)
Definition recordOf (n : Node) (p : SpdxPackage) : Prop :=
  name p = n_name n /\ packageFileName p = n_location n.

(** [n'] is [n] up to the package object, and the getters read the same
    identifier and version from both package objects. *)
Definition keptIds (lib : Lib) (n n' : Node) : Prop :=
  samePackageShape n n' /\ sameIds lib (n_package n) (n_package n').

(** What the loop of [breadth] keeps, for a walk that started at [tree] in
    the store [st0]. *)
Definition walkInvariant (lib : Lib) (opts : Options) (st0 : Store)
    (tree : addr) (queue : list item) (seen : list addr) (w : Walk) : Prop :=
  frame st0 (w_store w)
  /\ NoDup (w_errors w)
  /\ (forall b, ArbNode b ∈ queue -> reachable lib opts st0 tree b)
  /\ recorded lib opts st0 tree w
  /\ NoDup (w_seenNodes w).*1
  /\ (forall a, a ∈ seen ->
        exists n, st0 !! a = Some n
                  /\ Some (n_path n) ∈ (w_seenNodes w).*1)
  /\ (tree ∈ seen \/ ArbNode tree ∈ queue)
  /\ (pathsDistinct st0 -> extraneousHandled st0 queue seen)
  /\ childrenHandled lib opts st0 queue seen w.

(** The store [st] descends from [st0] by normalisations: its package
    objects are of the kind [clean] and give the same identifiers. *)
Definition normalStore (lib : Lib) (clean : Package -> Prop)
    (st0 st : Store) : Prop :=
  Forall2 (keptIds lib) st0 st
  /\ forall a n, st !! a = Some n -> clean (n_package n).

(** ** Sample data *)

(** A stand-in for the libraries.  The getters of a node follow Arborist:
    the identifier is the name of the node (for the project root, the name
    in package.json if there is one), an alias marker when the package has
    another name than the node, and the version in package.json.
    normalize-package-data strips the [v] in front of a version and gives a
    homepage without protocol the prefix [http://].  The other functions
    are the simplest ones of their type. *)
Definition samplePkgid (name : string) (isProjectRoot : bool) (p : Package)
    : string :=
  let pname := default "" (pk_name p) in
  let myname :=
    if isProjectRoot then (if String.eqb pname "" then name else pname)
    else name in
  let alias :=
    if negb isProjectRoot && negb (String.eqb pname "")
       && negb (String.eqb myname pname)
    then "npm:" +:+ pname +:+ "@" else "" in
  myname +:+ "@" +:+ alias +:+ default "" (pk_version p).

Definition cleanVersion (v : string) : string :=
  match v with
  | String "v"%char r => r
  | _ => v
  end.

Definition sampleNormalize (p : Package) : outcome Package Package :=
  Ok {| pk_name := pk_name p;
        pk_version := cleanVersion <$> pk_version p;
        pk_description := pk_description p;
        pk_homepage :=
          match pk_homepage p with
          | Some (Str h) =>
              if String.prefix "http" h || String.eqb h "" then Some (Str h)
              else Some (Str ("http://" +:+ h))
          | _ => None
          end;
        pk_license := pk_license p |}.

Definition asciiUpper (c : ascii) : ascii :=
  let n := nat_of_ascii c in
  if (97 <=? n)%nat && (n <=? 122)%nat then ascii_of_nat (n - 32) else c.

Fixpoint sampleUpperCase (s : string) : string :=
  match s with
  | EmptyString => EmptyString
  | String c r => String (asciiUpper c) (sampleUpperCase r)
  end.

(** The libraries around a given tree on disk. *)
Definition sampleLib (st : Store) (tree : addr) : Lib :=
  {| newArborist :=
       Some {| loadVirtual := None; loadActual := Some (st, tree) |};
     nodePkgid := samplePkgid;
     nodeVersion := fun p => default "" (pk_version p);
     normalizeData := sampleNormalize;
     npaEscapedName := fun id => Some id;
     npaToPurl := fun id => Some ("pkg:npm/" +:+ id);
     npaType := fun _ => Some "remote";
     ssriParse := fun _ => Some ("sha512", "00");
     localeCompare := fun a b =>
       if String.eqb a b then 0%Z else if String.ltb a b then (-1)%Z else 1%Z;
     EOL := String (ascii_of_nat 10) EmptyString;
     toUpperCase := sampleUpperCase;
     usageError := fun prefix => prefix;
     cyclonedxOutput := fun _ s _ _ => (Some "", s) |}.

(** The libraries when no tree is looked at. *)
Definition sampleLib0 : Lib := sampleLib [] 0.

Definition sampleEnv : Env :=
  {| npmVersion := "10.2.0"; uuid := "u-1"; now := "2023-10-01T00:00:00.000Z" |}.

Definition samplePackage (name version : string) : Package :=
  {| pk_name := Some name;
     pk_version := Some version;
     pk_description := Some (Str "an app");
     pk_homepage := Some (Str "example.com");
     pk_license := Some (Str "MIT") |}.

Definition mkNode (name version path : string) (root link : bool)
    (target : addr) (edges : list Edge) : Node :=
  {| n_name := name;
     n_location := path; n_path := "/p/" +:+ path;
     n_resolved := Some ("https://registry.npmjs.org/" +:+ name);
     n_integrity := None;
     n_isRoot := root; n_isLink := link; n_isWorkspace := false;
     n_isProjectRoot := root; n_extraneous := false; n_target := target;
     n_edgesOut := edges; n_children := [];
     n_package := samplePackage name version;
     n_invalid := false; n_type := None |}.

Definition mkEdge (from : addr) (to : option addr) (name spec type : string)
    : Edge :=
  {| e_from := from; e_to := to; e_name := name; e_spec := spec;
     e_type := type;
     e_missing :=
       negb (bool_decide (is_Some to))
       && negb (String.eqb type "optional" || String.eqb type "peerOptional");
     e_invalid := false;
     e_optional := String.eqb type "optional" || String.eqb type "peerOptional" |}.

Definition sampleOptions (omitted : list string) : Options :=
  {| sbomFormat := Some "spdx"; omit := omitted; packageLockOnly := false;
     workspacesEnabled := true; wsNodes := None;
     packageType := Some "application" |}.

(** [app@1.0.0] depends on [left@1.0.0] (prod), resolved. *)
Definition storeResolved : Store :=
  [ mkNode "app" "1.0.0" "" true false 0
      [ mkEdge 0 (Some 1) "left" "^1.0.0" "prod" ];
    mkNode "left" "1.0.0" "node_modules/left" false false 1 [] ].


(** [app@1.0.0] declares the dev dependency [right@^1.0.0], which no node
    resolves. *)
Definition storeMissingDev : Store :=
  [ mkNode "app" "1.0.0" "" true false 0
      [ mkEdge 0 None "right" "^1.0.0" "dev" ] ].

(** [app@1.0.0] declares [foo@^2.0.0] (prod) and [right@^1.0.0] (dev); no
    node resolves either. *)
Definition storeMissingTwo : Store :=
  [ mkNode "app" "1.0.0" "" true false 0
      [ mkEdge 0 None "foo" "^2.0.0" "prod";
        mkEdge 0 None "right" "^1.0.0" "dev" ] ].

(** [app@1.0.0] with a link in [node_modules] to the folder of
    [left@1.0.0]. *)
Definition storeLink : Store :=
  [ mkNode "app" "1.0.0" "" true false 0
      [ mkEdge 0 (Some 1) "left" "^1.0.0" "prod" ];
    mkNode "left" "1.0.0" "node_modules/left" false true 2 [];
    mkNode "left" "1.0.0" "../left" false false 2 [] ].

(** Two installed copies of [b@1.0.0], one below [app@1.0.0] and one below
    [c@1.0.0]; each declares [foo@^1.0.0], which no node resolves. *)
Definition storeTwoPaths : Store :=
  [ mkNode "app" "1.0.0" "" true false 0
      [ mkEdge 0 (Some 1) "b" "^1.0.0" "prod";
        mkEdge 0 (Some 2) "c" "^1.0.0" "prod" ];
    mkNode "b" "1.0.0" "node_modules/b" false false 1
      [ mkEdge 1 None "foo" "^1.0.0" "prod" ];
    mkNode "c" "1.0.0" "node_modules/c" false false 2
      [ mkEdge 2 (Some 3) "b" "^1.0.0" "prod" ];
    mkNode "b" "1.0.0" "node_modules/c/node_modules/b" false false 3
      [ mkEdge 3 None "foo" "^1.0.0" "prod" ] ].

(** The state in which the walk of [storeMissingDev] ends when nothing is
    omitted. *)
Definition walkMissingDev : Walk :=
  {| w_store := storeMissingDev;
     w_seenNodes :=
       [ (Some "/p/", ArbNode 0);
         (None, Plain {| ph_name := "right"; ph_pkgid := "right@^1.0.0";
                         ph_missing := "app@1.0.0"; ph_invalid := false;
                         ph_type := "dev" |}) ];
     w_errors := [ "missing: right@^1.0.0, required by app@1.0.0" ] |}.

(** [app@1.0.0] depends on [b@1.0.0] and [c@1.0.0]; [c] depends on the
    same [b]. *)
Definition storeShared : Store :=
  [ mkNode "app" "1.0.0" "" true false 0
      [ mkEdge 0 (Some 1) "b" "^1.0.0" "prod";
        mkEdge 0 (Some 2) "c" "^1.0.0" "prod" ];
    mkNode "b" "1.0.0" "node_modules/b" false false 1 [];
    mkNode "c" "1.0.0" "node_modules/c" false false 2
      [ mkEdge 2 (Some 1) "b" "^1.0.0" "prod" ] ].

(** [app@1.0.0] declares [zeta@1.0.0] before [alpha@1.0.0]. *)
Definition storeUnsorted : Store :=
  [ mkNode "app" "1.0.0" "" true false 0
      [ mkEdge 0 (Some 1) "zeta" "^1.0.0" "prod";
        mkEdge 0 (Some 2) "alpha" "^1.0.0" "prod" ];
    mkNode "zeta" "1.0.0" "node_modules/zeta" false false 1 [];
    mkNode "alpha" "1.0.0" "node_modules/alpha" false false 2 [] ].

(** [app@1.0.0] depends on [left@1.0.0] (prod) and [right@1.0.0] (dev),
    both resolved. *)
Definition storeDevResolved : Store :=
  [ mkNode "app" "1.0.0" "" true false 0
      [ mkEdge 0 (Some 1) "left" "^1.0.0" "prod";
        mkEdge 0 (Some 2) "right" "^1.0.0" "dev" ];
    mkNode "left" "1.0.0" "node_modules/left" false false 1 [];
    mkNode "right" "1.0.0" "node_modules/right" false false 2 [] ].

(** An edge to [left@1.0.0] that the resolver flagged invalid. *)
Definition edgeInvalid : Edge :=
  {| e_from := 0; e_to := Some 1; e_name := "left"; e_spec := "^2.0.0";
     e_type := "prod"; e_missing := false; e_invalid := true;
     e_optional := false |}.

(** [app@1.0.0] wants [left@^2.0.0] and finds [left@1.0.0]. *)
Definition storeInvalid : Store :=
  [ mkNode "app" "1.0.0" "" true false 0 [ edgeInvalid ];
    mkNode "left" "1.0.0" "node_modules/left" false false 1 [] ].

(** A node with the given children in [node_modules] and the given
    extraneous flag. *)
Definition withChildren (n : Node) (children : list addr) (extraneous : bool)
    : Node :=
  {| n_name := n_name n;
     n_location := n_location n; n_path := n_path n;
     n_resolved := n_resolved n; n_integrity := n_integrity n;
     n_isRoot := n_isRoot n; n_isLink := n_isLink n;
     n_isWorkspace := n_isWorkspace n; n_isProjectRoot := n_isProjectRoot n;
     n_extraneous := extraneous; n_target := n_target n;
     n_edgesOut := n_edgesOut n; n_children := children;
     n_package := n_package n; n_invalid := n_invalid n;
     n_type := n_type n |}.

(** [app@1.0.0] declares nothing; [stray@1.0.0] is installed in its
    [node_modules] all the same. *)
Definition storeExtraneous : Store :=
  [ withChildren (mkNode "app" "1.0.0" "" true false 0 []) [1] false;
    withChildren (mkNode "stray" "1.0.0" "node_modules/stray" false false 1 [])
      [] true ].

(** The same, where [stray@1.0.0] declares [foo@^1.0.0], which no node
    resolves. *)
Definition storeExtraneousMissing : Store :=
  [ withChildren (mkNode "app" "1.0.0" "" true false 0 []) [1] false;
    withChildren
      (mkNode "stray" "1.0.0" "node_modules/stray" false false 1
         [ mkEdge 1 None "foo" "^1.0.0" "prod" ])
      [] true ].

(** A workspace: the link in [node_modules] or the folder it points to. *)
Definition mkWorkspace (name version path : string) (link : bool)
    (target : addr) : Node :=
  {| n_name := name;
     n_location := path; n_path := "/p/" +:+ path;
     n_resolved := None; n_integrity := None;
     n_isRoot := false; n_isLink := link; n_isWorkspace := true;
     n_isProjectRoot := false; n_extraneous := false; n_target := target;
     n_edgesOut := []; n_children := [];
     n_package := samplePackage name version;
     n_invalid := false; n_type := None |}.

(** [app@1.0.0] with the workspaces [a] and [b], each a link in
    [node_modules] to a folder under [packages]. *)
Definition storeWorkspaces : Store :=
  [ mkNode "app" "1.0.0" "" true false 0
      [ mkEdge 0 (Some 1) "a" "*" "workspace";
        mkEdge 0 (Some 3) "b" "*" "workspace" ];
    mkWorkspace "a" "1.0.0" "node_modules/a" true 2;
    mkWorkspace "a" "1.0.0" "packages/a" false 2;
    mkWorkspace "b" "1.0.0" "node_modules/b" true 4;
    mkWorkspace "b" "1.0.0" "packages/b" false 4 ].

(** Options that select the workspace [a] of [storeWorkspaces]. *)
Definition optionsWorkspaceA : Options :=
  {| sbomFormat := Some "spdx"; omit := []; packageLockOnly := false;
     workspacesEnabled := true; wsNodes := Some [2]; packageType := None |}.

(** [app@1.0.0] depends on [left@1.0.0] (prod) and [right@1.0.0] (dev);
    [left] depends on the same [right]. *)
Definition storeDevShared : Store :=
  [ mkNode "app" "1.0.0" "" true false 0
      [ mkEdge 0 (Some 1) "left" "^1.0.0" "prod";
        mkEdge 0 (Some 2) "right" "^1.0.0" "dev" ];
    mkNode "left" "1.0.0" "node_modules/left" false false 1
      [ mkEdge 1 (Some 2) "right" "^1.0.0" "prod" ];
    mkNode "right" "1.0.0" "node_modules/right" false false 2 [] ].

(** Options with workspaces disabled. *)
Definition optionsNoWorkspaces : Options :=
  {| sbomFormat := Some "spdx"; omit := []; packageLockOnly := false;
     workspacesEnabled := false; wsNodes := None; packageType := None |}.

(** Options for the package-lock-only mode. *)
Definition optionsLockOnly : Options :=
  {| sbomFormat := Some "spdx"; omit := []; packageLockOnly := true;
     workspacesEnabled := true; wsNodes := None; packageType := None |}.

(** [old@1.0.0], whose package.json gives the license as an object, in the
    style of old packages. *)
Definition storeObjectLicense : Store :=
  [ setPackage (mkNode "old" "1.0.0" "" true false 0 [])
      {| pk_name := Some "old"; pk_version := Some "1.0.0";
         pk_description := None; pk_homepage := None;
         pk_license := Some (Other "{ type: 'ISC' }") |} ].

(** Two project folders, each flagged as root, that depend on each
    other. *)
Definition storeTwoRoots : Store :=
  [ mkNode "app" "1.0.0" "" true false 0
      [ mkEdge 0 (Some 1) "other" "^1.0.0" "prod" ];
    mkNode "other" "1.0.0" "../other" true false 1
      [ mkEdge 1 (Some 0) "app" "^1.0.0" "prod" ] ].

(** * Properties *)

(** ** Strings *)

Lemma append_cons (x : ascii) (a b : string) :
  String x a +:+ b = String x (a +:+ b).
Proof. reflexivity. Qed.

Lemma append_nil_l (b : string) : "" +:+ b = b.
Proof. reflexivity. Qed.

Lemma append_nil_r (a : string) : a +:+ "" = a.
Proof.
  induction a as [|x a IH]; [done|]. by rewrite append_cons, IH.
Qed.

Lemma append_assoc (a b c : string) : (a +:+ b) +:+ c = a +:+ (b +:+ c).
Proof.
  induction a as [|x a IH]; [done|]. by rewrite !append_cons, IH.
Qed.

Lemma contains_refl (s : string) : contains s s.
Proof. exists "", "". by rewrite append_nil_l, append_nil_r. Qed.

Lemma contains_app_l (t u s : string) : contains t s -> contains (t +:+ u) s.
Proof.
  intros (pre & post & ->). exists pre, (post +:+ u).
  by rewrite !append_assoc.
Qed.

Lemma contains_app_r (t u s : string) : contains u s -> contains (t +:+ u) s.
Proof.
  intros (pre & post & ->). exists (t +:+ pre), post.
  by rewrite !append_assoc.
Qed.

Lemma contains_trans (t u s : string) :
  contains t u -> contains u s -> contains t s.
Proof.
  intros (p1 & q1 & ->) (p2 & q2 & ->).
  exists (p1 +:+ p2), (q2 +:+ q1). by rewrite !append_assoc.
Qed.

Lemma join_contains (sep : string) (l : list string) (x : string) :
  x ∈ l -> contains (join sep l) x.
Proof.
  induction l as [|y l IH]; [by intros ?%elem_of_nil|].
  intros [->|Hin]%elem_of_cons.
  - destruct l; simpl; [apply contains_refl|].
    apply contains_app_l, contains_refl.
  - destruct l as [|z l]; [by apply elem_of_nil in Hin|].
    change (join sep (y :: z :: l)) with (y +:+ sep +:+ join sep (z :: l)).
    by apply contains_app_r, contains_app_r, IH.
Qed.

(** ** The SPDX identifier (C5) *)

(** The identifier is the prefix [SPDXRef-Package-] followed by the package
    identifier without one leading [@], with every [/] turned into [.] and
    every other [@] into [-]. *)
Lemma toSpdxID_unfold (id : string) :
  toSpdxID id
  = "SPDXRef-Package-"
    +:+ replaceAll "@" "-" (replaceAll "/" "." (stripLeadingAt id)).
Proof. reflexivity. Qed.

(** The two substitutions send two characters to the same one only when the
    characters are equal or are a pair that the substitutions confuse. *)
Lemma substituted_chars (x y : ascii) :
  confusedChars x y = false ->
  (if Ascii.eqb (if Ascii.eqb x "/" then "."%char else x) "@"
   then "-"%char else if Ascii.eqb x "/" then "."%char else x)
  = (if Ascii.eqb (if Ascii.eqb y "/" then "."%char else y) "@"
     then "-"%char else if Ascii.eqb y "/" then "."%char else y) ->
  x = y.
Proof.
  unfold confusedChars. intros Hc Heq.
  destruct (Ascii.eqb_spec x "/") as [Hx1|Hx1];
    destruct (Ascii.eqb_spec y "/") as [Hy1|Hy1]; [congruence|..].
  - destruct (Ascii.eqb_spec y "@") as [Hy2|Hy2]; [done|].
    simpl in Heq. subst. done.
  - destruct (Ascii.eqb_spec x "@") as [Hx2|Hx2]; [done|].
    simpl in Heq. subst. vm_compute in Hc. done.
  - destruct (Ascii.eqb_spec x "@") as [Hx2|Hx2];
      destruct (Ascii.eqb_spec y "@") as [Hy2|Hy2]; [congruence|..].
    + subst. done.
    + subst. done.
    + done.
Qed.

Lemma substituted_inj (s t : string) :
  confused s t = false ->
  replaceAll "@" "-" (replaceAll "/" "." s)
  = replaceAll "@" "-" (replaceAll "/" "." t) ->
  s = t.
Proof.
  revert t. induction s as [|x s IH]; intros [|y t]; simpl; try done.
  intros [Hc Hrest]%orb_false_iff Heq. injection Heq as Hhd Htl.
  f_equal; [by apply substituted_chars|by apply IH].
Qed.

Lemma scoped_true (s : string) :
  scoped s = true -> s = String "@" (stripLeadingAt s).
Proof.
  destruct s as [|x s]; [done|].
  by destruct x as [[] [] [] [] [] [] [] []].
Qed.

Lemma scoped_false (s : string) : scoped s = false -> stripLeadingAt s = s.
Proof.
  destruct s as [|x s]; [done|].
  by destruct x as [[] [] [] [] [] [] [] []].
Qed.

Lemma scoped_strip (a b : string) :
  scoped a = scoped b -> stripLeadingAt a = stripLeadingAt b -> a = b.
Proof.
  intros Hscope Hstrip. destruct (scoped b) eqn:Hb.
  - by rewrite (scoped_true a), (scoped_true b), Hstrip.
  - by rewrite <- (scoped_false a), <- (scoped_false b).
Qed.

(** The two substitutions send two characters to the same one exactly when
    the characters are equal or are a pair that the substitutions
    confuse. *)
Lemma substituted_chars_alike (x y : ascii) :
  (if Ascii.eqb (if Ascii.eqb x "/" then "."%char else x) "@"
   then "-"%char else if Ascii.eqb x "/" then "."%char else x)
  = (if Ascii.eqb (if Ascii.eqb y "/" then "."%char else y) "@"
     then "-"%char else if Ascii.eqb y "/" then "."%char else y)
  <-> Ascii.eqb x y || confusedChars x y = true.
Proof.
  unfold confusedChars.
  destruct (Ascii.eqb_spec x y) as [Hxy|Hxy]; [by subst|].
  destruct (Ascii.eqb_spec x "/") as [Hx1|Hx1];
    destruct (Ascii.eqb_spec x ".") as [Hx2|Hx2];
    destruct (Ascii.eqb_spec x "@") as [Hx3|Hx3];
    destruct (Ascii.eqb_spec x "-") as [Hx4|Hx4];
    try congruence;
    destruct (Ascii.eqb_spec y "/") as [Hy1|Hy1];
    destruct (Ascii.eqb_spec y ".") as [Hy2|Hy2];
    destruct (Ascii.eqb_spec y "@") as [Hy3|Hy3];
    destruct (Ascii.eqb_spec y "-") as [Hy4|Hy4];
    try congruence; simpl; split; intros Heq; try done; congruence.
Qed.

Lemma substituted_alike (s t : string) :
  replaceAll "@" "-" (replaceAll "/" "." s)
  = replaceAll "@" "-" (replaceAll "/" "." t)
  <-> alike s t = true.
Proof.
  revert t. induction s as [|x s IH]; intros [|y t]; simpl; try done.
  rewrite andb_true_iff, <- IH, <- substituted_chars_alike.
  split; [intros [= ? ?]; done|intros [-> ->]; done].
Qed.

(** C5, as the code has it.  The SPDX identifier of a node is a function of
    its package identifier alone ([toSpdxID_unfold]), and it is not
    injective.  Two package identifiers have the same SPDX identifier
    exactly when, the leading [@] of a scope set aside, they have the same
    length and hold at every place the same character, or a slash against
    a dot, or an at-sign against a hyphen.  So two package identifiers that
    are both scoped or both unscoped, and that at no place hold a slash
    against a dot or an at-sign against a hyphen, have the same SPDX
    identifier only when they are equal. *)
Theorem toSpdxID_injective_up_to_substitutions (a b : string) :
  (toSpdxID a = toSpdxID b
   <-> alike (stripLeadingAt a) (stripLeadingAt b) = true)
  /\ (scoped a = scoped b ->
      confused (stripLeadingAt a) (stripLeadingAt b) = false ->
      toSpdxID a = toSpdxID b -> a = b).
Proof.
  rewrite !toSpdxID_unfold. split.
  - rewrite <- substituted_alike. split; [|by intros ->].
    by intros Heq%(inj (String.app _)).
  - intros Hscope Hconf Heq%(inj (String.app _)).
    by apply scoped_strip, substituted_inj.
Qed.

(** C5 as stated fails: a scoped name and a dotted name collide. *)
Lemma toSpdxID_not_injective :
  ~ (forall a b : string, toSpdxID a = toSpdxID b -> a = b).
Proof.
  intros Hinj. by specialize (Hinj "@a/b@1.0.0" "a.b@1.0.0" eq_refl).
Qed.

Lemma toSpdxID_injective_up_to_substitutions_witness :
  scoped "@babel/core@7.22.5" = scoped "@babel/cli@7.22.5"
  /\ confused (stripLeadingAt "@babel/core@7.22.5")
              (stripLeadingAt "@babel/cli@7.22.5") = false
  /\ toSpdxID "@babel/core@7.22.5" <> toSpdxID "@babel/cli@7.22.5"
  /\ alike (stripLeadingAt "@a/b@1.0.0") (stripLeadingAt "a.b@1.0.0") = true
  /\ toSpdxID "@a/b@1.0.0" = toSpdxID "a.b@1.0.0".
Proof.
  split; [reflexivity|]. split; [reflexivity|]. split.
  - intros Heq.
    apply (proj2 (toSpdxID_injective_up_to_substitutions
                    "@babel/core@7.22.5" "@babel/cli@7.22.5")) in Heq;
      [discriminate Heq|reflexivity|reflexivity].
  - split; [reflexivity|].
    apply (proj1 (toSpdxID_injective_up_to_substitutions
                    "@a/b@1.0.0" "a.b@1.0.0")).
    reflexivity.
Defined.

(** ** Reading results *)

Lemma bind_Ok {E A B : Type} (r : outcome E A) (k : A -> outcome E B) (b : B) :
  bind r k = Ok b -> exists a, r = Ok a /\ k a = Ok b.
Proof. destruct r as [a|e]; simpl; [eauto|discriminate]. Qed.

Lemma bind_Throw {E A B : Type} (r : outcome E A) (k : A -> outcome E B)
    (e : E) :
  bind r k = Throw e -> r = Throw e \/ exists a, r = Ok a /\ k a = Throw e.
Proof. destruct r as [a|e']; simpl; [eauto|]. intros [= ->]. by left. Qed.

Lemma inState_Ok {A : Type} (st : Store) (r : result A) (a : A) :
  inState st r = Ok a <-> r = Ok a.
Proof. destruct r; simpl; split; intros H; by simplify_eq. Qed.

Lemma inState_Throw {A : Type} (st s : Store) (r : result A) (e : exn) :
  inState st r = Throw (e, s) <-> r = Throw e /\ s = st.
Proof.
  destruct r; simpl; split; [done|by intros []| |]; intros H.
  - by simplify_eq.
  - destruct H. by simplify_eq.
Qed.

Lemma liftLib_Ok {A : Type} (r : option A) (a : A) :
  liftLib r = Ok a <-> r = Some a.
Proof. destruct r; split; intros H; by simplify_eq/=. Qed.

Lemma deref_Ok (st : Store) (a : addr) (n : Node) :
  deref st a = Ok n <-> st !! a = Some n.
Proof.
  unfold deref. destruct (st !! a); split; intros H; by simplify_eq.
Qed.

(** Split the first [let*] of a hypothesis that says a computation returned. *)
Tactic Notation "bind_inv" hyp(H) "as" ident(x) ident(Hx) :=
  apply bind_Ok in H as (x & Hx & H); try apply inState_Ok in Hx.

Lemma filterM_Ok_elem {A : Type} (f : A -> result bool) (l l' : list A) :
  filterM f l = Ok l' ->
  forall x, x ∈ l -> exists b, f x = Ok b /\ (b = true -> x ∈ l').
Proof.
  revert l'. induction l as [|y l IH]; intros l' H x Hx.
  { by apply elem_of_nil in Hx. }
  simpl in H. bind_inv H as b0 Hb0. bind_inv H as r Hr. simplify_eq.
  apply elem_of_cons in Hx as [->|Hx].
  - exists b0. split; [done|]. intros ->. apply elem_of_cons; auto.
  - destruct (IH _ Hr _ Hx) as (b & Hb & Hin). exists b. split; [done|].
    intros Hb'. specialize (Hin Hb'). destruct b0; [|done].
    apply elem_of_cons; auto.
Qed.

Lemma filterM_Ok_sub {A : Type} (f : A -> result bool) (l l' : list A) :
  filterM f l = Ok l' -> forall x, x ∈ l' -> x ∈ l /\ f x = Ok true.
Proof.
  revert l'. induction l as [|y l IH]; intros l' H x Hx; simpl in H.
  { simplify_eq. by apply elem_of_nil in Hx. }
  bind_inv H as b0 Hb0. bind_inv H as r Hr. simplify_eq. destruct b0.
  - apply elem_of_cons in Hx as [->|Hx].
    + split; [apply elem_of_cons; auto|done].
    + destruct (IH _ Hr _ Hx). split; [apply elem_of_cons; auto|done].
  - destruct (IH _ Hr _ Hx). split; [apply elem_of_cons; auto|done].
Qed.

Lemma findM_Ok_Some {A : Type} (f : A -> result bool) (l : list A) (x : A) :
  findM f l = Ok (Some x) -> x ∈ l /\ f x = Ok true.
Proof.
  induction l as [|y l IH]; simpl; [discriminate|].
  intros H. bind_inv H as b0 Hb0. destruct b0.
  - simplify_eq. split; [apply elem_of_cons; auto|done].
  - destruct (IH H). split; [apply elem_of_cons; auto|done].
Qed.

(** ** Relationships (C7) *)

Lemma toSpdxRelationship_Some (lib : Lib) (st : Store) (node : Node)
    (edge : Edge) (rel : Relationship) :
  toSpdxRelationship lib st node edge = Some rel ->
  exists to,
    e_to edge ≫= (st !!.) = Some to
    /\ spdxElementId rel = toSpdxID (pkgid lib st node)
    /\ relatedSpdxElement rel = toSpdxID (pkgid lib st to)
    /\ relationshipType rel
       = (if String.eqb (e_type edge) "peer" then "HAS_PREREQUISITE"
          else if String.eqb (e_type edge) "optional"
               then "OPTIONAL_DEPENDENCY_OF"
          else if String.eqb (e_type edge) "dev" then "DEV_DEPENDENCY_OF"
          else "DEPENDS_ON").
Proof.
  unfold toSpdxRelationship. destruct (e_to edge ≫= _) as [to|]; [|done].
  intros [= <-]. by exists to.
Qed.

(** C7.  The type of a relationship record depends on the kind of its edge
    alone: [peer] gives [HAS_PREREQUISITE], [optional] gives
    [OPTIONAL_DEPENDENCY_OF], [dev] gives [DEV_DEPENDENCY_OF], and every
    other kind ([prod] and [peerOptional] among them) gives [DEPENDS_ON]. *)
Theorem toSpdxRelationship_type (lib : Lib) (st : Store) (node : Node)
    (edge : Edge) (rel : Relationship) :
  toSpdxRelationship lib st node edge = Some rel ->
  (e_type edge = "peer" -> relationshipType rel = "HAS_PREREQUISITE")
  /\ (e_type edge = "optional" ->
      relationshipType rel = "OPTIONAL_DEPENDENCY_OF")
  /\ (e_type edge = "dev" -> relationshipType rel = "DEV_DEPENDENCY_OF")
  /\ (e_type edge <> "peer" -> e_type edge <> "optional" ->
      e_type edge <> "dev" -> relationshipType rel = "DEPENDS_ON")
  /\ (forall lib' st' node' edge' rel',
        toSpdxRelationship lib' st' node' edge' = Some rel' ->
        e_type edge' = e_type edge ->
        relationshipType rel' = relationshipType rel).
Proof.
  intros (to & _ & _ & _ & Htype)%toSpdxRelationship_Some.
  repeat split.
  - intros Hk. by rewrite Htype, Hk.
  - intros Hk. by rewrite Htype, Hk.
  - intros Hk. by rewrite Htype, Hk.
  - intros H1%String.eqb_neq H2%String.eqb_neq H3%String.eqb_neq.
    by rewrite Htype, H1, H2, H3.
  - intros lib' st' node' edge' rel'
      (to' & _ & _ & _ & Htype')%toSpdxRelationship_Some Hk.
    by rewrite Htype, Htype', Hk.
Qed.


Lemma filter_none {A : Type} (P : A -> Prop) `{!forall x, Decision (P x)}
    (l : list A) :
  (forall x, x ∈ l -> ~ P x) -> filter P l = [].
Proof.
  induction l as [|x l IH]; intros Hnone; [done|].
  rewrite filter_cons_False by (apply Hnone, elem_of_cons; auto).
  apply IH. intros y Hy. apply Hnone, elem_of_cons; auto.
Qed.

(** ** Stores that differ by marks or by package objects *)

#[global] Instance sameShape_refl : Reflexive sameShape.
Proof. intros n. by destruct n. Qed.

#[global] Instance sameShape_trans : Transitive sameShape.
Proof. unfold sameShape. intros n1 n2 n3 -> ->. by destruct n1. Qed.

#[global] Instance samePackageShape_refl : Reflexive samePackageShape.
Proof. intros n. by destruct n. Qed.

#[global] Instance samePackageShape_trans : Transitive samePackageShape.
Proof. unfold samePackageShape. intros n1 n2 n3 -> ->. by destruct n1. Qed.

#[global] Instance sameNode_refl : Reflexive sameNode.
Proof. intros n. by destruct n. Qed.

#[global] Instance sameNode_trans : Transitive sameNode.
Proof. unfold sameNode. intros n1 n2 n3 -> ->. by destruct n1. Qed.

Lemma sameShape_sameNode (n n' : Node) : sameShape n n' -> sameNode n n'.
Proof. unfold sameShape, sameNode. intros ->. by destruct n. Qed.

Lemma samePackageShape_sameNode (n n' : Node) :
  samePackageShape n n' -> sameNode n n'.
Proof. unfold samePackageShape, sameNode. intros ->. by destruct n. Qed.

Lemma sameShape_setMarks (n n' : Node) (inv : bool) (ty : option string) :
  sameShape n n' -> sameShape n (setMarks n' inv ty).
Proof. unfold sameShape. intros ->. by destruct n. Qed.

Lemma samePackageShape_setPackage (n n' : Node) (p : Package) :
  samePackageShape n n' -> samePackageShape n (setPackage n' p).
Proof. unfold samePackageShape. intros ->. by destruct n. Qed.

(** What the marks leave as it is. *)
Lemma sameShape_fields (n n' : Node) :
  sameShape n n' ->
  n_name n' = n_name n /\ n_path n' = n_path n
  /\ n_target n' = n_target n /\ n_edgesOut n' = n_edgesOut n
  /\ n_children n' = n_children n
  /\ n_isProjectRoot n' = n_isProjectRoot n
  /\ n_isWorkspace n' = n_isWorkspace n
  /\ n_extraneous n' = n_extraneous n
  /\ n_package n' = n_package n.
Proof. unfold sameShape. intros ->. by destruct n. Qed.

(** What a rewritten package object leaves as it is. *)
Lemma samePackageShape_fields (n n' : Node) :
  samePackageShape n n' ->
  n_name n' = n_name n /\ n_location n' = n_location n
  /\ n_path n' = n_path n /\ n_target n' = n_target n
  /\ n_isRoot n' = n_isRoot n /\ n_isProjectRoot n' = n_isProjectRoot n
  /\ n_edgesOut n' = n_edgesOut n.
Proof. unfold samePackageShape. intros ->. by destruct n. Qed.

Lemma frame_refl (st : Store) : frame st st.
Proof. unfold frame. reflexivity. Qed.

Lemma frame_trans (st1 st2 st3 : Store) :
  frame st1 st2 -> frame st2 st3 -> frame st1 st3.
Proof. unfold frame. intros. by etrans. Qed.

Lemma frame_lookup (st st' : Store) (a : addr) :
  frame st st' -> option_Forall2 sameShape (st !! a) (st' !! a).
Proof. intros H. by apply Forall2_lookup. Qed.

Lemma frame_insert (st st' : Store) (a : addr) (n' : Node) (inv : bool)
    (ty : option string) :
  frame st st' -> st' !! a = Some n' ->
  frame st (<[a := setMarks n' inv ty]> st').
Proof.
  intros Hframe Ha. pose proof (frame_lookup _ _ a Hframe) as Hl.
  rewrite Ha in Hl. inversion Hl as [n ? Hshape Hn|]; subst.
  rewrite <- (list_insert_id st a n) by done.
  apply Forall2_insert; [done|by apply sameShape_setMarks].
Qed.

Lemma frame_sameNode (st st' : Store) :
  frame st st' -> Forall2 sameNode st st'.
Proof.
  intros H. eapply Forall2_impl; [exact H|]. apply sameShape_sameNode.
Qed.

Lemma samePackageShape_sameNode_all (st st' : Store) :
  Forall2 samePackageShape st st' -> Forall2 sameNode st st'.
Proof.
  intros H. eapply Forall2_impl; [exact H|]. apply samePackageShape_sameNode.
Qed.

(** Reading through the marks. *)
Ltac frame_at Hframe a n n' Hn Hn' Hshape :=
  let Hl := fresh "Hl" in
  pose proof (frame_lookup _ _ a Hframe) as Hl;
  inversion Hl as [n n' Hshape Hn Hn'|Hn Hn']; clear Hl;
  symmetry in Hn; symmetry in Hn'.

(** The package object of a node is the one held at its [packageAddr]. *)
Lemma packageOf_holder (st : Store) (b : addr) (n : Node) :
  st !! b = Some n ->
  exists h, st !! packageAddr st b n = Some h /\ packageOf st n = n_package h.
Proof.
  intros Hb. unfold packageAddr, packageOf.
  destruct (st !! n_target n) as [t|] eqn:Ht; eauto.
Qed.

Lemma packageAddr_related (R : Node -> Node -> Prop) (st st' : Store)
    (b : addr) (n n' : Node) :
  (forall m m', R m m' -> n_target m' = n_target m) ->
  Forall2 R st st' -> st !! b = Some n -> st' !! b = Some n' ->
  packageAddr st' b n' = packageAddr st b n.
Proof.
  intros Htarget Hall Hb Hb'. unfold packageAddr.
  rewrite (Htarget n n') by (by eapply Forall2_lookup_lr).
  pose proof (proj1 (Forall2_lookup _ _ _) Hall (n_target n)) as Hl.
  by inversion Hl.
Qed.

Lemma packageAddr_frame (st st' : Store) (b : addr) (n n' : Node) :
  frame st st' -> st !! b = Some n -> st' !! b = Some n' ->
  packageAddr st' b n' = packageAddr st b n.
Proof.
  apply packageAddr_related. intros m m' Hm.
  by apply sameShape_fields in Hm as (_ & _ & ? & _).
Qed.

Lemma packageAddr_samePackageShape (st st' : Store) (b : addr) (n n' : Node) :
  Forall2 samePackageShape st st' -> st !! b = Some n -> st' !! b = Some n' ->
  packageAddr st' b n' = packageAddr st b n.
Proof.
  apply packageAddr_related. intros m m' Hm.
  by apply samePackageShape_fields in Hm as (_ & _ & _ & ? & _).
Qed.

(** The marks do not change the package object of a node. *)
Lemma packageOf_frame (st st' : Store) (b : addr) (n n' : Node) :
  frame st st' -> st !! b = Some n -> st' !! b = Some n' ->
  packageOf st' n' = packageOf st n.
Proof.
  intros Hframe Hb Hb'.
  destruct (packageOf_holder _ _ _ Hb) as (h & Hh & ->).
  destruct (packageOf_holder _ _ _ Hb') as (h' & Hh' & ->).
  rewrite (packageAddr_frame _ _ _ _ _ Hframe Hb Hb') in Hh'.
  pose proof (Forall2_lookup_lr _ _ _ _ _ _ Hframe Hh Hh') as Hshape.
  by apply sameShape_fields in Hshape as (_ & _ & _ & _ & _ & _ & _ & _ & ?).
Qed.

Lemma pkgid_frame (lib : Lib) (st st' : Store) (b : addr) (n n' : Node) :
  frame st st' -> st !! b = Some n -> st' !! b = Some n' ->
  pkgid lib st' n' = pkgid lib st n.
Proof.
  intros Hframe Hb Hb'. unfold pkgid.
  rewrite (packageOf_frame _ _ _ _ _ Hframe Hb Hb').
  pose proof (Forall2_lookup_lr _ _ _ _ _ _ Hframe Hb Hb') as Hshape.
  apply sameShape_fields in Hshape as (-> & _ & _ & _ & _ & -> & _). done.
Qed.

Lemma version_frame (lib : Lib) (st st' : Store) (b : addr) (n n' : Node) :
  frame st st' -> st !! b = Some n -> st' !! b = Some n' ->
  version lib st' n' = version lib st n.
Proof.
  intros Hframe Hb Hb'. unfold version.
  by rewrite (packageOf_frame _ _ _ _ _ Hframe Hb Hb').
Qed.

(** ** Writing a package object *)

Lemma setPackageOf_alter (st : Store) (a : addr) (node : Node)
    (pkg : Package) :
  st !! a = Some node ->
  setPackageOf st a node pkg
  = alter (fun n => setPackage n pkg) (packageAddr st a node) st.
Proof.
  intros Ha. unfold setPackageOf, packageAddr.
  destruct (st !! n_target node) as [t|] eqn:Ht; rewrite list_insert_alter;
    apply list_alter_ext; [|done| |done]; intros x Hx; by simplify_eq.
Qed.

Lemma setPackageOf_lookup (st : Store) (a : addr) (node : Node)
    (pkg : Package) (b : addr) :
  st !! a = Some node ->
  setPackageOf st a node pkg !! b
  = if decide (packageAddr st a node = b)
    then (fun n => setPackage n pkg) <$> st !! b
    else st !! b.
Proof.
  intros Ha. rewrite setPackageOf_alter, list_lookup_alter by done.
  by case_decide; subst.
Qed.

Lemma setPackageOf_shape (st : Store) (a : addr) (node : Node)
    (pkg : Package) :
  st !! a = Some node ->
  Forall2 samePackageShape st (setPackageOf st a node pkg).
Proof.
  intros Ha. rewrite setPackageOf_alter by done.
  apply Forall2_alter_r; [reflexivity|].
  intros x y _ _. apply samePackageShape_setPackage.
Qed.

(** After the write, the node reads the new package object. *)
Lemma packageOf_setPackageOf (st : Store) (a : addr) (node node' : Node)
    (pkg : Package) :
  st !! a = Some node -> setPackageOf st a node pkg !! a = Some node' ->
  packageOf (setPackageOf st a node pkg) node' = pkg.
Proof.
  intros Ha Ha'.
  destruct (packageOf_holder _ _ _ Ha') as (h & Hh & ->).
  rewrite (packageAddr_samePackageShape st _ a node node') in Hh
    by eauto using setPackageOf_shape.
  rewrite setPackageOf_lookup in Hh by done.
  rewrite decide_True in Hh by done.
  destruct (st !! packageAddr st a node); by simplify_eq/=.
Qed.

(** A write changes the node at the [packageAddr] and no other. *)
Lemma setPackageOf_writes (st : Store) (a : addr) (node : Node)
    (pkg : Package) (nodes : list item) :
  st !! a = Some node -> ArbNode a ∈ nodes ->
  builderWrites st (setPackageOf st a node pkg) nodes.
Proof.
  intros Ha Hin. split; [by apply setPackageOf_shape|].
  intros b n n' Hb Hb' Hne. exists a, node. split; [done|]. split; [done|].
  rewrite setPackageOf_lookup in Hb' by done.
  case_decide; [done|]. congruence.
Qed.

Lemma handedOver_samePackageShape (st st' : Store) (nodes : list item)
    (b : addr) :
  Forall2 samePackageShape st st' ->
  handedOver st' nodes b -> handedOver st nodes b.
Proof.
  intros Hall (a & node' & Hin & Ha' & Haddr).
  destruct (Forall2_lookup_r _ _ _ _ _ Hall Ha') as (node & Ha & _).
  exists a, node. split; [done|]. split; [done|].
  by rewrite <- (packageAddr_samePackageShape _ _ _ _ _ Hall Ha Ha').
Qed.

Lemma handedOver_mono (st : Store) (l l' : list item) (b : addr) :
  (forall it, it ∈ l -> it ∈ l') -> handedOver st l b -> handedOver st l' b.
Proof. intros Hsub (a & node & Hin & Hrest). exists a, node. eauto. Qed.

Lemma builderWrites_refl (st : Store) (nodes : list item) :
  builderWrites st st nodes.
Proof. split; [reflexivity|]. intros b n n' Hb Hb' Hne. congruence. Qed.

Lemma builderWrites_trans (st1 st2 st3 : Store) (nodes : list item) :
  builderWrites st1 st2 nodes -> builderWrites st2 st3 nodes ->
  builderWrites st1 st3 nodes.
Proof.
  intros [H12 Hw12] [H23 Hw23]. split; [by etrans|].
  intros b n1 n3 Hb1 Hb3 Hne.
  destruct (Forall2_lookup_l _ _ _ _ _ H12 Hb1) as (n2 & Hb2 & _).
  destruct (decide (n2 = n1)) as [->|Hne12]; [|by eapply Hw12].
  eapply handedOver_samePackageShape; [exact H12|]. by eapply Hw23.
Qed.

Lemma builderWrites_mono (st st' : Store) (l l' : list item) :
  (forall it, it ∈ l -> it ∈ l') ->
  builderWrites st st' l -> builderWrites st st' l'.
Proof.
  intros Hsub [Hall Hw]. split; [done|]. intros b n n' Hb Hb' Hne.
  eapply handedOver_mono; [exact Hsub|]. by eapply Hw.
Qed.

(** ** The package records (C9, C10) *)

Section Builder.

Variable lib : Lib.

(** What a returned package record was made from. *)
Lemma toSpdxItem_Ok (st st' : Store) (it : item) (pt : option string)
    (p : SpdxPackage) :
  toSpdxItem lib st it pt = Ok (p, st') ->
  exists a node pkg,
    it = ArbNode a /\ st !! a = Some node
    /\ normalizeData lib (packageOf st node) = Ok pkg
    /\ st' = setPackageOf st a node pkg
    /\ recordOf node p
    /\ SPDXID p
       = toSpdxID (nodePkgid lib (n_name node) (n_isProjectRoot node) pkg)
    /\ primaryPackagePurpose p
       = (if truthy pt then toUpperCase lib <$> pt else None)
    /\ downloadLocation p
       = orElse (if n_isLink node then None else n_resolved node) "NOASSERTION".
Proof.
  destruct it as [a|ph]; simpl; [|discriminate].
  intros H. bind_inv H as node Hnode. apply deref_Ok in Hnode.
  destruct (normalizeData lib (packageOf st node)) as [pkg|pkg] eqn:Hnorm;
    [|discriminate].
  bind_inv H as purl Hpurl. exists a, node, pkg.
  destruct (truthy (n_integrity _)).
  - bind_inv H as sum Hsum. destruct sum as [alg hex]. by simplify_eq.
  - by simplify_eq.
Qed.

(** The store that a call leaves behind, whether it returns or throws. *)
Lemma toSpdxItem_storeOf (st : Store) (it : item) (pt : option string) :
  storeOf (toSpdxItem lib st it pt) = st
  \/ exists a node pkg,
       it = ArbNode a /\ st !! a = Some node
       /\ storeOf (toSpdxItem lib st it pt) = setPackageOf st a node pkg.
Proof.
  destruct it as [a|ph]; simpl; [|by left].
  unfold deref. destruct (st !! a) as [node|] eqn:Ha; simpl; [|by left].
  right. exists a, node.
  destruct (normalizeData lib (packageOf st node)) as [pkg|pkg]; simpl;
    [|by eauto].
  exists pkg. split; [done|]. split; [done|].
  destruct (npaToPurl lib _); simpl; [|done].
  destruct (truthy (n_integrity node)); [|done].
  by destruct (ssriParse lib _) as [[alg hex]|].
Qed.

Lemma toSpdxItem_writes (st : Store) (it : item) (pt : option string)
    (nodes : list item) :
  it ∈ nodes ->
  builderWrites st (storeOf (toSpdxItem lib st it pt)) nodes.
Proof.
  intros Hin.
  destruct (toSpdxItem_storeOf st it pt)
    as [->|(a & node & pkg & -> & Ha & ->)].
  - apply builderWrites_refl.
  - by apply setPackageOf_writes.
Qed.

(** C9.  The package record of a node whose [isLink] flag is set has the
    download location [NOASSERTION], whatever its [resolved] field holds. *)
Theorem toSpdxItem_link_downloadLocation (st st' : Store) (a : addr)
    (node : Node) (pt : option string) (p : SpdxPackage) :
  st !! a = Some node ->
  n_isLink node = true ->
  toSpdxItem lib st (ArbNode a) pt = Ok (p, st') ->
  downloadLocation p = "NOASSERTION".
Proof.
  intros Ha Hlink H.
  apply toSpdxItem_Ok in H
    as (a' & node' & _ & [= <-] & Ha' & _ & _ & _ & _ & _ & ->).
  rewrite Ha in Ha'. injection Ha' as <-. by rewrite Hlink.
Qed.

Lemma toSpdxItems_Ok (st st' : Store) (l : list item) (ps : list SpdxPackage) :
  toSpdxItems lib st l = Ok (ps, st') ->
  Forall2 samePackageShape st st'
  /\ Forall2 (fun it p =>
                exists a n,
                  it = ArbNode a /\ st !! a = Some n /\ recordOf n p
                  /\ primaryPackagePurpose p = None) l ps.
Proof.
  revert st ps. induction l as [|it l IH]; intros st ps H; simpl in H.
  { simplify_eq. split; [reflexivity|constructor]. }
  bind_inv H as r1 Hx. destruct r1 as [p st1].
  bind_inv H as r2 Hx0. destruct r2 as [ps' st2].
  simplify_eq. destruct (IH _ _ Hx0) as [Hshape Hall].
  apply toSpdxItem_Ok in Hx
    as (a & node & pkg & -> & Ha & _ & -> & Hrec & _ & Hpurpose & _).
  pose proof (setPackageOf_shape st a node pkg Ha) as Hshape1.
  split; [by etrans|]. constructor.
  - by exists a, node.
  - eapply Forall2_impl; [exact Hall|]. simpl.
    intros it' p' (b & n' & -> & Hb' & [Hname Hfile] & Hnone).
    destruct (Forall2_lookup_r _ _ _ _ _ Hshape1 Hb') as (n & Hb & Hn).
    apply samePackageShape_fields in Hn as (Hn1 & Hn2 & _).
    exists b, n. split; [done|]. split; [done|].
    split; [|done]. split; congruence.
Qed.

Lemma toSpdxItems_writes (st : Store) (l nodes : list item) :
  (forall it, it ∈ l -> it ∈ nodes) ->
  builderWrites st (storeOf (toSpdxItems lib st l)) nodes.
Proof.
  revert st. induction l as [|it l IH]; intros st Hsub; simpl.
  { apply builderWrites_refl. }
  pose proof (toSpdxItem_writes st it None nodes) as H1.
  destruct (toSpdxItem lib st it None) as [[p st1]|[e s]]; simpl in *;
    [|apply H1, Hsub, elem_of_cons; auto].
  eapply builderWrites_trans; [apply H1, Hsub, elem_of_cons; auto|].
  pose proof (IH st1) as H2.
  destruct (toSpdxItems lib st1 l) as [[ps st2]|[e s]]; simpl in *;
    apply H2; intros it' Hit'; apply Hsub, elem_of_cons; auto.
Qed.

(** What a returned document was made from. *)
Lemma spdxOutput_Ok (env : Env) (st st' : Store) (nodes : list item)
    (pt : option string) (doc : SpdxDocument) :
  spdxOutput lib env st nodes pt = Ok (doc, st') ->
  exists ra root childNodes escapedName rels rootItem st1 childItems,
    findM (isRoot st) nodes = Ok (Some (ArbNode ra))
    /\ filterM (fun node => let* b := isRoot st node in Ok (negb b)) nodes
       = Ok childNodes
    /\ st !! ra = Some root
    /\ npaEscapedName lib (pkgid lib st root) = Some escapedName
    /\ relationshipsFrom lib st nodes nodes = Ok rels
    /\ toSpdxItem lib st (ArbNode ra) pt = Ok (rootItem, st1)
    /\ toSpdxItems lib st1 childNodes = Ok (childItems, st')
    /\ doc
       = {| spdxVersion := SPDX_SCHEMA_VERSION;
            dataLicense := SPDX_DATA_LICENSE;
            docSPDXID := SPDX_IDENTIFER;
            docName := pkgid lib st root;
            documentNamespace :=
              "http://spdx.org/spdxdocs/" +:+ escapedName +:+ "-"
              +:+ version lib st root +:+ "-" +:+ uuid env;
            created := now env;
            creators := [ "Tool: npm/cli-" +:+ npmVersion env ];
            documentDescribes := [ toSpdxID (pkgid lib st root) ];
            packages := rootItem :: childItems;
            relationships :=
              {| spdxElementId := SPDX_IDENTIFER;
                 relatedSpdxElement := toSpdxID (pkgid lib st root);
                 relationshipType := "DESCRIBES" |} :: rels |}.
Proof.
  unfold spdxOutput. intros H.
  bind_inv H as rootNode Hfind. bind_inv H as childNodes Hfilter.
  bind_inv H as root Hroot.
  destruct rootNode as [[ra|ph]|]; try discriminate Hroot.
  apply deref_Ok in Hroot.
  bind_inv H as esc Hesc. apply liftLib_Ok in Hesc.
  bind_inv H as rels Hrels.
  bind_inv H as r1 Hitem. destruct r1 as [rootItem st1].
  bind_inv H as r2 Hitems. destruct r2 as [childItems st2]. simplify_eq.
  by exists ra, root, childNodes, esc, rels, rootItem, st1, childItems.
Qed.

Lemma inState_storeOf {A B : Type} (st : Store) (r : result A)
    (k : A -> effect B) :
  storeOf (let* x := inState st r in k x) = st
  \/ exists x, r = Ok x /\ (let* x := inState st r in k x) = k x.
Proof. destruct r as [x|e]; simpl; eauto. Qed.

Lemma spdxOutput_writes (env : Env) (st : Store) (nodes : list item)
    (pt : option string) :
  builderWrites st (storeOf (spdxOutput lib env st nodes pt)) nodes.
Proof.
  unfold spdxOutput.
  destruct (findM (isRoot st) nodes) as [rootNode|e] eqn:Hfind; simpl;
    [|apply builderWrites_refl].
  destruct (filterM _ nodes) as [childNodes|e] eqn:Hfilter; simpl;
    [|apply builderWrites_refl].
  match goal with
  | |- context [inState st ?r] =>
      destruct r as [root|e] eqn:Hroot; simpl; [|apply builderWrites_refl]
  end.
  destruct (liftLib (npaEscapedName lib _)) as [esc|e]; simpl;
    [|apply builderWrites_refl].
  destruct (relationshipsFrom lib st nodes nodes) as [rels|e]; simpl;
    [|apply builderWrites_refl].
  destruct rootNode as [r|]; [|apply builderWrites_refl].
  apply findM_Ok_Some in Hfind as [Hrin _].
  pose proof (toSpdxItem_writes st r pt nodes Hrin) as H1.
  destruct (toSpdxItem lib st r pt) as [[rootItem st1]|[e s]]; simpl in *;
    [|done].
  eapply builderWrites_trans; [exact H1|].
  pose proof (toSpdxItems_writes st1 childNodes nodes) as H2.
  destruct (toSpdxItems lib st1 childNodes) as [[ps st2]|[e s]]; simpl in *;
    apply H2; intros it Hit; by eapply filterM_Ok_sub.
Qed.

(** C10.  In a document that was built, the first package record is the
    one made from the root, that is from the first node of the list that is
    flagged [isRoot], and every other record is made from a node that is
    not flagged.  When a package type is configured, the record of the root
    carries it, as [toUpperCase] returns it, as primary purpose.  No other
    package record has a primary purpose, whatever the configured package
    type is. *)
Theorem spdxOutput_packageType_on_root_only (env : Env) (st st' : Store)
    (nodes : list item) (pt : option string) (doc : SpdxDocument) :
  spdxOutput lib env st nodes pt = Ok (doc, st') ->
  exists ra root rootItem childItems,
    findM (isRoot st) nodes = Ok (Some (ArbNode ra))
    /\ st !! ra = Some root
    /\ packages doc = rootItem :: childItems
    /\ recordOf root rootItem
    /\ (truthy pt = true ->
        primaryPackagePurpose rootItem = toUpperCase lib <$> pt)
    /\ (forall p,
          p ∈ childItems ->
          primaryPackagePurpose p = None
          /\ exists a n,
               ArbNode a ∈ nodes /\ st !! a = Some n /\ n_isRoot n = false
               /\ recordOf n p).
Proof.
  intros (ra & root & childNodes & esc & rels & rootItem & st1 & childItems
          & Hfind & Hfilter & Hra & _ & _ & Hroot & Hchildren & ->)%spdxOutput_Ok.
  exists ra, root, rootItem, childItems. simpl.
  apply toSpdxItem_Ok in Hroot
    as (a & node & pkg & [= <-] & Ha & _ & -> & Hrec & _ & Hpurpose & _).
  rewrite Hra in Ha. injection Ha as <-.
  split; [done|]. split; [done|]. split; [done|]. split; [done|]. split.
  - intros Hpt. by rewrite Hpurpose, Hpt.
  - apply toSpdxItems_Ok in Hchildren as [_ Hall]. intros p Hp.
    apply list_elem_of_lookup in Hp as [i Hi].
    destruct (Forall2_lookup_r _ _ _ _ _ Hall Hi)
      as (it & Hit & b & n' & -> & Hb' & [Hname Hfile] & Hnone).
    split; [done|].
    apply list_elem_of_lookup_2 in Hit.
    destruct (filterM_Ok_sub _ _ _ Hfilter _ Hit) as [Hin Hnot].
    pose proof (setPackageOf_shape st ra root pkg Hra) as Hshape.
    destruct (Forall2_lookup_r _ _ _ _ _ Hshape Hb') as (n & Hb & Hn).
    apply samePackageShape_fields in Hn as (Hn1 & Hn2 & _).
    exists b, n. split; [done|]. split; [done|]. split.
    + simpl in Hnot. unfold deref in Hnot. rewrite Hb in Hnot. simpl in Hnot.
      injection Hnot as Hnot. by apply negb_true_iff.
    + split; congruence.
Qed.

(** ** Identifiers that normalisation keeps (C3) *)

Section Normalised.

Variable clean : Package -> Prop.

Hypothesis clean_normalizeData :
  forall p p',
    clean p -> normalizeData lib p = Ok p' -> clean p' /\ sameIds lib p p'.

Lemma sameIds_refl (p : Package) : sameIds lib p p.
Proof. by split. Qed.

Lemma sameIds_trans (p1 p2 p3 : Package) :
  sameIds lib p1 p2 -> sameIds lib p2 p3 -> sameIds lib p1 p3.
Proof.
  intros [H1 H2] [H3 H4]. split; [|congruence].
  intros name root. by rewrite H3, H1.
Qed.

Lemma normalStore_refl (st : Store) :
  (forall a n, st !! a = Some n -> clean (n_package n)) ->
  normalStore lib clean st st.
Proof.
  intros Hclean. split; [|done].
  apply Forall_Forall2_diag, Forall_forall. intros n _.
  split; [reflexivity|apply sameIds_refl].
Qed.

Lemma normalStore_shape (st0 st : Store) :
  normalStore lib clean st0 st -> Forall2 samePackageShape st0 st.
Proof. intros [Hall _]. eapply Forall2_impl; [exact Hall|]. by intros ?? []. Qed.

Lemma normalStore_pkgid (st0 st : Store) (b : addr) (n0 n : Node) :
  normalStore lib clean st0 st -> st0 !! b = Some n0 -> st !! b = Some n ->
  pkgid lib st n = pkgid lib st0 n0
  /\ clean (packageOf st n) /\ sameIds lib (packageOf st0 n0) (packageOf st n).
Proof.
  intros Hnormal Hb0 Hb.
  pose proof (normalStore_shape _ _ Hnormal) as Hshape.
  destruct Hnormal as [Hall Hclean].
  destruct (packageOf_holder _ _ _ Hb0) as (h0 & Hh0 & Hp0).
  destruct (packageOf_holder _ _ _ Hb) as (h & Hh & Hp).
  rewrite (packageAddr_samePackageShape _ _ _ _ _ Hshape Hb0 Hb) in Hh.
  destruct (Forall2_lookup_lr _ _ _ _ _ _ Hall Hh0 Hh) as [_ Hids].
  destruct (Forall2_lookup_lr _ _ _ _ _ _ Hall Hb0 Hb) as [Hn _].
  apply samePackageShape_fields in Hn as (Hn1 & _ & _ & _ & _ & Hn2 & _).
  rewrite Hp, Hp0. split; [|split; [by eapply Hclean|done]].
  unfold pkgid. rewrite Hp, Hp0, Hn1, Hn2. apply Hids.
Qed.

Lemma toSpdxItem_normal (st0 st st' : Store) (it : item) (pt : option string)
    (p : SpdxPackage) :
  normalStore lib clean st0 st ->
  toSpdxItem lib st it pt = Ok (p, st') ->
  normalStore lib clean st0 st'
  /\ exists id, pkgidOf lib st0 it = Some id /\ SPDXID p = toSpdxID id.
Proof.
  intros Hnormal H.
  apply toSpdxItem_Ok in H
    as (a & node & pkg & -> & Ha & Hnorm & -> & _ & Hid & _).
  pose proof (normalStore_shape _ _ Hnormal) as Hshape.
  destruct (Forall2_lookup_r _ _ _ _ _ Hshape Ha) as (node0 & Ha0 & Hn).
  destruct (normalStore_pkgid _ _ _ _ _ Hnormal Ha0 Ha)
    as (Hpkgid & Hcl & Hids0).
  destruct (clean_normalizeData _ _ Hcl Hnorm) as [Hcl' Hids].
  split.
  - destruct Hnormal as [Hall Hclean]. split.
    + rewrite setPackageOf_alter by done.
      apply Forall2_alter_r; [done|].
      intros h0 h Hh0 Hh [Hs Hi]. split.
      * by apply samePackageShape_setPackage.
      * destruct (packageOf_holder _ _ _ Ha) as (h' & Hh' & Hp).
        rewrite Hh in Hh'. injection Hh' as <-.
        eapply sameIds_trans; [exact Hi|]. rewrite <- Hp.
        by destruct h.
    + intros b n Hb. rewrite setPackageOf_lookup in Hb by done.
      case_decide; [|by eapply Hclean].
      destruct (st !! b) as [m|] eqn:Hm; simplify_eq/=. done.
  - exists (pkgid lib st0 node0). simpl. rewrite Ha0. split; [done|].
    rewrite Hid, <- Hpkgid. unfold pkgid. f_equal. apply Hids.
Qed.

Lemma toSpdxItems_normal (st0 st st' : Store) (l : list item)
    (ps : list SpdxPackage) :
  normalStore lib clean st0 st ->
  toSpdxItems lib st l = Ok (ps, st') ->
  normalStore lib clean st0 st'
  /\ Forall2 (fun it p =>
                exists id, pkgidOf lib st0 it = Some id
                           /\ SPDXID p = toSpdxID id) l ps.
Proof.
  revert st ps. induction l as [|it l IH]; intros st ps Hnormal H;
    simpl in H.
  { simplify_eq. split; [done|constructor]. }
  bind_inv H as r1 Hx. destruct r1 as [p st1].
  bind_inv H as r2 Hx0. destruct r2 as [ps' st2]. simplify_eq.
  destruct (toSpdxItem_normal _ _ _ _ _ _ Hnormal Hx) as [Hnormal1 Hid].
  destruct (IH _ _ Hnormal1 Hx0) as [Hnormal2 Hall].
  split; [done|by constructor].
Qed.

(** The identifiers of the records of a document. *)
Lemma spdxOutput_normal (env : Env) (st st' : Store) (nodes : list item)
    (pt : option string) (doc : SpdxDocument) :
  (forall a n, st !! a = Some n -> clean (n_package n)) ->
  spdxOutput lib env st nodes pt = Ok (doc, st') ->
  exists ra root childNodes rootItem childItems,
    findM (isRoot st) nodes = Ok (Some (ArbNode ra))
    /\ filterM (fun node => let* b := isRoot st node in Ok (negb b)) nodes
       = Ok childNodes
    /\ st !! ra = Some root
    /\ packages doc = rootItem :: childItems
    /\ SPDXID rootItem = toSpdxID (pkgid lib st root)
    /\ Forall2 (fun it p =>
                  exists id, pkgidOf lib st it = Some id
                             /\ SPDXID p = toSpdxID id) childNodes childItems.
Proof.
  intros Hclean
    (ra & root & childNodes & esc & rels & rootItem & st1 & childItems
     & Hfind & Hfilter & Hra & _ & Hrels & Hroot & Hchildren & ->)%spdxOutput_Ok.
  exists ra, root, childNodes, rootItem, childItems. simpl.
  destruct (toSpdxItem_normal _ _ _ _ _ _ (normalStore_refl _ Hclean) Hroot)
    as (Hnormal1 & id & Hid & HSPDXID).
  simpl in Hid. rewrite Hra in Hid. simpl in Hid. injection Hid as <-.
  destruct (toSpdxItems_normal _ _ _ _ _ Hnormal1 Hchildren) as [_ Hall].
  done.
Qed.

End Normalised.


End Builder.

(** ** Exceptions *)

Lemma typeErrorOnly_bind {A B : Type} (r : result A) (k : A -> result B) :
  typeErrorOnly r -> (forall a, typeErrorOnly (k a)) ->
  typeErrorOnly (bind r k).
Proof.
  intros Hr Hk e. destruct r as [a|e']; simpl; [apply Hk|].
  intros [= <-]. by apply Hr.
Qed.

Lemma typeErrorOnly_Ok {A : Type} (a : A) : typeErrorOnly (Ok a).
Proof. by intros e. Qed.

Lemma typeErrorOnly_Throw {A : Type} :
  typeErrorOnly (@Throw exn A TypeError).
Proof. by intros e [= <-]. Qed.

Lemma typeErrorOnly_deref (st : Store) (a : addr) : typeErrorOnly (deref st a).
Proof.
  unfold deref. destruct (st !! a);
    [apply typeErrorOnly_Ok|apply typeErrorOnly_Throw].
Qed.

Lemma typeErrorOnly_filterM {A : Type} (f : A -> result bool) (l : list A) :
  (forall x, typeErrorOnly (f x)) -> typeErrorOnly (filterM f l).
Proof.
  intros Hf. induction l as [|x l IH]; simpl; [apply typeErrorOnly_Ok|].
  apply typeErrorOnly_bind; [done|]. intros b.
  apply typeErrorOnly_bind; [done|]. intros r. apply typeErrorOnly_Ok.
Qed.

Lemma typeErrorOnly_findM {A : Type} (f : A -> result bool) (l : list A) :
  (forall x, typeErrorOnly (f x)) -> typeErrorOnly (findM f l).
Proof.
  intros Hf. induction l as [|x l IH]; simpl; [apply typeErrorOnly_Ok|].
  apply typeErrorOnly_bind; [done|]. intros b.
  destruct b; [apply typeErrorOnly_Ok|done].
Qed.

(** Decompose a computation into calls that only throw [TypeError]. *)
Ltac type_error_only :=
  repeat first
    [ apply typeErrorOnly_Ok
    | apply typeErrorOnly_Throw
    | apply typeErrorOnly_deref
    | apply typeErrorOnly_filterM; intros ?
    | apply typeErrorOnly_findM; intros ?
    | apply typeErrorOnly_bind; [|intros ?]
    | progress case_match ].

Lemma typeErrorOnly_filterBySelectedWorkspaces (opts : Options) (st : Store)
    (edge : Edge) :
  typeErrorOnly (filterBySelectedWorkspaces opts st edge).
Proof. unfold filterBySelectedWorkspaces. type_error_only. Qed.

Lemma typeErrorOnly_isRoot (st : Store) (it : item) :
  typeErrorOnly (isRoot st it).
Proof. unfold isRoot. type_error_only. Qed.

Lemma typeErrorOnly_findErrors (lib : Lib) (st : Store) (it : item) :
  typeErrorOnly (findErrors lib st it).
Proof. unfold findErrors. type_error_only. Qed.

Lemma typeErrorOnly_appendExtraneousChildren (st : Store) (node : Node)
    (sp : list string) :
  typeErrorOnly (appendExtraneousChildren st node sp).
Proof. unfold appendExtraneousChildren. type_error_only. Qed.

Lemma raises_Ok {A : Type} (P : exn -> Prop) (Q : Store -> Prop) (a : A) :
  raises P Q (Ok a).
Proof. by intros e st. Qed.

Lemma raises_Throw {A : Type} (P : exn -> Prop) (Q : Store -> Prop)
    (e : exn) (st : Store) :
  P e -> Q st -> raises P Q (@Throw _ A (e, st)).
Proof. intros He Hst e' st' [= <- <-]. done. Qed.

Lemma raises_bind {A B : Type} (P : exn -> Prop) (Q : Store -> Prop)
    (r : outcome (exn * Store) A) (k : A -> outcome (exn * Store) B) :
  raises P Q r -> (forall a, r = Ok a -> raises P Q (k a)) ->
  raises P Q (bind r k).
Proof.
  intros Hr Hk e st. destruct r as [a|[e' st']]; simpl; [by apply Hk|].
  intros [= <- <-]. by apply Hr.
Qed.

Lemma raises_inState {A : Type} (P : exn -> Prop) (Q : Store -> Prop)
    (st : Store) (r : result A) :
  (forall e, r = Throw e -> P e) -> Q st -> raises P Q (inState st r).
Proof.
  intros Hr Hst e st'. destruct r as [a|e']; simpl; [done|].
  intros [= <- <-]. split; [by apply Hr|done].
Qed.

Lemma raises_impl {A : Type} (P P' : exn -> Prop) (Q Q' : Store -> Prop)
    (r : outcome (exn * Store) A) :
  (forall e, P e -> P' e) -> (forall st, Q st -> Q' st) ->
  raises P Q r -> raises P' Q' r.
Proof. intros HP HQ Hr e st H. destruct (Hr e st H). auto. Qed.

(** ** The walk *)

Lemma filterM_length {A : Type} (f : A -> result bool) (l l' : list A) :
  filterM f l = Ok l' -> length l' <= length l.
Proof.
  revert l'. induction l as [|x l IH]; intros l' H; simpl in H.
  { by simplify_eq. }
  bind_inv H as b Hb. bind_inv H as r Hr. simplify_eq.
  specialize (IH _ Hr). destruct b; simpl; lia.
Qed.

Lemma filterM_runs {A : Type} (f : A -> result bool) (l : list A) :
  (forall x, x ∈ l -> exists b, f x = Ok b) -> exists l', filterM f l = Ok l'.
Proof.
  induction l as [|x l IH]; intros Hf; simpl; [eauto|].
  destruct (Hf x) as [b ->]; [apply elem_of_cons; auto|]. simpl.
  destruct IH as [l' ->]; [|simpl; eauto].
  intros y Hy. apply Hf, elem_of_cons. auto.
Qed.

Lemma insertSorted_perm (cmp : item -> item -> Z) (x : item) (l : list item) :
  insertSorted cmp x l ≡ₚ x :: l.
Proof.
  induction l as [|y l IH]; simpl; [done|].
  destruct (cmp x y <=? 0)%Z; [done|].
  rewrite IH. apply Permutation_swap.
Qed.

Lemma sort_perm (cmp : item -> item -> Z) (l : list item) : sort cmp l ≡ₚ l.
Proof.
  induction l as [|x l IH]; simpl; [done|].
  by rewrite insertSorted_perm, IH.
Qed.

(** *** The error set *)

Lemma setAdd_elem (x y : string) (s : list string) :
  y ∈ setAdd x s <-> y = x \/ y ∈ s.
Proof.
  unfold setAdd. destruct (decide (x ∈ s)).
  - split; [auto|]. by intros [->|?].
  - rewrite elem_of_app, list_elem_of_singleton. tauto.
Qed.

Lemma setAdd_NoDup (x : string) (s : list string) :
  NoDup s -> NoDup (setAdd x s).
Proof.
  intros Hs. unfold setAdd. destruct (decide (x ∈ s)); [done|].
  apply NoDup_app. split; [done|]. split; [|apply NoDup_singleton].
  intros y Hy ->%list_elem_of_singleton. done.
Qed.

Lemma setAdd_all_elem (errs s : list string) (y : string) :
  y ∈ foldl (fun s e => setAdd e s) s errs <-> y ∈ s \/ y ∈ errs.
Proof.
  revert s. induction errs as [|e errs IH]; intros s; simpl.
  - rewrite elem_of_nil. tauto.
  - rewrite IH, setAdd_elem, elem_of_cons. tauto.
Qed.

Lemma setAdd_all_NoDup (errs s : list string) :
  NoDup s -> NoDup (foldl (fun s e => setAdd e s) s errs).
Proof.
  revert s. induction errs as [|e errs IH]; intros s Hs; simpl; [done|].
  by apply IH, setAdd_NoDup.
Qed.

(** *** The map of visited nodes *)

Lemma mapSet_elem {V : Type} (k k' : option string) (v v' : V)
    (m : list (option string * V)) :
  (k', v') ∈ mapSet k v m -> (k', v') = (k, v) \/ (k', v') ∈ m.
Proof.
  induction m as [|[k0 v0] m IH]; simpl.
  - intros ?%list_elem_of_singleton. auto.
  - destruct (decide (k = k0)) as [->|Hne].
    + intros [?|?]%elem_of_cons; [auto|]. right. apply elem_of_cons. auto.
    + intros [?|Hin]%elem_of_cons; [right; apply elem_of_cons; auto|].
      destruct (IH Hin); [auto|]. right. apply elem_of_cons. auto.
Qed.

Lemma mapSet_keys {V : Type} (k k' : option string) (v : V)
    (m : list (option string * V)) :
  k' ∈ (mapSet k v m).*1 <-> k' = k \/ k' ∈ m.*1.
Proof.
  induction m as [|[k0 v0] m IH]; simpl.
  - rewrite list_elem_of_singleton, elem_of_nil. tauto.
  - destruct (decide (k = k0)) as [->|Hne]; simpl.
    + rewrite !elem_of_cons. tauto.
    + rewrite !elem_of_cons, IH. tauto.
Qed.

Lemma mapSet_NoDup {V : Type} (k : option string) (v : V)
    (m : list (option string * V)) :
  NoDup m.*1 -> NoDup (mapSet k v m).*1.
Proof.
  induction m as [|[k0 v0] m IH]; simpl; intros Hnd.
  - apply NoDup_singleton.
  - apply NoDup_cons in Hnd as [Hk0 Hnd].
    destruct (decide (k = k0)) as [->|Hne]; simpl.
    + by apply NoDup_cons.
    + apply NoDup_cons. split; [|by apply IH].
      rewrite mapSet_keys. intros [?|?]; [congruence|done].
Qed.

Lemma values_NoDup {K V : Type} (m : list (K * V)) :
  NoDup m.*1 ->
  (forall k k' v, (k, v) ∈ m -> (k', v) ∈ m -> k = k') ->
  NoDup m.*2.
Proof.
  induction m as [|[k0 v0] m IH]; simpl; intros Hnd Hkey.
  { apply NoDup_nil_2. }
  apply NoDup_cons in Hnd as [Hk0 Hnd]. apply NoDup_cons. split.
  - intros ([k v] & Hv & Hin)%list_elem_of_fmap. simpl in Hv. subst v.
    apply Hk0. apply list_elem_of_fmap. exists (k, v0). split; [|done].
    simpl. apply (Hkey k0 k v0); apply elem_of_cons; auto.
  - apply IH; [done|]. intros k k' v Hin Hin'.
    apply (Hkey k k' v); apply elem_of_cons; auto.
Qed.

Lemma seenHas_true (seen : list addr) (node : item) :
  seenHas seen node = true -> exists a, node = ArbNode a /\ a ∈ seen.
Proof.
  destruct node as [a|ph]; simpl; [|discriminate].
  intros H%bool_decide_eq_true. eauto.
Qed.

Lemma seenAdd_elem (node : item) (seen : list addr) (a : addr) :
  a ∈ seenAdd node seen <-> node = ArbNode a \/ a ∈ seen.
Proof.
  destruct node as [b|ph]; simpl.
  - rewrite elem_of_cons. split.
    + intros [->|?]; auto.
    + intros [[= ->]|?]; auto.
  - split; [auto|]. by intros [?|?].
Qed.

Lemma is_Some_frame (st st' : Store) (a : addr) :
  frame st st' -> is_Some (st !! a) <-> is_Some (st' !! a).
Proof.
  intros Hframe. rewrite !lookup_lt_is_Some.
  by rewrite (Forall2_length _ _ _ Hframe).
Qed.

Lemma edgeClosed_frame (st st' : Store) (e : Edge) :
  frame st st' -> edgeClosed st e -> edgeClosed st' e.
Proof.
  intros Hframe [Hfrom Hto]. split; [by apply (is_Some_frame st st')|].
  destruct (e_to e); [by apply (is_Some_frame st st')|done].
Qed.

Lemma wellFormed_frame (st st' : Store) :
  frame st st' -> wellFormed st -> wellFormed st'.
Proof.
  intros Hframe Hwf a n' Ha'.
  destruct (Forall2_lookup_r _ _ _ _ _ Hframe Ha') as (n & Ha & Hsh).
  destruct (sameShape_fields _ _ Hsh) as (_ & _ & -> & -> & -> & _).
  destruct (Hwf a n Ha) as (Ht & Hc & He).
  split; [by apply (is_Some_frame st st')|]. split.
  - intros c Hin. apply (is_Some_frame st st'); auto.
  - intros e Hin. eapply edgeClosed_frame; eauto.
Qed.

Lemma workspacesSafe_frame (opts : Options) (st st' : Store) :
  frame st st' -> workspacesSafe opts st -> workspacesSafe opts st'.
Proof.
  intros Hframe Hws Hoff a n' e from' Ha' Hin Hfrom' Hroot.
  destruct (Forall2_lookup_r _ _ _ _ _ Hframe Ha') as (n & Ha & Hsh).
  destruct (Forall2_lookup_r _ _ _ _ _ Hframe Hfrom') as (from & Hfrom & Hsh').
  destruct (sameShape_fields _ _ Hsh) as (_ & _ & _ & Hedges & _).
  destruct (sameShape_fields _ _ Hsh') as (_ & _ & _ & _ & _ & Hpr & _).
  rewrite Hedges in Hin. rewrite Hpr in Hroot.
  exact (Hws Hoff a n e from Ha Hin Hfrom Hroot).
Qed.

Section Walk.

Variable lib : Lib.
Variable opts : Options.

Lemma filterBySelectedWorkspaces_frame (st st' : Store) (edge : Edge) :
  frame st st' ->
  filterBySelectedWorkspaces opts st' edge
  = filterBySelectedWorkspaces opts st edge.
Proof.
  intros Hframe. unfold filterBySelectedWorkspaces, deref.
  frame_at Hframe (e_from edge) from from' Hfrom Hfrom' Hsh; simpl; [|done].
  destruct (sameShape_fields _ _ Hsh) as (_ & _ & _ & _ & _ & -> & _).
  destruct (e_to edge) as [b|]; simpl; [|done].
  frame_at Hframe b to to' Hto Hto' Hsh'; simpl; [|done].
  by destruct (sameShape_fields _ _ Hsh') as (_ & _ & -> & _ & _ & _ & -> & _).
Qed.

Lemma isUnresolved_frame (st st' : Store) (edge : Edge) :
  frame st st' -> isUnresolved st' edge = isUnresolved st edge.
Proof.
  intros Hframe. unfold isUnresolved.
  destruct (e_to edge) as [b|]; simpl; [|done].
  by frame_at Hframe b to to' Hto Hto' Hsh.
Qed.

Lemma edgeItem_frame (st st' : Store) (edge : Edge) :
  frame st st' -> edgeItem lib st' edge = edgeItem lib st edge.
Proof.
  intros Hframe. unfold edgeItem. rewrite (isUnresolved_frame _ _ _ Hframe).
  destruct (isUnresolved st edge).
  - frame_at Hframe (e_from edge) from from' Hfrom Hfrom' Hsh; simpl; [|done].
    by rewrite (pkgid_frame lib _ _ _ _ _ Hframe Hfrom Hfrom').
  - destruct (e_to edge) as [b|]; simpl; [|done].
    by frame_at Hframe b to to' Hto Hto' Hsh.
Qed.

Lemma cap_frame (st st' : Store) (it : item) :
  frame st st' -> cap st' it = cap st it.
Proof.
  intros Hframe. destruct it as [a|ph]; [|done]. unfold cap.
  frame_at Hframe a n n' Hn Hn' Hsh; [|done].
  destruct (sameShape_fields _ _ Hsh) as (_ & _ & -> & _ & -> & _).
  frame_at Hframe (n_target n) t t' Ht Ht' Hsh'; [|done].
  by destruct (sameShape_fields _ _ Hsh') as (_ & _ & _ & -> & _).
Qed.

Lemma findErrors_frame (st st' : Store) (it : item) :
  frame st st' ->
  forall errs,
    findErrors lib st' it = Ok errs ->
    exists errs0, findErrors lib st it = Ok errs0.
Proof.
  intros Hframe errs. destruct it as [a|ph]; simpl; [|eauto].
  unfold deref. frame_at Hframe a n n' Hn Hn' Hsh; simpl; [eauto|done].
Qed.

Lemma mapEdgesToNodes_Ok (st st' : Store) (sp sp' : list string)
    (edge : Edge) (it : item) :
  mapEdgesToNodes lib st sp edge = Ok (it, sp', st') ->
  edgeItem lib st edge = Some it /\ frame st st'.
Proof.
  unfold mapEdgesToNodes, edgeItem. fold (isUnresolved st edge).
  destruct (isUnresolved st edge) eqn:Hun.
  - intros H. bind_inv H as from Hfrom. apply deref_Ok in Hfrom.
    simplify_eq. rewrite Hfrom. split; [done|apply frame_refl].
  - destruct (e_to edge) as [b|]; [|discriminate]. simpl.
    intros H. bind_inv H as node Hnode. apply deref_Ok in Hnode.
    simplify_eq. rewrite Hnode. split; [done|].
    apply frame_insert; [apply frame_refl|done].
Qed.

Lemma mapEdgesToNodes_raises (st0 st : Store) (sp : list string)
    (edge : Edge) :
  frame st0 st ->
  raises isTypeError (frame st0) (mapEdgesToNodes lib st sp edge).
Proof.
  intros Hframe. unfold mapEdgesToNodes. case_match.
  - apply raises_bind; [|intros from _; apply raises_Ok].
    apply raises_inState; [apply typeErrorOnly_deref|done].
  - destruct (e_to edge) as [b|]; [|by apply raises_Throw].
    apply raises_bind; [|intros node _; apply raises_Ok].
    apply raises_inState; [apply typeErrorOnly_deref|done].
Qed.

Lemma mapEdges_Ok (st st' : Store) (sp sp' : list string)
    (edges : list Edge) (its : list item) :
  mapEdges lib st sp edges = Ok (its, sp', st') ->
  frame st st'
  /\ Forall2 (fun e it => edgeItem lib st e = Some it) edges its.
Proof.
  revert st sp its. induction edges as [|e edges IH]; intros st sp its H.
  { simpl in H. simplify_eq. split; [apply frame_refl|constructor]. }
  simpl in H. bind_inv H as r1 Hr1. destruct r1 as [[it sp1] st1].
  bind_inv H as r2 Hr2. destruct r2 as [[its' sp2] st2]. simplify_eq.
  apply mapEdgesToNodes_Ok in Hr1 as [Hit Hf1].
  apply IH in Hr2 as [Hf2 Hall].
  split; [by eapply frame_trans|]. constructor; [done|].
  eapply Forall2_impl; [exact Hall|]. simpl. intros e' it' <-.
  symmetry. by apply edgeItem_frame.
Qed.

Lemma mapEdges_raises (st0 st : Store) (sp : list string)
    (edges : list Edge) :
  frame st0 st ->
  raises isTypeError (frame st0) (mapEdges lib st sp edges).
Proof.
  revert st sp. induction edges as [|e edges IH]; intros st sp Hframe; simpl.
  { apply raises_Ok. }
  apply raises_bind; [by apply mapEdgesToNodes_raises|].
  intros [[it sp1] st1] [_ Hf1]%mapEdgesToNodes_Ok.
  apply raises_bind; [apply IH; by eapply frame_trans|].
  intros [[its sp2] st2] _. apply raises_Ok.
Qed.

(** What the children of an Arborist node were made from: the objects of
    the edges that passed both filters, and children of the node that are
    extraneous. *)
Lemma getChildren_Ok (a : addr) (w w' : Walk) (kids : list item) :
  getChildren lib opts (ArbNode a) w = Ok (kids, w') ->
  exists node target edges1 nodes kept,
    w_store w !! a = Some node
    /\ w_store w !! n_target node = Some target
    /\ filterM (filterBySelectedWorkspaces opts (w_store w))
               (n_edgesOut target) = Ok edges1
    /\ Forall2 (fun e it => edgeItem lib (w_store w) e = Some it)
               (filter (fun e => filterByEdgesTypes opts e = true) edges1)
               nodes
    /\ kids = sort (sortAlphabetically lib (w_store w'))
                   (nodes ++ (ArbNode <$> kept))
    /\ (forall b, b ∈ kept ->
          b ∈ n_children node
          /\ exists child, w_store w' !! b = Some child
                           /\ n_extraneous child = true)
    /\ length kept <= length (n_children node)
    /\ frame (w_store w) (w_store w')
    /\ w_seenNodes w' = w_seenNodes w
    /\ w_errors w' = w_errors w.
Proof.
  unfold getChildren. intros H.
  bind_inv H as node Hnode. apply deref_Ok in Hnode.
  bind_inv H as target Htarget. apply deref_Ok in Htarget.
  bind_inv H as edges1 Hedges1.
  bind_inv H as r Hmap. destruct r as [[nodes sp] st'].
  bind_inv H as node' Hnode'. apply deref_Ok in Hnode'.
  bind_inv H as extra Hextra. simplify_eq.
  apply mapEdges_Ok in Hmap as [Hframe Hall].
  unfold appendExtraneousChildren in Hextra.
  bind_inv Hextra as kept Hkept. simplify_eq.
  pose proof (Forall2_lookup_lr _ _ _ _ _ _ Hframe Hnode Hnode') as Hsh.
  destruct (sameShape_fields _ _ Hsh) as (_ & _ & _ & _ & Hch & _).
  exists node, target, edges1, nodes, kept.
  split; [done|]. split; [done|]. split; [done|]. split; [done|].
  split; [done|]. split; [|split; [|done]].
  - intros b Hb. apply (filterM_Ok_sub _ _ _ Hkept) in Hb as [Hin Hb].
    split; [by rewrite <- Hch|].
    bind_inv Hb as child Hchild. apply deref_Ok in Hchild.
    exists child. split; [done|]. simplify_eq.
    by destruct (n_extraneous child); [|rewrite andb_false_r in Hb].
  - apply filterM_length in Hkept. by rewrite <- Hch.
Qed.

Lemma getChildren_Plain (ph : Placeholder) (w w' : Walk) (kids : list item) :
  getChildren lib opts (Plain ph) w = Ok (kids, w') -> kids = [] /\ w' = w.
Proof. simpl. by intros [= <- <-]. Qed.

(** What [getChildren] leaves as it is. *)
Lemma getChildren_state (it : item) (w w' : Walk) (kids : list item) :
  getChildren lib opts it w = Ok (kids, w') ->
  frame (w_store w) (w_store w')
  /\ w_seenNodes w' = w_seenNodes w /\ w_errors w' = w_errors w.
Proof.
  destruct it as [a|ph].
  - by intros (? & ? & ? & ? & ? & _ & _ & _ & _ & _ & _ & _ & ? & ? & ?)
           %getChildren_Ok.
  - intros [_ ->]%getChildren_Plain. split; [apply frame_refl|done].
Qed.

Lemma getChildren_raises (st0 : Store) (it : item) (w : Walk) :
  frame st0 (w_store w) ->
  raises isTypeError (frame st0) (getChildren lib opts it w).
Proof.
  intros Hframe. destruct it as [a|ph]; [|apply raises_Ok].
  unfold getChildren.
  apply raises_bind;
    [apply raises_inState; [apply typeErrorOnly_deref|done]|].
  intros node _.
  apply raises_bind;
    [apply raises_inState; [apply typeErrorOnly_deref|done]|].
  intros target _.
  apply raises_bind.
  { apply raises_inState; [|done]. apply typeErrorOnly_filterM.
    intros e. apply typeErrorOnly_filterBySelectedWorkspaces. }
  intros edges1 _.
  apply raises_bind; [by apply mapEdges_raises|].
  intros [[nodes sp] st'] [Hf' _]%mapEdges_Ok.
  assert (frame st0 st') as Hf2 by by eapply frame_trans.
  apply raises_bind;
    [apply raises_inState; [apply typeErrorOnly_deref|done]|].
  intros node' _.
  apply raises_bind; [|intros extra _; apply raises_Ok].
  apply raises_inState; [apply typeErrorOnly_appendExtraneousChildren|done].
Qed.

Lemma getChildren_length (st0 : Store) (it : item) (w w' : Walk)
    (kids : list item) :
  frame st0 (w_store w) ->
  getChildren lib opts it w = Ok (kids, w') -> length kids <= cap st0 it.
Proof.
  intros Hframe H. rewrite <- (cap_frame _ _ _ Hframe).
  destruct it as [a|ph]; [|simpl in H; by simplify_eq].
  apply getChildren_Ok in H
    as (node & target & edges1 & nodes & kept & Hnode & Htarget & Hedges1
        & Hall & -> & _ & Hkept & _).
  unfold cap. rewrite Hnode, Htarget, sort_perm, length_app, length_fmap.
  apply Forall2_length in Hall. apply filterM_length in Hedges1.
  pose proof (length_filter (fun e => filterByEdgesTypes opts e = true) edges1).
  lia.
Qed.

Lemma visit_Ok (it : item) (w w' : Walk) :
  visit lib it w = Ok w' ->
  exists errs,
    findErrors lib (w_store w) it = Ok errs
    /\ w_store w' = w_store w
    /\ w_errors w' = foldl (fun s e => setAdd e s) (w_errors w) errs
    /\ w_seenNodes w' = mapSet (pathOf (w_store w) it) it (w_seenNodes w).
Proof.
  unfold visit. intros H. bind_inv H as errs Herrs. simplify_eq.
  by exists errs.
Qed.

Lemma visit_raises (st0 : Store) (it : item) (w : Walk) :
  frame st0 (w_store w) ->
  raises isTypeError (frame st0) (visit lib it w).
Proof.
  intros Hframe. unfold visit.
  apply raises_bind; [|intros errs _; apply raises_Ok].
  apply raises_inState; [apply typeErrorOnly_findErrors|done].
Qed.

(** *** When the walk does not throw *)

Lemma filterBySelectedWorkspaces_runs (st : Store) (edge : Edge) :
  edgeClosed st edge ->
  (workspacesEnabled opts = false ->
   forall from,
     st !! e_from edge = Some from -> n_isProjectRoot from = true ->
     is_Some (e_to edge)) ->
  exists b, filterBySelectedWorkspaces opts st edge = Ok b.
Proof.
  intros [[from Hfrom] Hto] Hsafe. unfold filterBySelectedWorkspaces, deref.
  rewrite Hfrom. simpl.
  destruct (workspacesEnabled opts) eqn:Hws; simpl.
  { repeat case_match; eauto. }
  destruct (n_isProjectRoot from) eqn:Hroot; simpl;
    [|repeat case_match; eauto].
  destruct (Hsafe eq_refl from Hfrom Hroot) as [b Hb]. rewrite Hb in *.
  destruct Hto as [to Hto]. simpl. rewrite Hto. simpl.
  repeat case_match; eauto.
Qed.

Lemma mapEdgesToNodes_runs (st : Store) (sp : list string) (edge : Edge) :
  edgeClosed st edge ->
  exists it sp' st', mapEdgesToNodes lib st sp edge = Ok (it, sp', st').
Proof.
  intros [[from Hfrom] Hto]. unfold mapEdgesToNodes, deref.
  destruct (e_missing edge) eqn:Hmissing; simpl.
  { rewrite Hfrom. simpl. eauto. }
  destruct (e_to edge) as [b|] eqn:Hb; simpl.
  - destruct Hto as [to Hto]. rewrite Hto. simpl.
    rewrite andb_false_r. eauto.
  - destruct Hto as [?|Hopt]; [congruence|]. rewrite Hopt. simpl.
    rewrite Hfrom. simpl. eauto.
Qed.

Lemma mapEdges_runs (st : Store) (sp : list string) (edges : list Edge) :
  (forall e, e ∈ edges -> edgeClosed st e) ->
  exists its sp' st', mapEdges lib st sp edges = Ok (its, sp', st').
Proof.
  revert st sp. induction edges as [|e edges IH]; intros st sp Hclosed; simpl.
  { eauto. }
  destruct (mapEdgesToNodes_runs st sp e) as (it & sp1 & st1 & H1).
  { apply Hclosed, elem_of_cons. auto. }
  rewrite H1. simpl.
  apply mapEdgesToNodes_Ok in H1 as [_ Hframe].
  destruct (IH st1 sp1) as (its & sp2 & st2 & H2).
  { intros e' He'. eapply edgeClosed_frame; [exact Hframe|].
    apply Hclosed, elem_of_cons. auto. }
  rewrite H2. simpl. eauto.
Qed.

Lemma visit_runs (a : addr) (w : Walk) :
  is_Some (w_store w !! a) -> exists w1, visit lib (ArbNode a) w = Ok w1.
Proof.
  intros [n Hn]. unfold visit, findErrors, deref. rewrite Hn. simpl. eauto.
Qed.

Lemma getChildren_runs (a : addr) (w : Walk) :
  wellFormed (w_store w) -> workspacesSafe opts (w_store w) ->
  is_Some (w_store w !! a) ->
  exists kids w', getChildren lib opts (ArbNode a) w = Ok (kids, w').
Proof.
  intros Hwf Hws [node Hnode]. unfold getChildren, deref. rewrite Hnode.
  simpl. destruct (Hwf _ _ Hnode) as ([target Htarget] & Hchildren & _).
  rewrite Htarget. simpl.
  destruct (Hwf _ _ Htarget) as (_ & _ & Hedges).
  destruct (filterM_runs (filterBySelectedWorkspaces opts (w_store w))
              (n_edgesOut target)) as [edges1 Hedges1].
  { intros e He. apply filterBySelectedWorkspaces_runs; [by apply Hedges|].
    intros Hoff from Hfrom Hroot.
    exact (Hws Hoff _ _ e from Htarget He Hfrom Hroot). }
  rewrite Hedges1. simpl.
  destruct (mapEdges_runs (w_store w) []
              (filter (fun e => filterByEdgesTypes opts e = true) edges1))
    as (nodes & sp & st' & Hmap).
  { intros e [_ He]%list_elem_of_filter.
    apply (filterM_Ok_sub _ _ _ Hedges1) in He as [He _]. by apply Hedges. }
  rewrite Hmap. simpl. apply mapEdges_Ok in Hmap as [Hframe _].
  destruct (Forall2_lookup_l _ _ _ _ _ Hframe Hnode) as (node' & Hnode' & Hsh).
  rewrite Hnode'. simpl.
  destruct (sameShape_fields _ _ Hsh) as (_ & _ & _ & _ & Hch & _).
  unfold appendExtraneousChildren.
  match goal with
  | |- context [filterM ?f ?l] =>
      destruct (filterM_runs f l) as [kept Hkept];
        [|rewrite Hkept; simpl; eauto]
  end.
  intros c Hc. rewrite Hch in Hc.
  destruct (proj1 (is_Some_frame _ _ c Hframe) (Hchildren c Hc))
    as [child Hchild].
  unfold deref. rewrite Hchild. simpl. eauto.
Qed.

(** *** The loop of [breadth] *)

Lemma breadth_unfold (fuel : nat) (node : item) (rest : list item)
    (seen : list addr) (w : Walk) :
  breadth lib opts (S fuel) (node :: rest) seen w
  = if seenHas seen node then breadth lib opts fuel rest seen w
    else
      match visit lib node w with
      | Throw e => Some (Throw e)
      | Ok w1 =>
          match getChildren lib opts node w1 with
          | Throw e => Some (Throw e)
          | Ok (kids, w2) =>
              breadth lib opts fuel (rest ++ kids) (seenAdd node seen) w2
          end
      end.
Proof. reflexivity. Qed.

(** A property of the queue, the seen objects and the state of the walk that
    holds at the start and is kept by both ways through the loop holds when
    the walk returns. *)
Lemma breadth_invariant (I : list item -> list addr -> Walk -> Prop) :
  (forall node rest seen w,
     I (node :: rest) seen w -> seenHas seen node = true -> I rest seen w) ->
  (forall node rest seen w w1 kids w2,
     I (node :: rest) seen w -> seenHas seen node = false ->
     visit lib node w = Ok w1 -> getChildren lib opts node w1 = Ok (kids, w2) ->
     I (rest ++ kids) (seenAdd node seen) w2) ->
  forall fuel queue seen w w',
    I queue seen w ->
    breadth lib opts fuel queue seen w = Some (Ok w') ->
    exists seen', I [] seen' w'.
Proof.
  intros Hskip Hstep. induction fuel as [|fuel IH]; intros queue seen w w' HI H.
  { discriminate. }
  destruct queue as [|node rest]; [simpl in H; simplify_eq; eauto|].
  rewrite breadth_unfold in H.
  destruct (seenHas seen node) eqn:Hseen; [by eapply IH, H; eapply Hskip|].
  destruct (visit lib node w) as [w1|e] eqn:Hvisit; [|discriminate].
  destruct (getChildren lib opts node w1) as [[kids w2]|e] eqn:Hkids;
    [|discriminate].
  eapply IH, H. by eapply Hstep.
Qed.

(** A walk whose every step returns does not throw. *)
Lemma breadth_safe (I : list item -> list addr -> Walk -> Prop) :
  (forall node rest seen w,
     I (node :: rest) seen w -> seenHas seen node = true -> I rest seen w) ->
  (forall node rest seen w w1 kids w2,
     I (node :: rest) seen w -> seenHas seen node = false ->
     visit lib node w = Ok w1 -> getChildren lib opts node w1 = Ok (kids, w2) ->
     I (rest ++ kids) (seenAdd node seen) w2) ->
  (forall node rest seen w,
     I (node :: rest) seen w -> seenHas seen node = false ->
     exists w1, visit lib node w = Ok w1
                /\ exists kids w2,
                     getChildren lib opts node w1 = Ok (kids, w2)) ->
  forall fuel queue seen w r,
    I queue seen w ->
    breadth lib opts fuel queue seen w = Some r ->
    exists w', r = Ok w'.
Proof.
  intros Hskip Hstep Hsafe.
  induction fuel as [|fuel IH]; intros queue seen w r HI H.
  { discriminate. }
  destruct queue as [|node rest]; [simpl in H; simplify_eq; eauto|].
  rewrite breadth_unfold in H.
  destruct (seenHas seen node) eqn:Hseen; [by eapply IH, H; eapply Hskip|].
  destruct (Hsafe _ _ _ _ HI Hseen) as (w1 & Hvisit & kids & w2 & Hkids).
  rewrite Hvisit, Hkids in H. eapply IH, H. by eapply Hstep.
Qed.

(** The walk throws nothing but a [TypeError], and whether it returns or
    throws, it leaves a tree that differs from the one it started with by
    marks only. *)
Lemma breadth_frame (st0 : Store) (fuel : nat) (queue : list item)
    (seen : list addr) (w : Walk) (r : outcome (exn * Store) Walk) :
  frame st0 (w_store w) ->
  breadth lib opts fuel queue seen w = Some r ->
  frame st0 (walkStoreOf r) /\ raises isTypeError (frame st0) r.
Proof.
  revert queue seen w.
  induction fuel as [|fuel IH]; intros queue seen w Hframe H.
  { discriminate. }
  destruct queue as [|node rest].
  { simpl in H. simplify_eq. split; [done|apply raises_Ok]. }
  rewrite breadth_unfold in H.
  destruct (seenHas seen node); [by eapply IH|].
  pose proof (visit_raises st0 node w Hframe) as Hv.
  destruct (visit lib node w) as [w1|[e1 s1]] eqn:Hvisit.
  - apply visit_Ok in Hvisit as (errs & _ & Hst1 & _).
    rewrite <- Hst1 in Hframe.
    pose proof (getChildren_raises st0 node w1 Hframe) as Hg.
    destruct (getChildren lib opts node w1) as [[kids w2]|[e2 s2]] eqn:Hkids.
    + apply getChildren_state in Hkids as [Hf _].
      eapply IH; [|exact H]. by eapply frame_trans.
    + simplify_eq. destruct (Hg _ _ eq_refl). split; [done|].
      by apply raises_Throw.
  - simplify_eq. destruct (Hv _ _ eq_refl). split; [done|].
    by apply raises_Throw.
Qed.

Lemma breadth_more_fuel (fuel fuel' : nat) (queue : list item)
    (seen : list addr) (w : Walk) (r : outcome (exn * Store) Walk) :
  breadth lib opts fuel queue seen w = Some r -> fuel <= fuel' ->
  breadth lib opts fuel' queue seen w = Some r.
Proof.
  revert fuel' queue seen w.
  induction fuel as [|fuel IH]; intros fuel' queue seen w H Hle.
  { discriminate. }
  destruct fuel' as [|fuel']; [lia|].
  destruct queue as [|node rest]; [done|]. rewrite breadth_unfold in *.
  destruct (seenHas seen node); [apply IH; [done|lia]|].
  destruct (visit lib node w) as [w1|e1]; [|done].
  destruct (getChildren lib opts node w1) as [[kids w2]|e2]; [|done].
  apply IH; [done|lia].
Qed.

(** *** Termination *)

Lemma filter_unseen_fresh (a : addr) (seen l : list addr) :
  a ∉ l ->
  filter (fun b => b ∉ a :: seen) l = filter (fun b => b ∉ seen) l.
Proof.
  induction l as [|x l IH]; intros Ha; [done|].
  apply not_elem_of_cons in Ha as [Hne Ha].
  destruct (decide (x ∈ seen)) as [Hx|Hx].
  - rewrite !filter_cons_False; [by apply IH| |]; rewrite ?elem_of_cons; tauto.
  - rewrite !filter_cons_True; [by rewrite IH| |]; rewrite ?elem_of_cons;
      [tauto|]. intros [?|?]; congruence.
Qed.

Lemma sum_unseen_remove (f : addr -> nat) (a : addr) (seen l : list addr) :
  NoDup l -> a ∈ l -> a ∉ seen ->
  sum_list (f <$> filter (fun b => b ∉ a :: seen) l) + f a
  = sum_list (f <$> filter (fun b => b ∉ seen) l).
Proof.
  induction l as [|x l IH]; intros Hnd Hin Ha.
  { by apply elem_of_nil in Hin. }
  apply NoDup_cons in Hnd as [Hx Hnd].
  destruct (decide (x = a)) as [->|Hne].
  - rewrite filter_cons_False by (rewrite elem_of_cons; tauto).
    rewrite filter_cons_True by done.
    rewrite filter_unseen_fresh by done. rewrite fmap_cons. simpl. lia.
  - apply elem_of_cons in Hin as [?|Hin]; [congruence|].
    specialize (IH Hnd Hin Ha).
    destruct (decide (x ∈ seen)) as [Hs|Hs].
    + rewrite !filter_cons_False; [done| |]; rewrite ?elem_of_cons; tauto.
    + rewrite !filter_cons_True; [rewrite !fmap_cons; simpl; lia| |];
        rewrite ?elem_of_cons; [tauto|]. intros [?|?]; congruence.
Qed.

Lemma remaining_seenAdd (st : Store) (seen : list addr) (a : addr)
    (node : Node) :
  st !! a = Some node -> a ∉ seen ->
  remaining st (a :: seen) + cap st (ArbNode a) = remaining st seen.
Proof.
  intros Ha Hseen. unfold remaining.
  apply (sum_unseen_remove (fun a => cap st (ArbNode a)));
    [apply NoDup_seq| |done].
  apply elem_of_seq. apply lookup_lt_Some in Ha. lia.
Qed.

(** With more fuel than the queue is long plus what unseen objects may still
    add to it, the walk returns or throws. *)
Lemma breadth_terminates (st0 : Store) (fuel : nat) (queue : list item)
    (seen : list addr) (w : Walk) :
  frame st0 (w_store w) ->
  length queue + remaining st0 seen < fuel ->
  is_Some (breadth lib opts fuel queue seen w).
Proof.
  revert queue seen w.
  induction fuel as [|fuel IH]; intros queue seen w Hframe Hlt; [lia|].
  destruct queue as [|node rest]; [simpl; eauto|]. simpl in Hlt.
  rewrite breadth_unfold.
  destruct (seenHas seen node) eqn:Hseen; [apply IH; [done|lia]|].
  destruct (visit lib node w) as [w1|e1] eqn:Hvisit; [|eauto].
  destruct (getChildren lib opts node w1) as [[kids w2]|e2] eqn:Hkids;
    [|eauto].
  apply visit_Ok in Hvisit as (errs & Herrs & Hst1 & _).
  rewrite <- Hst1 in Hframe.
  pose proof (getChildren_length _ _ _ _ _ Hframe Hkids) as Hlen.
  apply IH.
  - apply getChildren_state in Hkids as [Hf _]. by eapply frame_trans.
  - rewrite length_app. destruct node as [a|ph]; simpl in *; [|lia].
    apply bool_decide_eq_false in Hseen.
    bind_inv Herrs as node Hnode.
    apply deref_Ok in Hnode.
    frame_at Hframe a n0 n1 Hn0 Hn1 Hsh; [|congruence].
    pose proof (remaining_seenAdd _ _ _ _ Hn0 Hseen) as Hrem. simpl in Hrem.
    lia.
Qed.

Lemma walk_returns (st : Store) (tree : addr) :
  is_Some (walk lib opts (2 + remaining st []) st tree).
Proof.
  apply (breadth_terminates st); [apply frame_refl|]. simpl. lia.
Qed.

Lemma walk_more_fuel (fuel fuel' : nat) (st : Store) (tree : addr)
    (r : outcome (exn * Store) Walk) :
  walk lib opts fuel st tree = Some r -> fuel <= fuel' ->
  walk lib opts fuel' st tree = Some r.
Proof. apply breadth_more_fuel. Qed.

Lemma walk_frame (st : Store) (tree : addr) (fuel : nat)
    (r : outcome (exn * Store) Walk) :
  walk lib opts fuel st tree = Some r ->
  frame st (walkStoreOf r) /\ raises isTypeError (frame st) r.
Proof. apply breadth_frame, frame_refl. Qed.

End Walk.

(** ** What the walk finds *)

Lemma edgeItem_ArbNode (lib : Lib) (st : Store) (edge : Edge) (b : addr) :
  edgeItem lib st edge = Some (ArbNode b) ->
  e_to edge = Some b /\ isUnresolved st edge = false /\ is_Some (st !! b).
Proof.
  unfold edgeItem. destruct (isUnresolved st edge).
  - destruct (st !! e_from edge); discriminate.
  - destruct (e_to edge) as [a|]; simpl; [|discriminate].
    destruct (st !! a) eqn:Ha; simpl; [|discriminate].
    intros [= <-]. by rewrite Ha.
Qed.

Lemma edgeItem_Plain (lib : Lib) (st : Store) (edge : Edge)
    (ph : Placeholder) :
  edgeItem lib st edge = Some (Plain ph) ->
  isUnresolved st edge = true
  /\ exists from,
       st !! e_from edge = Some from
       /\ ph = {| ph_name := e_name edge;
                  ph_pkgid := e_name edge +:+ "@" +:+ e_spec edge;
                  ph_missing := pkgid lib st from;
                  ph_invalid := e_invalid edge;
                  ph_type := e_type edge |}.
Proof.
  unfold edgeItem. destruct (isUnresolved st edge).
  - destruct (st !! e_from edge) as [from|]; simpl; [|discriminate].
    intros [= <-]. eauto.
  - destruct (e_to edge) as [a|]; simpl; [|discriminate].
    destruct (st !! a); discriminate.
Qed.

(** A node that the walk can reach is a node of the tree. *)
Lemma reachable_node (lib : Lib) (opts : Options) (st : Store)
    (tree a : addr) :
  is_Some (st !! tree) -> reachable lib opts st tree a -> is_Some (st !! a).
Proof.
  intros Htree Hreach. destruct Hreach as [|a b e _ _ _ Hit|]; [done| |eauto].
  by apply edgeItem_ArbNode in Hit as (_ & _ & ?).
Qed.

Lemma findErrors_Plain (lib : Lib) (st st' : Store) (ph : Placeholder) :
  findErrors lib st (Plain ph) = findErrors lib st' (Plain ph).
Proof. reflexivity. Qed.

Section Visited.

Variable lib : Lib.
Variable opts : Options.

Lemma getChildren_complete (st0 : Store) (a : addr) (w w' : Walk)
    (kids : list item) (edge : Edge) (it : item) :
  frame st0 (w_store w) ->
  getChildren lib opts (ArbNode a) w = Ok (kids, w') ->
  edgeOf st0 a edge -> survives opts st0 edge ->
  edgeItem lib st0 edge = Some it ->
  it ∈ kids.
Proof.
  intros Hframe Hkids (node0 & target0 & Hnode0 & Htarget0 & Hin) [Hws Homit]
    Hitem.
  apply getChildren_Ok in Hkids
    as (node & target & edges1 & nodes & kept & Hnode & Htarget & Hedges1
        & Hall & -> & _).
  pose proof (Forall2_lookup_lr _ _ _ _ _ _ Hframe Hnode0 Hnode) as Hsh.
  destruct (sameShape_fields _ _ Hsh) as (_ & _ & Htgt & _).
  rewrite Htgt in Htarget.
  pose proof (Forall2_lookup_lr _ _ _ _ _ _ Hframe Htarget0 Htarget) as Hsh'.
  destruct (sameShape_fields _ _ Hsh') as (_ & _ & _ & Hedges & _).
  rewrite <- Hedges in Hin.
  destruct (filterM_Ok_elem _ _ _ Hedges1 _ Hin) as (b & Hb & Hb').
  rewrite (filterBySelectedWorkspaces_frame _ _ _ _ Hframe), Hws in Hb.
  injection Hb as <-. specialize (Hb' eq_refl).
  assert (edge ∈ filter (fun e => filterByEdgesTypes opts e = true) edges1)
    as Hin2 by by apply list_elem_of_filter.
  apply list_elem_of_lookup in Hin2 as [i Hi].
  destruct (Forall2_lookup_l _ _ _ _ _ Hall Hi) as (it' & Hit' & Heq).
  rewrite (edgeItem_frame _ _ _ _ Hframe), Hitem in Heq. injection Heq as <-.
  rewrite sort_perm. apply elem_of_app. left.
  by eapply list_elem_of_lookup_2.
Qed.

(** Where a child comes from: an edge of the target that passed both
    filters, or an extraneous child of the node. *)
Lemma getChildren_edges (st0 : Store) (a : addr) (w w' : Walk)
    (kids : list item) (it : item) :
  frame st0 (w_store w) ->
  getChildren lib opts (ArbNode a) w = Ok (kids, w') ->
  it ∈ kids ->
  (exists edge,
     edgeOf st0 a edge /\ survives opts st0 edge
     /\ edgeItem lib st0 edge = Some it)
  \/ (exists b node child,
        it = ArbNode b /\ st0 !! a = Some node /\ b ∈ n_children node
        /\ st0 !! b = Some child /\ n_extraneous child = true).
Proof.
  intros Hframe Hkids Hit.
  apply getChildren_Ok in Hkids
    as (node & target & edges1 & nodes & kept & Hnode & Htarget & Hedges1
        & Hall & -> & Hkept & _ & Hframe' & _).
  rewrite sort_perm in Hit.
  frame_at Hframe a node0 node1 Hn0 Hn1 Hsh; [|congruence].
  rewrite Hnode in Hn1. injection Hn1 as <-.
  destruct (sameShape_fields _ _ Hsh) as (_ & _ & Htgt & _ & Hch & _).
  apply elem_of_app in Hit as [Hit|Hit].
  - left. apply list_elem_of_lookup in Hit as [i Hi].
    destruct (Forall2_lookup_r _ _ _ _ _ Hall Hi) as (e & He & Hitem).
    apply list_elem_of_lookup_2, list_elem_of_filter in He as [Homit He].
    apply (filterM_Ok_sub _ _ _ Hedges1) in He as [He Hws].
    rewrite Htgt in Htarget.
    frame_at Hframe (n_target node0) t0 t1 Ht0 Ht1 Hsh'; [|congruence].
    rewrite Htarget in Ht1. injection Ht1 as <-.
    destruct (sameShape_fields _ _ Hsh') as (_ & _ & _ & Hedges & _).
    rewrite Hedges in He.
    rewrite (filterBySelectedWorkspaces_frame _ _ _ _ Hframe) in Hws.
    rewrite (edgeItem_frame _ _ _ _ Hframe) in Hitem.
    exists e. split; [by exists node0, t0|]. by split.
  - right. apply list_elem_of_fmap in Hit as (b & -> & Hb).
    destruct (Hkept _ Hb) as (Hin & child & Hchild & Hext).
    pose proof (frame_trans _ _ _ Hframe Hframe') as Hframe2.
    frame_at Hframe2 b c0 c1 Hc0 Hc1 Hshc; [|congruence].
    rewrite Hchild in Hc1. injection Hc1 as <-.
    destruct (sameShape_fields _ _ Hshc)
      as (_ & _ & _ & _ & _ & _ & _ & Hx & _).
    exists b, node0, c0. split; [done|]. split; [done|].
    split; [by rewrite <- Hch|]. split; [done|congruence].
Qed.

Lemma getChildren_sound (st0 : Store) (tree a : addr) (w w' : Walk)
    (kids : list item) :
  frame st0 (w_store w) ->
  getChildren lib opts (ArbNode a) w = Ok (kids, w') ->
  reachable lib opts st0 tree a ->
  forall b, ArbNode b ∈ kids -> reachable lib opts st0 tree b.
Proof.
  intros Hframe Hkids Ha b Hb.
  destruct (getChildren_edges _ _ _ _ _ _ Hframe Hkids Hb)
    as [(e & He & Hs & Hit)|(b' & node & child & [= <-] & Hn & Hin & Hc & Hx)].
  - by eapply reachable_edge.
  - by eapply reachable_child.
Qed.

Lemma mapEdgesToNodes_seenPaths (st st' : Store) (sp sp' : list string)
    (edge : Edge) (it : item) (p : string) :
  mapEdgesToNodes lib st sp edge = Ok (it, sp', st') -> p ∈ sp' ->
  p ∈ sp \/ exists c n, it = ArbNode c /\ st !! c = Some n /\ n_path n = p.
Proof.
  unfold mapEdgesToNodes. intros H Hp. case_match.
  - bind_inv H as from Hfrom. simplify_eq. auto.
  - destruct (e_to edge) as [c|]; [|discriminate].
    bind_inv H as node Hnode. apply deref_Ok in Hnode. simplify_eq.
    simpl in Hp. destruct (String.eqb (n_path node) ""); [auto|].
    apply setAdd_elem in Hp as [->|?]; [|auto].
    right. by exists c, node.
Qed.

Lemma mapEdges_seenPaths (st st' : Store) (sp sp' : list string)
    (edges : list Edge) (its : list item) (p : string) :
  mapEdges lib st sp edges = Ok (its, sp', st') -> p ∈ sp' ->
  p ∈ sp
  \/ exists c n, ArbNode c ∈ its /\ st !! c = Some n /\ n_path n = p.
Proof.
  revert st sp its. induction edges as [|e edges IH]; intros st sp its H Hp.
  { simpl in H. simplify_eq. auto. }
  simpl in H. bind_inv H as r1 Hr1. destruct r1 as [[it sp1] st1].
  bind_inv H as r2 Hr2. destruct r2 as [[its' sp2] st2]. simplify_eq.
  destruct (IH _ _ _ Hr2 Hp) as [Hp1|(c & n1 & Hc & Hn1 & Hpath)].
  - destruct (mapEdgesToNodes_seenPaths _ _ _ _ _ _ _ Hr1 Hp1)
      as [?|(c & n & -> & Hn & Hpath)]; [auto|].
    right. exists c, n. split; [apply elem_of_cons; auto|done].
  - apply mapEdgesToNodes_Ok in Hr1 as [_ Hframe].
    destruct (Forall2_lookup_r _ _ _ _ _ Hframe Hn1) as (n & Hn & Hsh).
    destruct (sameShape_fields _ _ Hsh) as (_ & Hpath' & _).
    right. exists c, n. split; [apply elem_of_cons; auto|].
    split; [done|congruence].
Qed.

(** An extraneous child of a node is among its children in the walk, when
    paths tell the nodes apart. *)
Lemma getChildren_extraneous (st0 : Store) (a b : addr) (w w' : Walk)
    (kids : list item) (node child : Node) :
  pathsDistinct st0 -> frame st0 (w_store w) ->
  getChildren lib opts (ArbNode a) w = Ok (kids, w') ->
  st0 !! a = Some node -> b ∈ n_children node -> st0 !! b = Some child ->
  n_extraneous child = true ->
  ArbNode b ∈ kids.
Proof.
  intros Hpaths Hframe H Hnode0 Hb Hchild0 Hext. unfold getChildren in H.
  bind_inv H as node1 Hnode1. bind_inv H as target Htarget.
  bind_inv H as edges1 Hedges1.
  bind_inv H as r Hmap. destruct r as [[nodes sp] st'].
  bind_inv H as node' Hnode'. apply deref_Ok in Hnode'.
  bind_inv H as extra Hextra. simplify_eq.
  rewrite sort_perm. apply elem_of_app.
  pose proof Hmap as [Hframe' _]%mapEdges_Ok.
  pose proof (frame_trans _ _ _ Hframe Hframe') as Hframe2.
  unfold appendExtraneousChildren in Hextra.
  bind_inv Hextra as kept Hkept. simplify_eq.
  pose proof (Forall2_lookup_lr _ _ _ _ _ _ Hframe2 Hnode0 Hnode') as Hsh.
  destruct (sameShape_fields _ _ Hsh) as (_ & _ & _ & _ & Hch & _).
  rewrite <- Hch in Hb.
  destruct (filterM_Ok_elem _ _ _ Hkept _ Hb) as (keep & Hkeep & Hin).
  bind_inv Hkeep as child' Hchild'. apply deref_Ok in Hchild'.
  pose proof (Forall2_lookup_lr _ _ _ _ _ _ Hframe2 Hchild0 Hchild') as Hshc.
  destruct (sameShape_fields _ _ Hshc)
    as (_ & Hpath & _ & _ & _ & _ & _ & Hx & _).
  rewrite Hx, Hext, andb_true_r in Hkeep. injection Hkeep as Hkeep.
  destruct keep.
  { right. apply list_elem_of_fmap. exists b. auto. }
  left. apply negb_false_iff, bool_decide_eq_true in Hkeep.
  destruct (mapEdges_seenPaths _ _ _ _ _ _ _ Hmap Hkeep)
    as [?%elem_of_nil|(c & n & Hc & Hn & Hpc)]; [done|].
  destruct (Forall2_lookup_r _ _ _ _ _ Hframe Hn) as (n0 & Hn0 & Hshn).
  destruct (sameShape_fields _ _ Hshn) as (_ & Hpn & _).
  by rewrite <- (Hpaths c b n0 child Hn0 Hchild0) by congruence.
Qed.

Lemma childrenHandled_skip (st0 : Store) (node : item) (rest : list item)
    (seen : list addr) (w : Walk) :
  childrenHandled lib opts st0 (node :: rest) seen w ->
  seenHas seen node = true ->
  childrenHandled lib opts st0 rest seen w.
Proof.
  intros Hch (b & -> & Hb)%seenHas_true a edge it Ha He Hs Hit.
  specialize (Hch a edge it Ha He Hs Hit). destruct it as [c|ph].
  - destruct Hch as [?|[[= <-]|?]%elem_of_cons]; auto.
  - destruct Hch as [[[=]|?]%elem_of_cons|?]; auto.
Qed.

Lemma childrenHandled_step (st0 : Store) (node : item) (rest kids : list item)
    (seen : list addr) (w w1 w2 : Walk) :
  frame st0 (w_store w) ->
  childrenHandled lib opts st0 (node :: rest) seen w ->
  visit lib node w = Ok w1 -> getChildren lib opts node w1 = Ok (kids, w2) ->
  childrenHandled lib opts st0 (rest ++ kids) (seenAdd node seen) w2.
Proof.
  intros Hf Hch Hvisit Hkids.
  apply visit_Ok in Hvisit as (errs & Herrs & Hst1 & Herr1 & _).
  assert (frame st0 (w_store w1)) as Hf1 by by rewrite Hst1.
  pose proof (getChildren_state _ _ _ _ _ _ Hkids) as (_ & _ & Herr2).
  intros a edge it [->|Ha]%seenAdd_elem He Hs Hit.
  - pose proof (getChildren_complete _ _ _ _ _ _ _ Hf1 Hkids He Hs Hit).
    destruct it; [right|left]; apply elem_of_app; auto.
  - specialize (Hch a edge it Ha He Hs Hit). destruct it as [c|ph].
    + rewrite seenAdd_elem, elem_of_app.
      destruct Hch as [?|[?|?]%elem_of_cons]; auto.
    + rewrite elem_of_app.
      destruct Hch as [[<-|?]%elem_of_cons|Hrec]; auto; right.
      * intros errs' line Herrs' Hline.
        rewrite (findErrors_Plain _ _ (w_store w)), Herrs in Herrs'.
        injection Herrs' as <-.
        rewrite Herr2, Herr1. apply setAdd_all_elem. auto.
      * intros errs' line Herrs' Hline.
        rewrite Herr2, Herr1. apply setAdd_all_elem. eauto.
Qed.

Lemma walkInvariant_start (st0 : Store) (tree : addr) :
  walkInvariant lib opts st0 tree [ArbNode tree] [] (walkStart st0).
Proof.
  split; [apply frame_refl|]. split; [apply NoDup_nil_2|]. split.
  { intros b [= ->]%list_elem_of_singleton. constructor. }
  split; [by intros k it ?%elem_of_nil|]. split; [apply NoDup_nil_2|].
  split; [by intros a ?%elem_of_nil|].
  split; [right; by apply list_elem_of_singleton|].
  split; [by intros _ a n b child ?%elem_of_nil|].
  intros a edge it Ha. by apply elem_of_nil in Ha.
Qed.

Lemma walkInvariant_skip (st0 : Store) (tree : addr) (node : item)
    (rest : list item) (seen : list addr) (w : Walk) :
  walkInvariant lib opts st0 tree (node :: rest) seen w ->
  seenHas seen node = true ->
  walkInvariant lib opts st0 tree rest seen w.
Proof.
  intros (Hf & Hne & Hq & Hrec & Hnd & Hkeys & Ht & Hx & Hch) Hseen.
  split; [done|]. split; [done|].
  split; [intros b Hb; apply Hq, elem_of_cons; auto|].
  split; [done|]. split; [done|]. split; [done|]. split; [|split].
  - apply seenHas_true in Hseen as (b & -> & Hb).
    destruct Ht as [?|[[= <-]|?]%elem_of_cons]; auto.
  - intros Hpaths a n b child Ha Hn Hb Hchild Hext.
    apply seenHas_true in Hseen as (c & -> & Hc).
    destruct (Hx Hpaths a n b child Ha Hn Hb Hchild Hext)
      as [?|[[= <-]|?]%elem_of_cons]; auto.
  - by eapply childrenHandled_skip.
Qed.

Lemma walkInvariant_step (st0 : Store) (tree : addr) (node : item)
    (rest : list item) (seen : list addr) (w w1 : Walk) (kids : list item)
    (w2 : Walk) :
  walkInvariant lib opts st0 tree (node :: rest) seen w ->
  seenHas seen node = false ->
  visit lib node w = Ok w1 -> getChildren lib opts node w1 = Ok (kids, w2) ->
  walkInvariant lib opts st0 tree (rest ++ kids) (seenAdd node seen) w2.
Proof.
  intros (Hf & Hne & Hq & Hrec & Hnd & Hkeys & Ht & Hx & Hch) Hseen Hvisit
    Hkids.
  pose proof (childrenHandled_step _ _ _ _ _ _ _ _ Hf Hch Hvisit Hkids)
    as Hch'.
  assert (pathsDistinct st0 ->
          extraneousHandled st0 (rest ++ kids) (seenAdd node seen)) as Hx'.
  { intros Hpaths a n b child [->|Ha]%seenAdd_elem Hn Hb Hchild Hext.
    - right. apply elem_of_app. right.
      apply visit_Ok in Hvisit as (_ & _ & Hst1 & _).
      eapply (getChildren_extraneous st0 a b w1);
        [done|by rewrite Hst1|exact Hkids|exact Hn|exact Hb|exact Hchild
        |exact Hext].
    - rewrite seenAdd_elem, elem_of_app.
      destruct (Hx Hpaths a n b child Ha Hn Hb Hchild Hext)
        as [?|[?|?]%elem_of_cons]; auto. }
  apply visit_Ok in Hvisit as (errs & Herrs & Hst1 & Herr1 & Hsn).
  assert (frame st0 (w_store w1)) as Hf1 by by rewrite Hst1.
  pose proof (getChildren_state _ _ _ _ _ _ Hkids) as (Hf' & Hsn2 & Herr2).
  assert (frame st0 (w_store w2)) as Hf2 by by eapply frame_trans.
  split; [done|].
  split; [rewrite Herr2, Herr1; by apply setAdd_all_NoDup|].
  split; [|split; [|split; [|split; [|split; [|split; [done|done]]]]]].
  - intros b [Hb|Hb]%elem_of_app; [apply Hq, elem_of_cons; auto|].
    destruct node as [a|ph]; [|simpl in Hkids; simplify_eq;
                                by apply elem_of_nil in Hb].
    eapply getChildren_sound; [exact Hf1|exact Hkids| |exact Hb].
    apply Hq, elem_of_cons. auto.
  - intros k it Hin. unfold recorded in Hrec.
    rewrite Hsn2, Hsn in Hin.
    apply mapSet_elem in Hin as [[= -> ->]|Hin]; [|by apply Hrec].
    destruct node as [a|ph]; [|done]. split.
    + apply Hq, elem_of_cons. auto.
    + bind_inv Herrs as n1 Hn1. apply deref_Ok in Hn1.
      frame_at Hf a n0 n0' Hn0 Hn0' Hsh; [|congruence].
      exists n0. split; [done|]. simpl. rewrite Hn0'. simpl.
      by destruct (sameShape_fields _ _ Hsh) as (_ & -> & _).
  - rewrite Hsn2, Hsn. by apply mapSet_NoDup.
  - intros a [->|Ha]%seenAdd_elem.
    + bind_inv Herrs as n1 Hn1. apply deref_Ok in Hn1.
      frame_at Hf a n0 n0' Hn0 Hn0' Hsh; [|congruence].
      exists n0. split; [done|]. rewrite Hsn2, Hsn. apply mapSet_keys.
      left. simpl. rewrite Hn0'. simpl.
      by destruct (sameShape_fields _ _ Hsh) as (_ & -> & _).
    + destruct (Hkeys a Ha) as (n & Hn & Hk). exists n. split; [done|].
      rewrite Hsn2, Hsn. apply mapSet_keys. auto.
  - rewrite seenAdd_elem, elem_of_app.
    destruct Ht as [?|[?|?]%elem_of_cons]; auto.
Qed.

(** What holds when the walk returns. *)
Lemma walk_visited (st0 : Store) (tree : addr) (fuel : nat) (w : Walk) :
  walk lib opts fuel st0 tree = Some (Ok w) ->
  exists seen,
    walkInvariant lib opts st0 tree [] seen w /\ tree ∈ seen.
Proof.
  intros H.
  destruct (breadth_invariant lib opts (walkInvariant lib opts st0 tree)
              (walkInvariant_skip st0 tree) (walkInvariant_step st0 tree)
              fuel [ArbNode tree] [] (walkStart st0) w
              (walkInvariant_start st0 tree) H) as [seen HI].
  exists seen. split; [done|].
  destruct HI as (_ & _ & _ & _ & _ & _ & [?|?%elem_of_nil] & _); done.
Qed.

(** In a tree without dangling references, and whose edges from the project
    root all lead to a node when workspaces are disabled, the walk does not
    throw. *)
Lemma walk_safe (st : Store) (tree : addr) (fuel : nat)
    (r : outcome (exn * Store) Walk) :
  wellFormed st -> workspacesSafe opts st -> is_Some (st !! tree) ->
  walk lib opts fuel st tree = Some r ->
  exists w, r = Ok w.
Proof.
  intros Hwf Hws Htree H.
  refine (breadth_safe lib opts (walkInvariant lib opts st tree)
            (walkInvariant_skip st tree) (walkInvariant_step st tree) _
            fuel [ArbNode tree] [] (walkStart st) r
            (walkInvariant_start st tree) H).
  intros node rest seen w (Hf & _ & Hq & _) Hseen.
  destruct node as [a|ph].
  - assert (is_Some (w_store w !! a)) as Ha.
    { apply (is_Some_frame st); [done|].
      eapply reachable_node; [done|]. apply Hq, elem_of_cons. auto. }
    destruct (visit_runs lib a w Ha) as [w1 Hvisit]. exists w1.
    split; [done|].
    apply visit_Ok in Hvisit as (_ & _ & Hst1 & _).
    apply getChildren_runs; rewrite Hst1;
      [by eapply wellFormed_frame|by eapply workspacesSafe_frame|done].
  - unfold visit. simpl. eauto.
Qed.

(** The errors of a placeholder that stands for an edge, passing the
    filters, of a node that the walk reaches are in the error set. *)
Lemma walk_reports (st : Store) (tree : addr) (fuel : nat) (w : Walk)
    (a : addr) (edge : Edge) (ph : Placeholder) (errs : list string)
    (line : string) :
  pathsDistinct st ->
  walk lib opts fuel st tree = Some (Ok w) ->
  reachable lib opts st tree a -> edgeOf st a edge -> survives opts st edge ->
  edgeItem lib st edge = Some (Plain ph) ->
  findErrors lib st (Plain ph) = Ok errs -> line ∈ errs ->
  line ∈ w_errors w.
Proof.
  intros Hpaths
    (seen & (_ & _ & _ & _ & _ & _ & _ & Hx & Hch) & Htree)%walk_visited
    Hreach He Hs Hit Herrs Hline.
  specialize (Hx Hpaths).
  assert (a ∈ seen) as Ha.
  { clear He Hs Hit.
    induction Hreach
      as [|a b e _ IH He Hs Hit|a b node child _ IH Hnode Hb Hchild Hext];
      [done| |].
    - destruct (Hch a e _ IH He Hs Hit) as [?|?%elem_of_nil]; done.
    - destruct (Hx a node b child IH Hnode Hb Hchild Hext)
        as [?|?%elem_of_nil]; done. }
  destruct (Hch a edge _ Ha He Hs Hit) as [?%elem_of_nil|Hrec]; [done|].
  eauto.
Qed.

(** The line of a missing dependency. *)
Lemma missing_line (st : Store) (edge : Edge) (from : Node) :
  e_missing edge = true ->
  e_type edge <> "optional" -> e_type edge <> "peerOptional" ->
  st !! e_from edge = Some from -> pkgid lib st from <> "" ->
  exists ph errs,
    edgeItem lib st edge = Some (Plain ph)
    /\ findErrors lib st (Plain ph) = Ok errs
    /\ ("missing: " +:+ (e_name edge +:+ "@" +:+ e_spec edge)
          +:+ ", required by " +:+ pkgid lib st from) ∈ errs.
Proof.
  intros Hmissing Hopt%String.eqb_neq Hpeer%String.eqb_neq Hfrom
    Hid%String.eqb_neq.
  unfold edgeItem, isUnresolved. rewrite Hmissing, Hfrom. simpl.
  eexists _, _. split; [done|]. split; [done|]. simpl.
  rewrite Hid, Hopt, Hpeer. simpl. apply elem_of_cons. by left.
Qed.

Lemma builderInput_elem (w : Walk) (it : item) :
  it ∈ builderInput w <->
  isMissing it = false /\ exists k, (k, it) ∈ w_seenNodes w.
Proof.
  unfold builderInput. rewrite list_elem_of_filter, list_elem_of_fmap.
  split; intros [Hm Hin]; (split; [done|]).
  - destruct Hin as ([k it'] & -> & Hin). by exists k.
  - destruct Hin as [k Hin]. by exists (k, it).
Qed.

Lemma builderInput_sound (st : Store) (tree : addr) (fuel : nat) (w : Walk)
    (b : addr) :
  walk lib opts fuel st tree = Some (Ok w) ->
  ArbNode b ∈ builderInput w ->
  reachable lib opts st tree b.
Proof.
  intros (seen & (_ & _ & _ & Hrec & _) & _)%walk_visited
    (_ & k & Hin)%builderInput_elem.
  by destruct (Hrec _ _ Hin) as [? _].
Qed.

(** Under distinct paths, a reachable node is recorded under its path. *)
Lemma walk_records_reachable (st : Store) (tree : addr) (fuel : nat)
    (w : Walk) (a : addr) :
  pathsDistinct st ->
  walk lib opts fuel st tree = Some (Ok w) ->
  reachable lib opts st tree a ->
  exists n, st !! a = Some n /\ (Some (n_path n), ArbNode a) ∈ w_seenNodes w.
Proof.
  intros Hpaths
    (seen & (_ & _ & _ & Hrec & _ & Hkeys & _ & Hx & Hch) & Htree)%walk_visited
    Hreach.
  specialize (Hx Hpaths).
  assert (a ∈ seen) as Ha.
  { induction Hreach
      as [|a b e _ IH He Hs Hit|a b node child _ IH Hnode Hb Hchild Hext];
      [done| |].
    - destruct (Hch a e _ IH He Hs Hit) as [?|?%elem_of_nil]; done.
    - destruct (Hx a node b child IH Hnode Hb Hchild Hext)
        as [?|?%elem_of_nil]; done. }
  destruct (Hkeys a Ha) as (n & Hn & ([k it] & Hk & Hin)%list_elem_of_fmap).
  simpl in Hk. subst k. pose proof (Hrec _ _ Hin) as Hit.
  destruct it as [b|ph]; [|done].
  destruct Hit as (_ & nb & Hnb & [= Hpath]).
  pose proof (Hpaths a b n nb Hn Hnb Hpath) as ->.
  exists nb. split; [done|]. by rewrite <- Hpath.
Qed.

Lemma builderInput_complete (st : Store) (tree : addr) (fuel : nat)
    (w : Walk) (a : addr) :
  pathsDistinct st ->
  walk lib opts fuel st tree = Some (Ok w) ->
  reachable lib opts st tree a ->
  ArbNode a ∈ builderInput w.
Proof.
  intros Hpaths Hwalk Hreach.
  destruct (walk_records_reachable _ _ _ _ _ Hpaths Hwalk Hreach)
    as (n & _ & Hin).
  apply builderInput_elem. split; [done|]. eauto.
Qed.

(** A node of the input of the builder, other than the tree and not
    extraneous, is the target of an edge that passed both filters. *)
Lemma builderInput_edge (st : Store) (tree : addr) (fuel : nat) (w : Walk)
    (b : addr) :
  walk lib opts fuel st tree = Some (Ok w) ->
  ArbNode b ∈ builderInput w -> b <> tree ->
  (forall child, st !! b = Some child -> n_extraneous child = false) ->
  exists a edge,
    reachable lib opts st tree a
    /\ edgeOf st a edge /\ survives opts st edge /\ e_to edge = Some b.
Proof.
  intros Hwalk Hin Hne Hext.
  pose proof (builderInput_sound _ _ _ _ _ Hwalk Hin) as Hreach.
  inversion Hreach as [|a b' edge Ha He Hs Hit|a b' node child _ _ _ Hc Hx];
    subst.
  - done.
  - apply edgeItem_ArbNode in Hit as (Hto & _). eauto 10.
  - by rewrite (Hext _ Hc) in Hx.
Qed.

End Visited.

(** ** The error gate and the run as a whole *)

Lemma liftLib_Throw {A : Type} (r : option A) (e : exn) :
  liftLib r = Throw e -> e = LibError.
Proof. destruct r; simpl; [discriminate|]. by intros [= <-]. Qed.

Lemma typeErrorOnly_relationshipsFrom (lib : Lib) (st : Store)
    (nodes rest : list item) :
  typeErrorOnly (relationshipsFrom lib st nodes rest).
Proof.
  induction rest as [|it rest IH]; simpl; [apply typeErrorOnly_Ok|].
  apply typeErrorOnly_bind.
  - destruct it as [a|ph]; simpl; [|apply typeErrorOnly_Throw].
    apply typeErrorOnly_bind; [apply typeErrorOnly_deref|].
    intros n. apply typeErrorOnly_Ok.
  - intros rels. apply typeErrorOnly_bind; [done|].
    intros more. apply typeErrorOnly_Ok.
Qed.

Lemma count_NoDup (l : list string) (x : string) :
  NoDup l -> x ∈ l -> length (filter (fun y => y = x) l) = 1.
Proof.
  induction l as [|y l IH]; intros Hnd Hin; [by apply elem_of_nil in Hin|].
  apply NoDup_cons in Hnd as [Hy Hnd].
  destruct (decide (y = x)) as [->|Hne].
  - rewrite filter_cons_True by done. simpl. f_equal.
    rewrite filter_none; [done|]. intros z Hz ->. done.
  - rewrite filter_cons_False by done.
    apply elem_of_cons in Hin as [?|Hin]; [congruence|]. by apply IH.
Qed.

(** The node from which a node is reached is a node of the tree. *)
Lemma reachable_from_tree (lib : Lib) (opts : Options) (st : Store)
    (tree a : addr) :
  reachable lib opts st tree a -> is_Some (st !! a) -> is_Some (st !! tree).
Proof.
  induction 1 as [|a b e _ IH (node & t & Hnode & _) _ _
                  |a b node child _ IH Hnode _ _ _]; [done| |]; intros _;
    apply IH; eauto.
Qed.

Section Exec.

Variable lib : Lib.

(** *** What the builder throws *)

Lemma raises_lib {A : Type} (st : Store) (r : option A) :
  raises builderError (fun _ => True) (inState st (liftLib r)).
Proof.
  apply raises_inState; [|done]. intros e ->%liftLib_Throw. by right.
Qed.

Lemma raises_reading {A : Type} (st : Store) (r : result A) :
  typeErrorOnly r -> raises builderError (fun _ => True) (inState st r).
Proof.
  intros Hr. apply raises_inState; [|done]. intros e ->%Hr. by left.
Qed.

Lemma toSpdxItem_raises (st : Store) (it : item) (pt : option string) :
  raises builderError (fun _ => True) (toSpdxItem lib st it pt).
Proof.
  destruct it as [a|ph]; simpl; [|apply raises_Throw; [by left|done]].
  apply raises_bind; [apply raises_reading, typeErrorOnly_deref|].
  intros node _.
  destruct (normalizeData lib _) as [pkg|pkg];
    [|apply raises_Throw; [by right|done]].
  apply raises_bind; [apply raises_lib|]. intros purl _.
  case_match; [|apply raises_Ok].
  apply raises_bind; [apply raises_lib|]. intros [alg hex] _.
  apply raises_Ok.
Qed.

Lemma toSpdxItems_raises (st : Store) (l : list item) :
  raises builderError (fun _ => True) (toSpdxItems lib st l).
Proof.
  revert st. induction l as [|it l IH]; intros st; simpl.
  { apply raises_Ok. }
  apply raises_bind; [apply toSpdxItem_raises|].
  intros [p st1] _. apply raises_bind; [apply IH|].
  intros [ps st2] _. apply raises_Ok.
Qed.

Lemma spdxOutput_raises (env : Env) (st : Store) (nodes : list item)
    (pt : option string) :
  raises builderError (fun _ => True) (spdxOutput lib env st nodes pt).
Proof.
  unfold spdxOutput. apply raises_bind.
  { apply raises_reading, typeErrorOnly_findM. apply typeErrorOnly_isRoot. }
  intros rootNode _. apply raises_bind.
  { apply raises_reading, typeErrorOnly_filterM. intros it.
    apply typeErrorOnly_bind; [apply typeErrorOnly_isRoot|].
    intros b. apply typeErrorOnly_Ok. }
  intros childNodes _. apply raises_bind.
  { apply raises_reading.
    destruct rootNode as [[a|ph]|]; try apply typeErrorOnly_Throw.
    apply typeErrorOnly_deref. }
  intros root _. apply raises_bind; [apply raises_lib|].
  intros esc _. apply raises_bind.
  { apply raises_reading, typeErrorOnly_relationshipsFrom. }
  intros rels _. apply raises_bind.
  { destruct rootNode;
      [apply toSpdxItem_raises|apply raises_Throw; [by left|done]]. }
  intros [rootItem st1] _. apply raises_bind; [apply toSpdxItems_raises|].
  intros [childItems st2] _. apply raises_Ok.
Qed.

Lemma buildResponse_raises (opts : Options) (env : Env) (st : Store)
    (items : list item) :
  raises builderError (fun _ => True) (buildResponse lib opts env st items).
Proof.
  unfold buildResponse. case_match.
  - destruct (cyclonedxOutput lib env st items (packageType opts))
      as [[doc|] st']; [apply raises_Ok|apply raises_Throw; [by right|done]].
  - apply raises_bind; [apply spdxOutput_raises|].
    intros [doc st'] _. apply raises_Ok.
Qed.

(** What [buildResponse] returns when the format is not [cyclonedx]. *)
Lemma buildResponse_spdx (opts : Options) (env : Env) (st st' : Store)
    (items : list item) (resp : Response) :
  sbomFormat opts <> Some "cyclonedx" ->
  buildResponse lib opts env st items = Ok (resp, st') ->
  exists doc,
    resp = SpdxResponse doc
    /\ spdxOutput lib env st items (packageType opts) = Ok (doc, st').
Proof.
  intros Hfmt. unfold buildResponse.
  rewrite bool_decide_eq_false_2 by done.
  intros H. bind_inv H as r Hr. destruct r as [doc st1]. simplify_eq.
  by exists doc.
Qed.

Lemma buildResponse_storeOf (opts : Options) (env : Env) (st : Store)
    (items : list item) :
  sbomFormat opts <> Some "cyclonedx" ->
  storeOf (buildResponse lib opts env st items)
  = storeOf (spdxOutput lib env st items (packageType opts)).
Proof.
  intros Hfmt. unfold buildResponse.
  rewrite bool_decide_eq_false_2 by done.
  by destruct (spdxOutput lib env st items (packageType opts))
    as [[doc st']|[e s]].
Qed.

(** *** The steps of [exec] *)

Lemma loadTree_Throw (opts : Options) (e : exn) :
  loadTree lib opts = Throw e ->
  e = LibError
  \/ (packageLockOnly opts = true
      /\ e = EUSAGE (usageError lib
             "A package lock or shrinkwrap file is required in package-lock-only mode")).
Proof.
  unfold loadTree. destruct (newArborist lib) as [arb|]; simpl;
    [|intros [= <-]; by left].
  destruct (packageLockOnly opts).
  - destruct (loadVirtual arb); [discriminate|]. intros [= <-]. by right.
  - intros ->%liftLib_Throw. by left.
Qed.

(** [exec] after a walk that returned. *)
Lemma exec_after_walk (opts : Options) (env : Env) (fuel : nat) (st : Store)
    (tree : addr) (w : Walk) :
  truthy (sbomFormat opts) = true ->
  loadTree lib opts = Ok (st, tree) ->
  walk lib opts fuel st tree = Some (Ok w) ->
  exec lib opts env fuel
  = Some (match w_errors w with
          | [] => buildResponse lib opts env (w_store w) (builderInput w)
          | _ :: _ =>
              Throw (ESBOMPROBLEMS (join (EOL lib) (w_errors w)), w_store w)
          end).
Proof.
  intros Hfmt Hload Hwalk. unfold exec. rewrite Hfmt, Hload, Hwalk. simpl.
  by destruct (w_errors w).
Qed.

(** The ways in which [exec] comes to a result. *)
Lemma exec_Some (opts : Options) (env : Env) (fuel : nat)
    (r : effect Response) :
  exec lib opts env fuel = Some r ->
  (truthy (sbomFormat opts) = false
   /\ r = Throw (EUSAGE
            "Must specify --sbom-format flag with one of: cyclonedx, spdx.",
            []))
  \/ (truthy (sbomFormat opts) = true
      /\ exists e, loadTree lib opts = Throw e /\ r = Throw (e, []))
  \/ (truthy (sbomFormat opts) = true
      /\ exists st tree rw,
           loadTree lib opts = Ok (st, tree)
           /\ walk lib opts fuel st tree = Some rw
           /\ match rw with
              | Throw e => r = Throw e
              | Ok w =>
                  r = match w_errors w with
                      | [] =>
                          buildResponse lib opts env (w_store w)
                            (builderInput w)
                      | _ :: _ =>
                          Throw (ESBOMPROBLEMS (join (EOL lib) (w_errors w)),
                                 w_store w)
                      end
              end).
Proof.
  unfold exec. destruct (truthy (sbomFormat opts)); simpl;
    [|intros [= <-]; auto].
  destruct (loadTree lib opts) as [[st tree]|e] eqn:Hload;
    [|intros [= <-]; right; left; eauto].
  destruct (walk lib opts fuel st tree) as [rw|] eqn:Hwalk; [|discriminate].
  intros H. right. right. split; [done|]. exists st, tree, rw.
  split; [done|]. split; [done|].
  destruct rw as [w|e]; [|by simplify_eq].
  destruct (w_errors w); simpl in H; by simplify_eq.
Qed.

(** The document apart from what is read from the surroundings. *)
Lemma spdxOutput_env (env1 env2 : Env) (st st' : Store) (nodes : list item)
    (pt : option string) (d1 : SpdxDocument) :
  spdxOutput lib env1 st nodes pt = Ok (d1, st') ->
  exists d2,
    spdxOutput lib env2 st nodes pt = Ok (d2, st')
    /\ packages d2 = packages d1
    /\ relationships d2 = relationships d1
    /\ spdxVersion d2 = spdxVersion d1
    /\ dataLicense d2 = dataLicense d1
    /\ docSPDXID d2 = docSPDXID d1
    /\ docName d2 = docName d1
    /\ documentDescribes d2 = documentDescribes d1
    /\ (npmVersion env2 = npmVersion env1 -> creators d2 = creators d1).
Proof.
  intros (ra & root & childNodes & esc & rels & rootItem & st1 & childItems
          & Hfind & Hfilter & Hra & Hesc & Hrels & Hroot & Hchildren & ->)
    %spdxOutput_Ok.
  eexists. split.
  { unfold spdxOutput. rewrite Hfind. cbn [bind inState].
    rewrite Hfilter. cbn [bind inState].
    unfold deref. rewrite Hra. cbn [bind inState].
    rewrite Hesc. cbn [bind liftLib inState].
    rewrite Hrels. cbn [bind inState]. rewrite Hroot. cbn [bind].
    rewrite Hchildren. cbn [bind]. reflexivity. }
  simpl. repeat split. by intros ->.
Qed.

(** *** The claims about the run *)

(** C1, as the code has it.  Let the tree that was loaded have no dangling
    reference and tell its nodes apart by their paths, and let every edge
    from the project root lead to a node when workspaces are disabled.  Let
    a node that the walk can reach have an edge that passes the workspace
    filter, whose kind is not in the omit set, that is marked missing and is
    neither [optional] nor [peerOptional].  Then the run returns and fails
    with the aggregated failure, whose message holds the line of this
    dependency. *)
Theorem exec_missing_dependency_fails (opts : Options) (env : Env)
    (st : Store) (tree a : addr) (edge : Edge) (from : Node) :
  truthy (sbomFormat opts) = true ->
  loadTree lib opts = Ok (st, tree) ->
  wellFormed st -> workspacesSafe opts st -> pathsDistinct st ->
  reachable lib opts st tree a -> edgeOf st a edge ->
  filterBySelectedWorkspaces opts st edge = Ok true ->
  e_type edge ∉ omit opts ->
  e_missing edge = true ->
  e_type edge <> "optional" -> e_type edge <> "peerOptional" ->
  st !! e_from edge = Some from -> pkgid lib st from <> "" ->
  exists fuel msg st',
    (forall fuel', fuel <= fuel' ->
       exec lib opts env fuel' = Some (Throw (ESBOMPROBLEMS msg, st')))
    /\ contains msg
         ("missing: " +:+ (e_name edge +:+ "@" +:+ e_spec edge)
          +:+ ", required by " +:+ pkgid lib st from).
Proof.
  intros Hfmt Hload Hwf Hws Hpaths Hreach He Hfilter Homit Hmissing Hopt Hpeer
    Hfrom Hid.
  destruct (walk_returns lib opts st tree) as [r Hwalk].
  assert (is_Some (st !! tree)) as Htree.
  { eapply reachable_from_tree; [exact Hreach|].
    destruct He as (node & _ & Hnode & _). eauto. }
  destruct (walk_safe lib opts st tree _ r Hwf Hws Htree Hwalk) as [w ->].
  destruct (missing_line lib st edge from) as (ph & errs & Hit & Herrs & Hline);
    try done.
  assert (survives opts st edge) as Hs.
  { split; [done|]. unfold filterByEdgesTypes.
    by rewrite bool_decide_eq_false_2. }
  pose proof (walk_reports lib opts _ _ _ _ _ _ _ _ _ Hpaths Hwalk Hreach He
                Hs Hit Herrs Hline) as Hin.
  exists (2 + remaining st []), (join (EOL lib) (w_errors w)), (w_store w).
  split.
  - intros fuel' Hle.
    rewrite (exec_after_walk _ _ _ st tree w)
      by eauto using walk_more_fuel.
    destruct (w_errors w); [by apply elem_of_nil in Hin|done].
  - by apply join_contains.
Qed.

(** C2, as the code has it.  When the walk returns with a set of errors
    that is not empty, the run throws one failure, whose message is the
    lines of the set joined by the end of line, and builds no document.
    For every missing dependency that is neither [optional] nor
    [peerOptional] and sits on an edge, passing both filters, of a node that
    the walk can reach in a tree that tells its nodes apart by their paths,
    the message holds the identifier of the missing package and the
    identifier of the package that requires it. *)
Theorem exec_error_gate (opts : Options) (env : Env) (fuel : nat)
    (st : Store) (tree : addr) (w : Walk) :
  truthy (sbomFormat opts) = true ->
  loadTree lib opts = Ok (st, tree) ->
  walk lib opts fuel st tree = Some (Ok w) ->
  w_errors w <> [] ->
  exec lib opts env fuel
  = Some (Throw (ESBOMPROBLEMS (join (EOL lib) (w_errors w)), w_store w))
  /\ (forall a edge from,
        pathsDistinct st ->
        reachable lib opts st tree a -> edgeOf st a edge ->
        survives opts st edge ->
        e_missing edge = true ->
        e_type edge <> "optional" -> e_type edge <> "peerOptional" ->
        st !! e_from edge = Some from -> pkgid lib st from <> "" ->
        contains (join (EOL lib) (w_errors w))
                 (e_name edge +:+ "@" +:+ e_spec edge)
        /\ contains (join (EOL lib) (w_errors w)) (pkgid lib st from)).
Proof.
  intros Hfmt Hload Hwalk Herrors. split.
  - rewrite (exec_after_walk _ _ _ st tree w) by done.
    by destruct (w_errors w).
  - intros a edge from Hpaths Hreach He Hs Hmissing Hopt Hpeer Hfrom Hid.
    destruct (missing_line lib st edge from)
      as (ph & errs & Hit & Herrs & Hline); try done.
    pose proof (walk_reports lib opts _ _ _ _ _ _ _ _ _ Hpaths Hwalk Hreach
                  He Hs Hit Herrs Hline) as Hin.
    apply (join_contains (EOL lib)) in Hin. split.
    + eapply contains_trans; [exact Hin|].
      apply contains_app_r, contains_app_l, contains_refl.
    + eapply contains_trans; [exact Hin|].
      apply contains_app_r, contains_app_r, contains_app_r, contains_refl.
Qed.

(** C8.  The message of the aggregated failure is the error set of the walk
    joined by the end of line, and every line of that set is in it exactly
    once, however often the walk came across it. *)
Theorem exec_error_lines_once (opts : Options) (env : Env) (fuel : nat)
    (st' : Store) (msg : string) :
  exec lib opts env fuel = Some (Throw (ESBOMPROBLEMS msg, st')) ->
  exists st tree w,
    loadTree lib opts = Ok (st, tree)
    /\ walk lib opts fuel st tree = Some (Ok w)
    /\ msg = join (EOL lib) (w_errors w)
    /\ w_errors w <> []
    /\ (forall line,
          line ∈ w_errors w ->
          length (filter (fun l => l = line) (w_errors w)) = 1).
Proof.
  intros H.
  destruct (exec_Some _ _ _ _ H)
    as [[_ [=]]|[(_ & e & Hload & [= <- ->])
                |(Hfmt & st & tree & rw & Hload & Hwalk & Hr)]].
  { by destruct (loadTree_Throw _ _ Hload) as [?|[_ ?]]. }
  destruct rw as [w|[e s]].
  - exists st, tree, w. split; [done|]. split; [done|].
    destruct (w_errors w) as [|l ls] eqn:Herrs.
    + symmetry in Hr.
      by destruct (buildResponse_raises _ _ _ _ _ _ Hr) as [[?|?] _].
    + injection Hr as -> ->. split; [done|]. split; [done|].
      intros line Hline. apply count_NoDup; [|done]. rewrite <- Herrs.
      by apply walk_visited in Hwalk as (seen & (_ & Hnd & _) & _).
  - injection Hr as <- <-.
    destruct (walk_frame _ _ _ _ _ _ Hwalk) as [_ Hraises].
    by destruct (Hraises _ _ eq_refl) as [? _].
Qed.

(** C6.  A run that produces an SPDX document produces, from the same tree
    and options and with other values of the generated identifier and of
    the clock, a document with the same package records and the same
    relationship records in the same order; the two documents differ in
    the document namespace and the creation time only. *)
Theorem exec_deterministic (opts : Options) (env1 env2 : Env) (fuel : nat)
    (st' : Store) (d1 : SpdxDocument) :
  npmVersion env2 = npmVersion env1 ->
  exec lib opts env1 fuel = Some (Ok (SpdxResponse d1, st')) ->
  exists d2,
    exec lib opts env2 fuel = Some (Ok (SpdxResponse d2, st'))
    /\ packages d2 = packages d1
    /\ relationships d2 = relationships d1
    /\ spdxVersion d2 = spdxVersion d1
    /\ dataLicense d2 = dataLicense d1
    /\ docSPDXID d2 = docSPDXID d1
    /\ docName d2 = docName d1
    /\ documentDescribes d2 = documentDescribes d1
    /\ creators d2 = creators d1.
Proof.
  intros Hversion H.
  destruct (exec_Some _ _ _ _ H)
    as [[_ [=]]|[(_ & e & _ & [=])
                |(Hfmt & st & tree & rw & Hload & Hwalk & Hr)]].
  destruct rw as [w|e]; [|discriminate].
  setoid_rewrite (exec_after_walk _ _ _ st tree w); [|done..].
  destruct (w_errors w); [|discriminate].
  symmetry in Hr. unfold buildResponse in *. case_match.
  { destruct (cyclonedxOutput lib _ _ _ _) as [[doc|] s]; discriminate. }
  bind_inv Hr as r Hr'. destruct r as [d st1]. simplify_eq.
  destruct (spdxOutput_env env1 env2 _ _ _ _ _ Hr')
    as (d2 & -> & ? & ? & ? & ? & ? & ? & ? & Hcreators).
  exists d2. simpl. repeat split; auto.
Qed.

(** C4, as the code has it.  In every run that loads a tree, whether it
    returns or throws, the walk leaves every node as it was up to the
    invalid mark and the type mark (the missing mark is put on placeholders
    only), so that edges and package objects are as before.  After the
    walk, unless the CycloneDX builder is asked for, every node is left as
    it was up to its package object, and a package object that has changed
    is the one of a node that was handed to the SPDX builder, held by that
    node or, for a link, by its target. *)
Theorem exec_frame (opts : Options) (env : Env) (fuel : nat)
    (st : Store) (tree : addr) (r : effect Response) :
  truthy (sbomFormat opts) = true ->
  loadTree lib opts = Ok (st, tree) ->
  exec lib opts env fuel = Some r ->
  exists rw,
    walk lib opts fuel st tree = Some rw
    /\ frame st (walkStoreOf rw)
    /\ (sbomFormat opts <> Some "cyclonedx" ->
        Forall2 samePackageShape (walkStoreOf rw) (storeOf r)
        /\ (forall b n n',
              walkStoreOf rw !! b = Some n -> storeOf r !! b = Some n' ->
              n' <> n ->
              exists w,
                rw = Ok w /\ w_errors w = []
                /\ handedOver (w_store w) (builderInput w) b)).
Proof.
  intros Hfmt Hload H.
  destruct (exec_Some _ _ _ _ H)
    as [[Hfmt' _]|[(_ & e & Hload' & _)
                  |(_ & st0 & tree0 & rw & Hload' & Hwalk & Hr)]];
    [congruence|congruence|].
  rewrite Hload in Hload'. injection Hload' as <- <-.
  exists rw. split; [done|].
  split; [by apply walk_frame in Hwalk as [? _]|].
  intros Hspdx. destruct rw as [w|[e s]].
  - destruct (w_errors w) as [|l ls] eqn:Herrs.
    + subst r. rewrite buildResponse_storeOf by done.
      destruct (spdxOutput_writes lib env (w_store w) (builderInput w)
                  (packageType opts)) as [Hshape Hwrites].
      split; [done|]. intros b n n' Hb Hb' Hne. exists w.
      split; [done|]. split; [done|]. by eapply Hwrites.
    + subst r. simpl. split; [reflexivity|].
      intros b n n' Hb Hb' Hne. congruence.
  - subst r. simpl. split; [reflexivity|].
    intros b n n' Hb Hb' Hne. congruence.
Qed.

End Exec.

(** ** The claims on the sample data *)

Lemma prefix_app (s post : string) : String.prefix s (s +:+ post) = true.
Proof.
  induction s as [|x s IH]; [by destruct post|].
  rewrite append_cons. simpl. by destruct (ascii_dec x x).
Qed.

Lemma containsb_unfold (t s : string) :
  containsb t s
  = String.prefix s t
    || match t with
       | EmptyString => false
       | String _ r => containsb r s
       end.
Proof. by destruct t. Qed.

Lemma contains_containsb (t s : string) :
  contains t s -> containsb t s = true.
Proof.
  intros (pre & post & ->). induction pre as [|x pre IH].
  - by rewrite append_nil_l, containsb_unfold, prefix_app.
  - rewrite append_cons, containsb_unfold, IH. apply orb_true_r.
Qed.

Lemma edgeClosedb_sound (st : Store) (e : Edge) :
  edgeClosedb st e = true -> edgeClosed st e.
Proof.
  unfold edgeClosedb, edgeClosed.
  intros [Hfrom Hto]%andb_true_iff. apply bool_decide_eq_true in Hfrom.
  split; [done|]. destruct (e_to e).
  - by apply bool_decide_eq_true in Hto.
  - by apply orb_true_iff in Hto.
Qed.

Lemma wellFormedb_sound (st : Store) : wellFormedb st = true -> wellFormed st.
Proof.
  unfold wellFormedb. rewrite forallb_forall. intros Hall a n Ha.
  apply list_elem_of_lookup_2, list_elem_of_In, Hall in Ha.
  apply andb_true_iff in Ha as [[Ht Hc]%andb_true_iff He].
  apply bool_decide_eq_true in Ht. rewrite forallb_forall in Hc, He.
  split; [done|]. split.
  - intros c Hin%list_elem_of_In. by apply Hc, bool_decide_eq_true in Hin.
  - intros e Hin%list_elem_of_In. by apply edgeClosedb_sound, He.
Qed.

Lemma pathsDistinct_NoDup (st : Store) :
  NoDup (n_path <$> st) -> pathsDistinct st.
Proof.
  intros Hnd a b na nb Ha Hb Hpath.
  eapply (NoDup_lookup _ a b (n_path na)); [exact Hnd| |].
  - by rewrite list_lookup_fmap, Ha.
  - by rewrite list_lookup_fmap, Hb, Hpath.
Qed.

Lemma rootUnique_NoDup (st : Store) :
  length (filter (fun a => (n_isRoot <$> st !! a) = Some true)
                 (seq 0 (length st))) <= 1 ->
  rootUnique st.
Proof.
  intros Hlen a b na nb Ha Hb Hra Hrb.
  destruct (decide (a = b)) as [|Hne]; [done|]. exfalso.
  assert (forall c nc,
            st !! c = Some nc -> n_isRoot nc = true ->
            c ∈ filter (fun a => (n_isRoot <$> st !! a) = Some true)
                       (seq 0 (length st))) as Hin.
  { intros c nc Hc Hrc. apply list_elem_of_filter. split.
    - by rewrite Hc; simpl; rewrite Hrc.
    - apply elem_of_seq. apply lookup_lt_Some in Hc. lia. }
  pose proof (Hin a na Ha Hra) as Hina. pose proof (Hin b nb Hb Hrb) as Hinb.
  assert (NoDup (filter (fun a => (n_isRoot <$> st !! a) = Some true)
                        (seq 0 (length st)))) as Hnd
    by apply NoDup_filter, NoDup_seq.
  destruct (filter _ _) as [|x [|y l]]; simpl in Hlen; [|..|lia].
  - by apply elem_of_nil in Hina.
  - apply list_elem_of_singleton in Hina, Hinb. congruence.
Qed.

(** The stand-in for normalize-package-data keeps the identifiers of the
    packages whose version has no [v] in front. *)
Lemma sampleLib_normalised (st : Store) (tree : addr) (st' : Store) :
  Forall (fun n =>
            cleanVersion <$> pk_version (n_package n)
            = pk_version (n_package n)) st' ->
  normalised (sampleLib st tree) st'.
Proof.
  intros Hall.
  exists (fun p => cleanVersion <$> pk_version p = pk_version p). split.
  - intros a n Ha. rewrite Forall_forall in Hall.
    by eapply Hall, list_elem_of_lookup_2.
  - intros p p' Hp Hnorm. simpl in Hnorm. unfold sampleNormalize in Hnorm.
    injection Hnorm as <-. split; [simpl; by rewrite !Hp|]. split.
    + intros name root. simpl. unfold samplePkgid. simpl. by rewrite Hp.
    + simpl. by rewrite Hp.
Qed.

(** C1 as stated fails: the only dependency of [app@1.0.0] is a missing dev
    dependency; with [dev] omitted the run produces a document. *)
Lemma omitted_missing_dependency_passes :
  exists edge root doc st',
    loadTree (sampleLib storeMissingDev 0) (sampleOptions ["dev"])
    = Ok (storeMissingDev, 0)
    /\ storeMissingDev !! 0 = Some root /\ edge ∈ n_edgesOut root
    /\ e_to edge = None /\ e_missing edge = true /\ e_optional edge = false
    /\ e_type edge ∈ omit (sampleOptions ["dev"])
    /\ exec (sampleLib storeMissingDev 0) (sampleOptions ["dev"]) sampleEnv 10
       = Some (Ok (SpdxResponse doc, st')).
Proof.
  eexists (mkEdge 0 None "right" "^1.0.0" "dev"), _, _, _.
  split; [reflexivity|].
  split; [reflexivity|]. split; [apply elem_of_cons; by left|].
  split; [reflexivity|]. split; [reflexivity|]. split; [reflexivity|].
  split; [apply elem_of_cons; by left|]. vm_compute. reflexivity.
Qed.

Lemma pathsDistinct_storeExtraneousMissing :
  pathsDistinct storeExtraneousMissing.
Proof.
  intros a b na nb Ha Hb Hpath.
  destruct a as [|[|a]], b as [|[|b]]; simpl in Ha, Hb;
    try discriminate Ha; try discriminate Hb; try reflexivity;
    injection Ha as <-; injection Hb as <-; discriminate Hpath.
Qed.

Lemma exec_missing_dependency_fails_witness :
  exists fuel msg st',
    (forall fuel', fuel <= fuel' ->
       exec (sampleLib storeExtraneousMissing 0) (sampleOptions []) sampleEnv
         fuel'
       = Some (Throw (ESBOMPROBLEMS msg, st')))
    /\ contains msg "missing: foo@^1.0.0, required by stray@1.0.0".
Proof.
  apply (exec_missing_dependency_fails (sampleLib storeExtraneousMissing 0)
           (sampleOptions []) sampleEnv
           storeExtraneousMissing 0 1 (mkEdge 1 None "foo" "^1.0.0" "prod")
           (withChildren
              (mkNode "stray" "1.0.0" "node_modules/stray" false false 1
                 [ mkEdge 1 None "foo" "^1.0.0" "prod" ])
              [] true)).
  - reflexivity.
  - reflexivity.
  - apply wellFormedb_sound. vm_compute. reflexivity.
  - intros Hoff. vm_compute in Hoff. discriminate Hoff.
  - exact pathsDistinct_storeExtraneousMissing.
  - eapply (reachable_child _ _ _ _ 0 1).
    + constructor.
    + reflexivity.
    + apply elem_of_cons. by left.
    + reflexivity.
    + reflexivity.
  - eexists _, _. split; [reflexivity|]. split; [reflexivity|].
    apply elem_of_cons. by left.
  - reflexivity.
  - apply not_elem_of_nil.
  - reflexivity.
  - discriminate.
  - discriminate.
  - reflexivity.
  - vm_compute. discriminate.
Defined.

(** C2 as stated fails: [app@1.0.0] misses [foo] (prod) and [right] (dev);
    with [dev] omitted the run fails, and its message does not hold the
    identifier of the missing dev dependency. *)
Lemma omitted_missing_dependency_not_in_message :
  exists edge root msg st',
    loadTree (sampleLib storeMissingTwo 0) (sampleOptions ["dev"])
    = Ok (storeMissingTwo, 0)
    /\ storeMissingTwo !! 0 = Some root /\ edge ∈ n_edgesOut root
    /\ e_missing edge = true /\ e_optional edge = false
    /\ exec (sampleLib storeMissingTwo 0) (sampleOptions ["dev"]) sampleEnv 10
       = Some (Throw (ESBOMPROBLEMS msg, st'))
    /\ ~ contains msg (e_name edge +:+ "@" +:+ e_spec edge).
Proof.
  eexists (mkEdge 0 None "right" "^1.0.0" "dev"), _, _, _.
  split; [reflexivity|]. split; [reflexivity|].
  split; [apply elem_of_cons; right; apply elem_of_cons; by left|].
  split; [reflexivity|]. split; [reflexivity|].
  split; [vm_compute; reflexivity|].
  intros Hc%contains_containsb. vm_compute in Hc. discriminate.
Qed.

Lemma exec_error_gate_witness :
  exec (sampleLib storeMissingDev 0) (sampleOptions []) sampleEnv 10
  = Some (Throw (ESBOMPROBLEMS "missing: right@^1.0.0, required by app@1.0.0",
                 storeMissingDev))
  /\ contains "missing: right@^1.0.0, required by app@1.0.0" "right@^1.0.0"
  /\ contains "missing: right@^1.0.0, required by app@1.0.0" "app@1.0.0".
Proof.
  destruct (exec_error_gate (sampleLib storeMissingDev 0) (sampleOptions [])
              sampleEnv 10 storeMissingDev 0 walkMissingDev)
    as [Hexec Hmsg].
  - reflexivity.
  - reflexivity.
  - vm_compute. reflexivity.
  - discriminate.
  - split; [exact Hexec|].
    apply (Hmsg 0 (mkEdge 0 None "right" "^1.0.0" "dev")
             (mkNode "app" "1.0.0" "" true false 0
                [ mkEdge 0 None "right" "^1.0.0" "dev" ])).
    + apply pathsDistinct_NoDup. vm_compute. repeat constructor.
      intros Hin. by apply elem_of_nil in Hin.
    + constructor.
    + eexists _, _. split; [reflexivity|]. split; [reflexivity|].
      apply elem_of_cons. by left.
    + split; [reflexivity|]. reflexivity.
    + reflexivity.
    + discriminate.
    + discriminate.
    + reflexivity.
    + vm_compute. discriminate.
Defined.


Lemma normalised_storeResolved :
  normalised (sampleLib storeResolved 0) storeResolved.
Proof. apply sampleLib_normalised. by repeat constructor. Qed.



(** The condition on the root cannot be dropped either: of two nodes
    flagged as root only the first gets a package record, and the
    relationships of the edges from and to the second one refer to an
    identifier that no package record has. *)
Lemma spdxOutput_second_root_dangling :
  exists doc st' r,
    spdxOutput sampleLib0 sampleEnv storeTwoRoots [ArbNode 0; ArbNode 1] None
    = Ok (doc, st')
    /\ normalised sampleLib0 storeTwoRoots
    /\ SPDXID <$> packages doc = [ "SPDXRef-Package-app-1.0.0" ]
    /\ r ∈ relationships doc
    /\ relationshipType r = "DEPENDS_ON"
    /\ spdxElementId r = "SPDXRef-Package-other-1.0.0"
    /\ spdxElementId r ∉ SPDXID <$> packages doc.
Proof.
  eexists _, _,
    {| spdxElementId := "SPDXRef-Package-other-1.0.0";
       relatedSpdxElement := "SPDXRef-Package-app-1.0.0";
       relationshipType := "DEPENDS_ON" |}.
  split; [vm_compute; reflexivity|].
  split; [apply sampleLib_normalised; by repeat constructor|].
  split; [reflexivity|].
  split; [do 2 (apply elem_of_cons; right); apply elem_of_cons; by left|].
  split; [reflexivity|]. split; [reflexivity|].
  simpl. intros [Heq|Hin%elem_of_nil]%elem_of_cons; [discriminate Heq|done].
Qed.

(** C4 as stated fails: the builder hands the package object of a node to
    normalize-package-data, which rewrites it in place.  Here the builder
    is given the link to [left] and not the folder that the link points to;
    after the run the homepage in the package object held by the folder,
    which the link shares, has changed. *)
Lemma package_metadata_rewritten :
  exists doc st' w node node',
    exec (sampleLib storeLink 0) (sampleOptions []) sampleEnv 10
    = Some (Ok (SpdxResponse doc, st'))
    /\ walk (sampleLib storeLink 0) (sampleOptions []) 10 storeLink 0
       = Some (Ok w)
    /\ builderInput w = [ArbNode 0; ArbNode 1]
    /\ storeLink !! 2 = Some node /\ st' !! 2 = Some node'
    /\ pk_homepage (n_package node) = Some (Str "example.com")
    /\ pk_homepage (n_package node') = Some (Str "http://example.com").
Proof.
  eexists _, _, _, _, _. split; [vm_compute; reflexivity|].
  split; [vm_compute; reflexivity|].
  split; [reflexivity|]. split; [reflexivity|]. split; [reflexivity|].
  split; reflexivity.
Qed.

Lemma exec_frame_witness :
  exists r rw,
    exec (sampleLib storeLink 0) (sampleOptions []) sampleEnv 10 = Some r
    /\ walk (sampleLib storeLink 0) (sampleOptions []) 10 storeLink 0
       = Some rw
    /\ frame storeLink (walkStoreOf rw)
    /\ Forall2 samePackageShape (walkStoreOf rw) (storeOf r)
    /\ (forall b n n',
          walkStoreOf rw !! b = Some n -> storeOf r !! b = Some n' ->
          n' <> n ->
          exists w,
            rw = Ok w /\ w_errors w = []
            /\ handedOver (w_store w) (builderInput w) b).
Proof.
  destruct (exec (sampleLib storeLink 0) (sampleOptions []) sampleEnv 10)
    as [r|] eqn:Hrun; [|vm_compute in Hrun; discriminate Hrun].
  assert (sbomFormat (sampleOptions []) <> Some "cyclonedx") as Hspdx
    by discriminate.
  destruct (exec_frame (sampleLib storeLink 0) (sampleOptions []) sampleEnv 10
              storeLink 0 r eq_refl eq_refl Hrun)
    as (rw & Hwalk & Hframe & Hbuilder).
  exists r, rw. split; [reflexivity|]. split; [exact Hwalk|].
  split; [exact Hframe|exact (Hbuilder Hspdx)].
Defined.

Lemma exec_deterministic_witness :
  exists d1 d2 st',
    exec (sampleLib storeResolved 0) (sampleOptions []) sampleEnv 10
    = Some (Ok (SpdxResponse d1, st'))
    /\ exec (sampleLib storeResolved 0) (sampleOptions [])
         {| npmVersion := "10.2.0"; uuid := "u-2";
            now := "2024-01-01T00:00:00.000Z" |} 10
       = Some (Ok (SpdxResponse d2, st'))
    /\ packages d2 = packages d1
    /\ relationships d2 = relationships d1.
Proof.
  destruct (exec (sampleLib storeResolved 0) (sampleOptions []) sampleEnv 10)
    as [[[[d1|cdx] st']|e]|] eqn:Hrun;
    try (vm_compute in Hrun; discriminate Hrun).
  destruct (exec_deterministic (sampleLib storeResolved 0) (sampleOptions [])
              sampleEnv
              {| npmVersion := "10.2.0"; uuid := "u-2";
                 now := "2024-01-01T00:00:00.000Z" |} 10
              st' d1 eq_refl Hrun)
    as (d2 & Hrun2 & Hpackages & Hrelationships & _).
  exists d1, d2, st'. split; [reflexivity|]. split; [exact Hrun2|].
  split; [exact Hpackages|exact Hrelationships].
Defined.

Lemma toSpdxRelationship_type_witness :
  exists rel,
    toSpdxRelationship sampleLib0 storeResolved
      (mkNode "app" "1.0.0" "" true false 0 [])
      (mkEdge 0 (Some 1) "left" "^1.0.0" "dev") = Some rel
    /\ relationshipType rel = "DEV_DEPENDENCY_OF".
Proof.
  destruct (toSpdxRelationship sampleLib0 storeResolved
              (mkNode "app" "1.0.0" "" true false 0 [])
              (mkEdge 0 (Some 1) "left" "^1.0.0" "dev"))
    as [rel|] eqn:Hrel; [|vm_compute in Hrel; discriminate Hrel].
  destruct (toSpdxRelationship_type sampleLib0 storeResolved _ _ rel Hrel)
    as (_ & _ & Hdev & _).
  exists rel. split; [reflexivity|]. apply Hdev. reflexivity.
Defined.

Lemma exec_error_lines_once_witness :
  exists st',
    exec (sampleLib storeTwoPaths 0) (sampleOptions []) sampleEnv 20
    = Some (Throw (ESBOMPROBLEMS "missing: foo@^1.0.0, required by b@1.0.0",
                   st'))
    /\ exists st tree w,
         loadTree (sampleLib storeTwoPaths 0) (sampleOptions [])
         = Ok (st, tree)
         /\ walk (sampleLib storeTwoPaths 0) (sampleOptions []) 20 st tree
            = Some (Ok w)
         /\ "missing: foo@^1.0.0, required by b@1.0.0"
            = join (EOL (sampleLib storeTwoPaths 0)) (w_errors w)
         /\ w_errors w <> []
         /\ (forall line,
               line ∈ w_errors w ->
               length (filter (fun l => l = line) (w_errors w)) = 1).
Proof.
  destruct (exec (sampleLib storeTwoPaths 0) (sampleOptions []) sampleEnv 20)
    as [[ok|[e s]]|] eqn:Hrun; try (vm_compute in Hrun; discriminate Hrun).
  assert (e = ESBOMPROBLEMS "missing: foo@^1.0.0, required by b@1.0.0")
    as -> by (vm_compute in Hrun; congruence).
  exists s. split; [reflexivity|].
  exact (exec_error_lines_once (sampleLib storeTwoPaths 0) (sampleOptions [])
           sampleEnv 20 s _ Hrun).
Defined.

Lemma toSpdxItem_link_downloadLocation_witness :
  exists p st',
    n_isLink (mkNode "left" "1.0.0" "node_modules/left" false true 2 []) = true
    /\ n_resolved (mkNode "left" "1.0.0" "node_modules/left" false true 2 [])
       = Some "https://registry.npmjs.org/left"
    /\ toSpdxItem sampleLib0 storeLink (ArbNode 1) None = Ok (p, st')
    /\ downloadLocation p = "NOASSERTION".
Proof.
  destruct (toSpdxItem sampleLib0 storeLink (ArbNode 1) None)
    as [[p st']|e] eqn:Hrun; [|vm_compute in Hrun; discriminate Hrun].
  exists p, st'. split; [reflexivity|]. split; [reflexivity|].
  split; [reflexivity|].
  apply (toSpdxItem_link_downloadLocation sampleLib0 storeLink st' 1
           (mkNode "left" "1.0.0" "node_modules/left" false true 2 []) None p);
    [reflexivity|reflexivity|exact Hrun].
Defined.

Lemma spdxOutput_packageType_on_root_only_witness :
  exists doc st' ra root rootItem childItems,
    spdxOutput sampleLib0 sampleEnv storeResolved [ArbNode 0; ArbNode 1]
      (Some "application") = Ok (doc, st')
    /\ findM (isRoot storeResolved) [ArbNode 0; ArbNode 1]
       = Ok (Some (ArbNode ra))
    /\ storeResolved !! ra = Some root
    /\ packages doc = rootItem :: childItems
    /\ recordOf root rootItem
    /\ (truthy (Some "application") = true ->
        primaryPackagePurpose rootItem = Some "APPLICATION")
    /\ (forall p,
          p ∈ childItems ->
          primaryPackagePurpose p = None
          /\ exists a n,
               ArbNode a ∈ [ArbNode 0; ArbNode 1]
               /\ storeResolved !! a = Some n /\ n_isRoot n = false
               /\ recordOf n p).
Proof.
  destruct (spdxOutput sampleLib0 sampleEnv storeResolved
              [ArbNode 0; ArbNode 1] (Some "application"))
    as [[doc st']|e] eqn:Hrun; [|vm_compute in Hrun; discriminate Hrun].
  destruct (spdxOutput_packageType_on_root_only sampleLib0 sampleEnv
              storeResolved st' [ArbNode 0; ArbNode 1] (Some "application")
              doc Hrun)
    as (ra & root & rootItem & childItems & Hrest).
  exists doc, st', ra, root, rootItem, childItems.
  split; [reflexivity|exact Hrest].
Defined.

(** * Further properties of the two files *)

(** ** Identifiers and package records *)

Lemma hasChar_app (c : ascii) (a b : string) :
  hasChar c (a +:+ b) = hasChar c a || hasChar c b.
Proof.
  induction a as [|x a IH]; [done|].
  rewrite append_cons. simpl. by rewrite IH, orb_assoc.
Qed.

Lemma hasChar_replaceAll (c d e : ascii) (s : string) :
  e <> d -> hasChar e s = false -> hasChar e (replaceAll c d s) = false.
Proof.
  intros Hne. induction s as [|x s IH]; simpl; [done|].
  intros [Hx Hs]%orb_false_iff. rewrite IH by done.
  destruct (Ascii.eqb_spec x c); [|by rewrite Hx].
  assert (Ascii.eqb d e = false) as -> by (apply Ascii.eqb_neq; congruence).
  done.
Qed.

Lemma hasChar_replaced (c d : ascii) (s : string) :
  c <> d -> hasChar c (replaceAll c d s) = false.
Proof.
  intros Hne. induction s as [|x s IH]; [done|]. simpl. rewrite IH.
  destruct (Ascii.eqb_spec x c) as [->|Hx].
  - assert (Ascii.eqb d c = false) as -> by (apply Ascii.eqb_neq; congruence).
    done.
  - by apply Ascii.eqb_neq in Hx as ->.
Qed.

(** An SPDX identifier made by [toSpdxID] starts with [SPDXRef-Package-] and
    holds neither a slash nor an at-sign, whatever the package identifier
    is. *)
Theorem toSpdxID_safe_characters (id : string) :
  String.prefix "SPDXRef-Package-" (toSpdxID id) = true
  /\ hasChar "/" (toSpdxID id) = false
  /\ hasChar "@" (toSpdxID id) = false.
Proof.
  rewrite toSpdxID_unfold. split; [apply prefix_app|].
  rewrite !hasChar_app. split.
  - rewrite hasChar_replaceAll; [done|done|]. by apply hasChar_replaced.
  - by rewrite hasChar_replaced.
Qed.

Lemma orElse_nonempty (v : option string) (d : string) :
  d <> "" -> orElse v d <> "".
Proof.
  intros Hd. unfold orElse. destruct v as [s|]; [|done].
  destruct (String.eqb_spec s ""); done.
Qed.

Lemma orElseValue_nonempty (v : option value) (d : string) :
  d <> "" -> orElseValue v d <> Str "".
Proof.
  intros Hd. unfold orElseValue. destruct v as [[s|o]|]; [|done|congruence].
  destruct (String.eqb_spec s ""); congruence.
Qed.

Lemma orUndefinedValue_nonempty (v : option value) :
  orUndefinedValue v <> Some (Str "").
Proof.
  unfold orUndefinedValue, truthyValue. destruct v as [[s|o]|]; [|done..].
  destruct (String.eqb_spec s ""); simpl; congruence.
Qed.

Section Records.

Variable lib : Lib.

(** The fields of a returned package record that stand for data that may be
    absent. *)
Lemma toSpdxItem_sentinels (st st' : Store) (it : item) (pt : option string)
    (p : SpdxPackage) :
  toSpdxItem lib st it pt = Ok (p, st') ->
  exists node pkg,
    description p = orUndefinedValue (pk_description pkg)
    /\ downloadLocation p
       = orElse (if n_isLink node then None else n_resolved node) "NOASSERTION"
    /\ homePage p = orElseValue (pk_homepage pkg) "NOASSERTION"
    /\ licenseDeclared p = orElseValue (pk_license pkg) "NOASSERTION"
    /\ filesAnalyzed p = false.
Proof.
  destruct it as [a|ph]; simpl; [|discriminate].
  intros H. bind_inv H as node Hnode.
  destruct (normalizeData lib (packageOf st node)) as [pkg|pkg];
    [|discriminate].
  bind_inv H as purl Hpurl. exists node, pkg.
  destruct (truthy (n_integrity _)).
  - bind_inv H as sum Hsum. destruct sum as [alg hex]. by simplify_eq.
  - by simplify_eq.
Qed.

(** No package record has an empty string where the document expects a
    location, a home page or a license, nor an empty description: data that
    is absent or empty is replaced by [NOASSERTION] (or, for the
    description, left out), and a value that is not a string, such as a
    license given as an object, is copied as it is; [filesAnalyzed] is
    always false. *)
Theorem toSpdxItem_no_empty_field (st st' : Store) (it : item)
    (pt : option string) (p : SpdxPackage) :
  toSpdxItem lib st it pt = Ok (p, st') ->
  downloadLocation p <> ""
  /\ homePage p <> Str "" /\ licenseDeclared p <> Str ""
  /\ description p <> Some (Str "") /\ filesAnalyzed p = false.
Proof.
  intros (node & pkg & -> & -> & -> & -> & ->)%toSpdxItem_sentinels.
  split; [by apply orElse_nonempty|].
  split; [by apply orElseValue_nonempty|].
  split; [by apply orElseValue_nonempty|].
  split; [apply orUndefinedValue_nonempty|done].
Qed.

End Records.

(** ** The document *)

Lemma filterM_Ok_filter {A : Type} (f : A -> result bool) (l l' : list A) :
  filterM f l = Ok l' -> l' = filter (fun x => f x = Ok true) l.
Proof.
  revert l'. induction l as [|x l IH]; intros l' H; simpl in H.
  { by simplify_eq. }
  bind_inv H as b Hb. bind_inv H as r Hr. simplify_eq.
  rewrite (IH _ Hr). destruct b.
  - by rewrite filter_cons_True.
  - rewrite filter_cons_False; [done|]. by rewrite Hb.
Qed.

Lemma relationshipsFrom_Ok_nodes (lib : Lib) (st : Store)
    (nodes rest : list item) (rels : list Relationship) :
  relationshipsFrom lib st nodes rest = Ok rels ->
  forall it, it ∈ rest -> exists a n, it = ArbNode a /\ st !! a = Some n.
Proof.
  revert rels. induction rest as [|x rest IH]; intros rels H it Hit.
  { by apply elem_of_nil in Hit. }
  simpl in H. bind_inv H as here Hhere. bind_inv H as more Hmore.
  apply elem_of_cons in Hit as [->|Hit]; [|by eapply IH].
  destruct x as [a|ph]; [|discriminate]. simpl in Hhere.
  bind_inv Hhere as node Hnode. apply deref_Ok in Hnode. eauto.
Qed.

Section Documents.

Variable lib : Lib.

(** The builder returns a document only for a list that holds a node
    flagged as root and nothing but Arborist nodes: without a root, or with
    a placeholder in the list, it throws.  The document is named after the
    first root of the list. *)
Theorem spdxOutput_needs_root_and_nodes (env : Env) (st st' : Store)
    (nodes : list item) (pt : option string) (doc : SpdxDocument) :
  spdxOutput lib env st nodes pt = Ok (doc, st') ->
  (exists a root,
     ArbNode a ∈ nodes /\ st !! a = Some root /\ n_isRoot root = true
     /\ docName doc = pkgid lib st root)
  /\ (forall it, it ∈ nodes -> exists a n, it = ArbNode a /\ st !! a = Some n).
Proof.
  intros (ra & root & childNodes & esc & rels & rootItem & st1 & childItems
          & Hfind & _ & Hra & _ & Hrels & _ & _ & ->)%spdxOutput_Ok.
  split; [|by eapply relationshipsFrom_Ok_nodes].
  apply findM_Ok_Some in Hfind as [Hin Hroot].
  exists ra, root. simpl in *. unfold deref in Hroot. rewrite Hra in Hroot.
  simpl in Hroot. by simplify_eq.
Qed.

Lemma spdxids_of_items (st : Store) (l : list item) (ps : list SpdxPackage) :
  Forall2 (fun it p =>
             exists id, pkgidOf lib st it = Some id
                        /\ SPDXID p = toSpdxID id) l ps ->
  SPDXID <$> ps = omap (fun it => toSpdxID <$> pkgidOf lib st it) l.
Proof.
  induction 1 as [|it p l ps (id & Hid & Hp) _ IH]; [done|].
  simpl. rewrite Hid. simpl. f_equal; [done|exact IH].
Qed.

Lemma childNodes_filter (st : Store) (nodes childNodes : list item) :
  filterM (fun node => let* b := isRoot st node in Ok (negb b)) nodes
  = Ok childNodes ->
  childNodes = filter (fun it => isRoot st it = Ok false) nodes.
Proof.
  intros ->%filterM_Ok_filter. apply list_filter_iff. intros it.
  destruct (isRoot st it) as [[|]|e]; simpl; split; congruence.
Qed.

(** The package records of a document follow the node list: first the
    record of the root, then one record for every node that is not flagged
    as root, in the order of the list, each with the name and the location
    of its node.  When the package objects of the tree are normalised as
    far as identifiers go, the records carry the SPDX identifiers of the
    package identifiers of these nodes, the first being the one that the
    document describes. *)
Theorem spdxOutput_package_order (env : Env) (st st' : Store)
    (nodes : list item) (pt : option string) (doc : SpdxDocument) :
  spdxOutput lib env st nodes pt = Ok (doc, st') ->
  exists ra,
    findM (isRoot st) nodes = Ok (Some (ArbNode ra))
    /\ Forall2 (fun it p =>
                  exists a n,
                    it = ArbNode a /\ st !! a = Some n /\ recordOf n p)
               (ArbNode ra
                  :: filter (fun it => isRoot st it = Ok false) nodes)
               (packages doc)
    /\ length (packages doc)
       = S (length (filter (fun it => isRoot st it = Ok false) nodes))
    /\ (normalised lib st ->
        SPDXID <$> packages doc
        = documentDescribes doc
          ++ omap (fun it => toSpdxID <$> pkgidOf lib st it)
                  (filter (fun it => isRoot st it = Ok false) nodes)).
Proof.
  intros H. pose proof H as Hdoc.
  apply spdxOutput_Ok in H
    as (ra & root & childNodes & esc & rels & rootItem & st1 & childItems
        & Hfind & Hfilter & Hra & _ & _ & Hroot & Hchildren & ->).
  exists ra. split; [done|].
  pose proof (childNodes_filter _ _ _ Hfilter) as Hchild.
  cbn [packages documentDescribes]. rewrite <- Hchild.
  pose proof Hroot as Hroot'.
  apply toSpdxItem_Ok in Hroot
    as (a & node & pkg & [= <-] & Ha & _ & -> & Hrec & _).
  rewrite Hra in Ha. injection Ha as <-.
  pose proof (setPackageOf_shape st ra root pkg Hra) as Hshape.
  pose proof Hchildren as [_ Hall]%toSpdxItems_Ok.
  split; [|split].
  - constructor; [by exists ra, root|].
    eapply Forall2_impl; [exact Hall|]. simpl.
    intros it p (b & n' & -> & Hb' & [Hname Hfile] & _).
    destruct (Forall2_lookup_r _ _ _ _ _ Hshape Hb') as (n & Hb & Hn).
    apply samePackageShape_fields in Hn as (Hn1 & Hn2 & _).
    exists b, n. split; [done|]. split; [done|]. split; congruence.
  - cbn [length]. f_equal. symmetry. by eapply Forall2_length.
  - intros (clean & Hclean & Hnorm).
    destruct (spdxOutput_normal lib clean Hnorm _ _ _ _ _ _ Hclean Hdoc)
      as (ra' & root' & childNodes' & rootItem' & childItems'
          & Hfind' & Hfilter' & Hra' & Hpackages & Hid & Hids).
    simpl in Hpackages. injection Hpackages as <- <-.
    rewrite Hfind in Hfind'. injection Hfind' as <-.
    rewrite Hfilter in Hfilter'. injection Hfilter' as <-.
    rewrite Hra in Hra'. injection Hra' as <-.
    rewrite fmap_cons, Hid. cbn [app]. f_equal.
    by apply spdxids_of_items.
Qed.

End Documents.

(** ** The marks of the walk and the document *)

Lemma sameShape_data (n n' : Node) :
  sameShape n n' ->
  n_name n' = n_name n /\ n_location n' = n_location n
  /\ n_resolved n' = n_resolved n /\ n_integrity n' = n_integrity n
  /\ n_isRoot n' = n_isRoot n /\ n_isLink n' = n_isLink n
  /\ n_isProjectRoot n' = n_isProjectRoot n.
Proof. unfold sameShape. intros ->. by destruct n. Qed.

Lemma findM_ext {A : Type} (f g : A -> result bool) (l : list A) :
  (forall x, f x = g x) -> findM f l = findM g l.
Proof.
  intros Hfg. induction l as [|x l IH]; simpl; [done|]. by rewrite Hfg, IH.
Qed.

Lemma filterM_ext {A : Type} (f g : A -> result bool) (l : list A) :
  (forall x, f x = g x) -> filterM f l = filterM g l.
Proof.
  intros Hfg. induction l as [|x l IH]; simpl; [done|]. by rewrite Hfg, IH.
Qed.

Lemma isRoot_frame (st st' : Store) (it : item) :
  frame st st' -> isRoot st' it = isRoot st it.
Proof.
  intros Hframe. destruct it as [a|ph]; [|done]. unfold isRoot, deref.
  frame_at Hframe a n n' Hn Hn' Hsh; simpl; [|done].
  by destruct (sameShape_data _ _ Hsh) as (_ & _ & _ & _ & -> & _).
Qed.

Lemma pkgidOf_frame (lib : Lib) (st st' : Store) (it : item) :
  frame st st' -> pkgidOf lib st' it = pkgidOf lib st it.
Proof.
  intros Hframe. destruct it as [a|ph]; [|done]. unfold pkgidOf.
  frame_at Hframe a n n' Hn Hn' Hsh; simpl; [|done].
  by rewrite (pkgid_frame lib _ _ _ _ _ Hframe Hn Hn').
Qed.

Lemma linksIntoList_frame (lib : Lib) (st st' : Store) (nodes : list item)
    (edge : Edge) :
  frame st st' ->
  linksIntoList lib st' nodes edge = linksIntoList lib st nodes edge.
Proof.
  intros Hframe. unfold linksIntoList.
  destruct (e_to edge) as [b|]; simpl; [|done].
  frame_at Hframe b to to' Hto Hto' Hsh; simpl; [|done].
  rewrite (pkgid_frame lib _ _ _ _ _ Hframe Hto Hto').
  induction nodes as [|n nodes IH]; simpl; [done|].
  by rewrite IH, (pkgidOf_frame _ _ _ _ Hframe).
Qed.

Lemma toSpdxRelationship_frame (lib : Lib) (st st' : Store) (a : addr)
    (node node' : Node) (edge : Edge) :
  frame st st' -> st !! a = Some node -> st' !! a = Some node' ->
  toSpdxRelationship lib st' node' edge = toSpdxRelationship lib st node edge.
Proof.
  intros Hframe Hnode Hnode'. unfold toSpdxRelationship.
  rewrite (pkgid_frame lib _ _ _ _ _ Hframe Hnode Hnode').
  destruct (e_to edge) as [b|]; simpl; [|done].
  frame_at Hframe b to to' Hto Hto' Hsh; simpl; [|done].
  by rewrite (pkgid_frame lib _ _ _ _ _ Hframe Hto Hto').
Qed.

Lemma omap_same {A B : Type} (f g : A -> option B) (l : list A) :
  (forall x, f x = g x) -> omap f l = omap g l.
Proof.
  intros Hfg. induction l as [|x l IH]; [done|].
  change (omap f (x :: l)) with (match f x with
                                 | Some y => y :: omap f l
                                 | None => omap f l
                                 end).
  change (omap g (x :: l)) with (match g x with
                                 | Some y => y :: omap g l
                                 | None => omap g l
                                 end).
  by rewrite Hfg, IH.
Qed.

Lemma relationshipsFrom_frame (lib : Lib) (st st' : Store)
    (nodes rest : list item) :
  frame st st' ->
  relationshipsFrom lib st' nodes rest = relationshipsFrom lib st nodes rest.
Proof.
  intros Hframe. induction rest as [|it rest IH]; simpl; [done|].
  rewrite IH. f_equal. destruct it as [a|ph]; [|done].
  unfold relationshipsOf, deref.
  frame_at Hframe a n n' Hn Hn' Hsh; cbn [bind]; [|done].
  destruct (sameShape_fields _ _ Hsh) as (_ & _ & _ & -> & _).
  f_equal. rewrite (list_filter_iff _ (fun edge =>
                      linksIntoList lib st nodes edge = true)).
  - apply omap_same. intros e. by eapply toSpdxRelationship_frame.
  - intros e. by rewrite (linksIntoList_frame _ _ _ _ _ Hframe).
Qed.

Lemma setPackageOf_frame (st st' : Store) (a : addr) (n n' : Node)
    (pkg : Package) :
  frame st st' -> st !! a = Some n -> st' !! a = Some n' ->
  frame (setPackageOf st a n pkg) (setPackageOf st' a n' pkg).
Proof.
  intros Hframe Ha Ha'. rewrite !setPackageOf_alter by done.
  rewrite (packageAddr_frame _ _ _ _ _ Hframe Ha Ha').
  apply Forall2_alter; [done|]. intros x y _ _ Hxy.
  unfold sameShape in *. rewrite Hxy. by destruct x.
Qed.

Section Marks.

Variable lib : Lib.

Lemma toSpdxItem_marks (st st' s' : Store) (it : item) (pt : option string)
    (p : SpdxPackage) :
  frame st st' ->
  toSpdxItem lib st' it pt = Ok (p, s') ->
  exists s, toSpdxItem lib st it pt = Ok (p, s) /\ frame s s'.
Proof.
  intros Hframe H. destruct it as [a|ph]; [|discriminate].
  unfold toSpdxItem in *.
  destruct (deref st' a) as [n'|] eqn:Hn'; [|discriminate].
  apply deref_Ok in Hn'.
  destruct (Forall2_lookup_r _ _ _ _ _ Hframe Hn') as (n & Hn & Hsh).
  rewrite (proj2 (deref_Ok _ _ _) Hn). cbn [bind inState] in *.
  rewrite (packageOf_frame _ _ _ _ _ Hframe Hn Hn') in H.
  destruct (normalizeData lib (packageOf st n)) as [pkg|pkg]; [|discriminate].
  pose proof (setPackageOf_frame _ _ a n n' pkg Hframe Hn Hn') as Hf.
  destruct (sameShape_data _ _ Hsh)
    as (Hname & Hloc & Hres & Hint & _ & Hlink & Hroot).
  assert (isGitNode lib n' = isGitNode lib n) as Hgit.
  { unfold isGitNode. by rewrite Hres. }
  rewrite Hgit, Hname, Hloc, Hres, Hint, Hlink, Hroot in H.
  destruct (npaToPurl lib _) as [purl|]; [|discriminate].
  cbn [bind inState liftLib] in *.
  destruct (truthy (n_integrity n)).
  - destruct (ssriParse lib (interp (n_integrity n))) as [[alg hex]|];
      [|discriminate].
    cbn [bind inState liftLib] in *. injection H as <- <-.
    eexists. split; [done|done].
  - injection H as <- <-. eexists. split; [done|done].
Qed.

Lemma toSpdxItems_marks (st st' s' : Store) (l : list item)
    (ps : list SpdxPackage) :
  frame st st' ->
  toSpdxItems lib st' l = Ok (ps, s') ->
  exists s, toSpdxItems lib st l = Ok (ps, s) /\ frame s s'.
Proof.
  revert st st' ps. induction l as [|it l IH]; intros st st' ps Hframe H.
  { simpl in *. simplify_eq. eauto. }
  simpl in H. bind_inv H as r1 Hr1. destruct r1 as [p st1'].
  bind_inv H as r2 Hr2. destruct r2 as [ps' st2']. simplify_eq.
  destruct (toSpdxItem_marks _ _ _ _ _ _ Hframe Hr1) as (st1 & Hp & Hf1).
  destruct (IH _ _ _ Hf1 Hr2) as (st2 & Hps & Hf2).
  exists st2. split; [|done]. simpl. rewrite Hp. simpl. by rewrite Hps.
Qed.

Lemma spdxOutput_marks (env : Env) (st st' s' : Store) (nodes : list item)
    (pt : option string) (doc : SpdxDocument) :
  frame st st' ->
  spdxOutput lib env st' nodes pt = Ok (doc, s') ->
  exists s, spdxOutput lib env st nodes pt = Ok (doc, s) /\ frame s s'.
Proof.
  intros Hframe
    (ra & root' & childNodes & esc & rels & rootItem & st1' & childItems
     & Hfind & Hfilter & Hra & Hesc & Hrels & Hroot & Hchildren & ->)
    %spdxOutput_Ok.
  destruct (toSpdxItem_marks _ _ _ _ _ _ Hframe Hroot) as (st1 & Hroot1 & Hf1).
  destruct (toSpdxItems_marks _ _ _ _ _ Hf1 Hchildren) as (s & Hitems & Hf2).
  rewrite (findM_ext _ (isRoot st)) in Hfind
    by (intros; by apply isRoot_frame).
  rewrite (filterM_ext _ (fun node => let* b := isRoot st node in Ok (negb b)))
    in Hfilter by (intros; by rewrite (isRoot_frame _ _ _ Hframe)).
  rewrite (relationshipsFrom_frame _ _ _ _ _ Hframe) in Hrels.
  destruct (Forall2_lookup_r _ _ _ _ _ Hframe Hra) as (root & Hroot0 & Hsh).
  pose proof (pkgid_frame lib _ _ _ _ _ Hframe Hroot0 Hra) as Hid.
  pose proof (version_frame lib _ _ _ _ _ Hframe Hroot0 Hra) as Hver.
  exists s. split; [|done].
  unfold spdxOutput. rewrite Hfind. cbn [bind inState].
  rewrite Hfilter. cbn [bind inState].
  unfold deref. rewrite Hroot0. cbn [bind inState]. rewrite <- Hid, Hesc.
  cbn [bind liftLib inState]. rewrite Hrels. cbn [bind inState].
  rewrite Hroot1. cbn [bind].
  rewrite Hitems. cbn [bind]. by rewrite Hver.
Qed.

(** The marks that the walk leaves on the nodes do not reach the document:
    the document that a run produces is the one that the builder makes of
    the visited nodes in the tree as it was loaded. *)
Theorem exec_document_from_loaded_tree (opts : Options) (env : Env)
    (fuel : nat) (st' : Store) (doc : SpdxDocument) :
  exec lib opts env fuel = Some (Ok (SpdxResponse doc, st')) ->
  exists st tree w s,
    loadTree lib opts = Ok (st, tree)
    /\ walk lib opts fuel st tree = Some (Ok w)
    /\ spdxOutput lib env st (builderInput w) (packageType opts) = Ok (doc, s)
    /\ frame s st'.
Proof.
  intros H.
  destruct (exec_Some _ _ _ _ _ H)
    as [[_ [=]]|[(_ & e & _ & [=])
                |(Hfmt & st & tree & rw & Hload & Hwalk & Hr)]].
  destruct rw as [w|e]; [|discriminate].
  destruct (w_errors w); [|discriminate].
  symmetry in Hr. unfold buildResponse in Hr. case_match.
  { destruct (cyclonedxOutput lib _ _ _ _) as [[d|] s]; discriminate. }
  bind_inv Hr as r Hr'. destruct r as [d st1]. simplify_eq.
  pose proof Hwalk as [Hframe _]%walk_frame.
  destruct (spdxOutput_marks _ _ _ _ _ _ _ Hframe Hr') as (s & Hs & Hf).
  exists st, tree, w, s. eauto.
Qed.

End Marks.

(** ** The workspace filter *)

(** The workspace filter only ever drops edges that start at the project
    root: an edge from any other node passes, whatever the workspace
    options are and whether or not the edge is resolved. *)
Theorem filterBySelectedWorkspaces_below_root (opts : Options) (st : Store)
    (edge : Edge) (from : Node) :
  st !! e_from edge = Some from -> n_isProjectRoot from = false ->
  filterBySelectedWorkspaces opts st edge = Ok true.
Proof.
  intros Hfrom Hroot. unfold filterBySelectedWorkspaces, deref.
  rewrite Hfrom. simpl. rewrite Hroot.
  destruct (workspacesEnabled opts); simpl;
    by destruct (wsNodes opts) as [[|? ?]|].
Qed.

Lemma filterM_Throw {A : Type} (f : A -> result bool) (l : list A) (x : A) :
  (forall y, typeErrorOnly (f y)) -> x ∈ l -> f x = Throw TypeError ->
  filterM f l = Throw TypeError.
Proof.
  intros Hf Hx Hthrow. induction l as [|y l IH].
  { by apply elem_of_nil in Hx. }
  simpl. destruct (f y) as [b|e] eqn:Hy.
  - apply elem_of_cons in Hx as [->|Hx]; [congruence|].
    simpl. by rewrite (IH Hx).
  - simpl. by rewrite (Hf _ _ Hy).
Qed.

Section Failures.

Variable lib : Lib.

(** With workspaces disabled, an edge of the project root that has no
    target stops the run with a [TypeError]: the workspace filter reads
    [edge.to.isWorkspace] before anything looks at the missing flag, so
    neither a document nor the aggregated failure is produced. *)
Theorem exec_workspaces_disabled_unresolved_edge (opts : Options) (env : Env)
    (st : Store) (tree : addr) (node target from : Node) (edge : Edge)
    (fuel : nat) :
  truthy (sbomFormat opts) = true ->
  loadTree lib opts = Ok (st, tree) ->
  workspacesEnabled opts = false ->
  st !! tree = Some node -> st !! n_target node = Some target ->
  edge ∈ n_edgesOut target ->
  st !! e_from edge = Some from -> n_isProjectRoot from = true ->
  e_to edge = None ->
  exec lib opts env (S fuel) = Some (Throw (TypeError, st)).
Proof.
  intros Hfmt Hload Hws Hnode Htarget Hedge Hfrom Hroot Hto.
  unfold exec, walk. rewrite Hfmt, Hload. simpl.
  unfold visit, findErrors, deref. simpl. rewrite Hnode. simpl.
  rewrite Hnode. simpl. rewrite Htarget. simpl.
  rewrite (filterM_Throw _ _ edge); [done| |done|].
  - apply typeErrorOnly_filterBySelectedWorkspaces.
  - unfold filterBySelectedWorkspaces, deref.
    by rewrite Hws, Hfrom, Hto; simpl; rewrite Hroot.
Qed.

(** The run ends on every tree, cyclic ones included: there is an amount of
    fuel from which on [exec] returns one and the same result. *)
Theorem exec_terminates (opts : Options) (env : Env) :
  exists fuel r,
    forall fuel', fuel <= fuel' -> exec lib opts env fuel' = Some r.
Proof.
  unfold exec. destruct (negb (truthy (sbomFormat opts))); [by exists 0; eauto|].
  destruct (loadTree lib opts) as [[st tree]|e]; [|by exists 0; eauto].
  destruct (walk_returns lib opts st tree) as [r Hwalk].
  exists (2 + remaining st []).
  destruct r as [w|e].
  - exists (if (0 <? length (w_errors w))%nat
            then Throw (ESBOMPROBLEMS (join (EOL lib) (w_errors w)),
                        w_store w)
            else buildResponse lib opts env (w_store w) (builderInput w)).
    intros fuel' Hle. rewrite (walk_more_fuel _ _ _ _ _ _ _ Hwalk Hle).
    by destruct (0 <? length (w_errors w))%nat.
  - exists (Throw e). intros fuel' Hle.
    by rewrite (walk_more_fuel _ _ _ _ _ _ _ Hwalk Hle).
Qed.

(** The ways a run fails.  It throws the usage error when no format is
    configured, or when the lock file cannot be loaded in package-lock-only
    mode; the exception of Arborist when the tree cannot be loaded
    otherwise; all of these before a tree is there.  Once the tree is
    loaded, it throws the aggregated failure only when the walk returned
    with errors, and then with their lines as message; the exception of a
    package only after a walk that returned without errors, that is, from
    the builder; and otherwise a [TypeError]. *)
Theorem exec_failures (opts : Options) (env : Env) (fuel : nat) (e : exn)
    (s : Store) :
  exec lib opts env fuel = Some (Throw (e, s)) ->
  (truthy (sbomFormat opts) = false
   /\ e = EUSAGE
            "Must specify --sbom-format flag with one of: cyclonedx, spdx."
   /\ s = [])
  \/ (truthy (sbomFormat opts) = true
      /\ ((s = []
           /\ ((newArborist lib = None /\ e = LibError)
               \/ exists arb,
                    newArborist lib = Some arb
                    /\ ((packageLockOnly opts = true
                         /\ loadVirtual arb = None
                         /\ e = EUSAGE (usageError lib
                                  "A package lock or shrinkwrap file is required in package-lock-only mode"))
                        \/ (packageLockOnly opts = false
                            /\ loadActual arb = None /\ e = LibError))))
          \/ exists st tree,
               loadTree lib opts = Ok (st, tree)
               /\ ((exists w,
                      walk lib opts fuel st tree = Some (Ok w)
                      /\ w_errors w <> []
                      /\ e = ESBOMPROBLEMS (join (EOL lib) (w_errors w))
                      /\ s = w_store w)
                   \/ (e = LibError
                       /\ exists w,
                            walk lib opts fuel st tree = Some (Ok w)
                            /\ w_errors w = [])
                   \/ e = TypeError))).
Proof.
  intros H.
  destruct (exec_Some _ _ _ _ _ H)
    as [[Hfmt [= -> ->]]|[(Hfmt & e' & Hload & [= <- ->])
                        |(Hfmt & st & tree & rw & Hload & Hwalk & Hr)]];
    [by left| |].
  - right. split; [done|]. left. split; [done|].
    unfold loadTree in Hload.
    destruct (newArborist lib) as [arb|]; simpl in Hload;
      [|left; by simplify_eq].
    right. exists arb. split; [done|].
    destruct (packageLockOnly opts).
    + destruct (loadVirtual arb); [discriminate|]. left.
      injection Hload as <-. by repeat split.
    + destruct (loadActual arb); [discriminate|]. right.
      injection Hload as <-. by repeat split.
  - right. split; [done|]. right. exists st, tree. split; [done|].
    destruct rw as [w|[e' s']].
    + destruct (w_errors w) as [|l ls] eqn:Herrors.
      * symmetry in Hr.
        destruct (buildResponse_raises _ _ _ _ _ _ _ Hr) as [[->| ->] _];
          [by right; right|right; left; eauto].
      * injection Hr as -> ->. left. exists w. by rewrite Herrors.
    + injection Hr as <- <-.
      destruct (walk_frame _ _ _ _ _ _ Hwalk) as [_ Hraises].
      destruct (Hraises _ _ eq_refl) as [-> _]. by right; right.
Qed.

End Failures.

(** ** What the walk hands to the builder *)

Section Handover.

Variable lib : Lib.
Variable opts : Options.

(** No installed instance is handed to the builder twice: when the walk
    returns, the visited nodes are recorded under pairwise different paths
    and the list for the builder has no repetition, however many edges
    lead to a node. *)
Theorem walk_hands_over_each_node_once (st : Store) (tree : addr)
    (fuel : nat) (w : Walk) :
  walk lib opts fuel st tree = Some (Ok w) ->
  NoDup (w_seenNodes w).*1 /\ NoDup (builderInput w).
Proof.
  intros (seen & (_ & _ & _ & Hrec & Hnd & _) & _)%walk_visited.
  split; [done|].
  unfold builderInput. apply NoDup_filter, values_NoDup; [done|].
  intros k k' it Hin Hin'.
  pose proof (Hrec _ _ Hin) as H1. pose proof (Hrec _ _ Hin') as H2.
  destruct it as [b|ph]; [|congruence].
  destruct H1 as (_ & n1 & Hn1 & ->), H2 as (_ & n2 & Hn2 & ->). congruence.
Qed.

(** The builder only receives nodes that the walk can reach from the tree:
    the tree itself, resolved targets of edges that passed the workspace
    filter and the omit filter, and extraneous children of such nodes. *)
Theorem walk_hands_over_reachable_nodes_only (st : Store) (tree : addr)
    (fuel : nat) (w : Walk) (b : addr) :
  walk lib opts fuel st tree = Some (Ok w) ->
  ArbNode b ∈ builderInput w ->
  reachable lib opts st tree b.
Proof.
  intros (seen & (_ & _ & _ & Hrec & _) & _)%walk_visited
    (_ & k & Hin)%builderInput_elem.
  by destruct (Hrec _ _ Hin) as [? _].
Qed.

(** A node that is not the tree, is not extraneous and is the target only
    of edges whose kind is in the omit set does not reach the builder. *)
Theorem walk_leaves_out_omitted_nodes (st : Store) (tree : addr) (fuel : nat)
    (w : Walk) (b : addr) :
  walk lib opts fuel st tree = Some (Ok w) ->
  b <> tree ->
  (forall a edge,
     edgeOf st a edge -> e_to edge = Some b -> e_type edge ∈ omit opts) ->
  (forall child, st !! b = Some child -> n_extraneous child = false) ->
  ArbNode b ∉ builderInput w.
Proof.
  intros Hwalk Hne Homit Hext Hin.
  destruct (builderInput_edge _ _ _ _ _ _ _ Hwalk Hin Hne Hext)
    as (a & edge & _ & He & [_ Hs] & Hto).
  unfold filterByEdgesTypes in Hs. apply negb_true_iff in Hs.
  apply bool_decide_eq_false in Hs. apply Hs. by eapply Homit.
Qed.

(** With workspaces disabled, a workspace that only the project root
    depends on does not reach the builder. *)
Theorem walk_leaves_out_workspaces_when_disabled (st : Store) (tree : addr)
    (fuel : nat) (w : Walk) (b : addr) (nb : Node) :
  walk lib opts fuel st tree = Some (Ok w) ->
  workspacesEnabled opts = false ->
  b <> tree -> st !! b = Some nb ->
  n_isWorkspace nb = true -> n_extraneous nb = false ->
  (forall a edge,
     edgeOf st a edge -> e_to edge = Some b ->
     exists from, st !! e_from edge = Some from
                  /\ n_isProjectRoot from = true) ->
  ArbNode b ∉ builderInput w.
Proof.
  intros Hwalk Hws Hne Hb Hw Hext Hroot Hin.
  destruct (builderInput_edge _ _ _ _ _ _ _ Hwalk Hin Hne)
    as (a & edge & _ & He & [Hs _] & Hto).
  { intros child. rewrite Hb. by intros [= <-]. }
  destruct (Hroot a edge He Hto) as (from & Hfrom & Hpr).
  unfold filterBySelectedWorkspaces, deref in Hs.
  rewrite Hws, Hfrom, Hto in Hs. simpl in Hs.
  rewrite Hpr, Hb in Hs. simpl in Hs. by rewrite Hw in Hs.
Qed.

(** With workspaces selected, a dependency of the project root that is not
    one of the selected workspaces, and that nothing else depends on, does
    not reach the builder. *)
Theorem walk_leaves_out_unselected_dependencies (st : Store) (tree : addr)
    (fuel : nat) (w : Walk) (b selected : addr) (others : list addr)
    (nb : Node) :
  walk lib opts fuel st tree = Some (Ok w) ->
  wsNodes opts = Some (selected :: others) ->
  b <> tree -> st !! b = Some nb ->
  n_isWorkspace nb && bool_decide (n_target nb ∈ selected :: others) = false ->
  n_extraneous nb = false ->
  (forall a edge,
     edgeOf st a edge -> e_to edge = Some b ->
     exists from, st !! e_from edge = Some from
                  /\ n_isProjectRoot from = true) ->
  ArbNode b ∉ builderInput w.
Proof.
  intros Hwalk Hws Hne Hb Hsel Hext Hroot Hin.
  destruct (builderInput_edge _ _ _ _ _ _ _ Hwalk Hin Hne)
    as (a & edge & _ & He & [Hs _] & Hto).
  { intros child. rewrite Hb. by intros [= <-]. }
  destruct (Hroot a edge He Hto) as (from & Hfrom & Hpr).
  unfold filterBySelectedWorkspaces, deref in Hs.
  rewrite Hws, Hfrom, Hto in Hs. simpl in Hs.
  rewrite Hpr, Hb in Hs. simpl in Hs. rewrite Hsel in Hs.
  destruct (workspacesEnabled opts); simpl in Hs; [done|].
  by destruct (n_isWorkspace nb).
Qed.

(** When no two nodes of the tree have the same path, every node that the
    walk can reach is handed to the builder: the tree, the resolved targets
    of edges that pass the filters, and the extraneous children of such
    nodes. *)
Theorem walk_hands_over_every_reached_node (st : Store) (tree : addr)
    (fuel : nat) (w : Walk) (a : addr) :
  pathsDistinct st ->
  walk lib opts fuel st tree = Some (Ok w) ->
  reachable lib opts st tree a ->
  ArbNode a ∈ builderInput w.
Proof.
  intros Hpaths Hwalk Hreach.
  destruct (walk_records_reachable _ _ _ _ _ _ _ Hpaths Hwalk Hreach)
    as (n & Hn & Hin).
  apply builderInput_elem. split; [reflexivity|]. by exists (Some (n_path n)).
Qed.

End Handover.

(** ** The packages of the document *)

Section Packages.

Variable lib : Lib.

(** The records of a document and the nodes they are made from. *)
Lemma spdxOutput_records (env : Env) (st st' : Store) (nodes : list item)
    (pt : option string) (doc : SpdxDocument) :
  spdxOutput lib env st nodes pt = Ok (doc, st') ->
  exists ra,
    findM (isRoot st) nodes = Ok (Some (ArbNode ra))
    /\ Forall2 (fun it p =>
                  exists a n,
                    it = ArbNode a /\ st !! a = Some n /\ recordOf n p
                    /\ (normalised lib st ->
                        SPDXID p = toSpdxID (pkgid lib st n)))
               (ArbNode ra
                  :: filter (fun it => isRoot st it = Ok false) nodes)
               (packages doc).
Proof.
  intros H. pose proof H as Hdoc.
  apply spdxOutput_Ok in H
    as (ra & root & childNodes & esc & rels & rootItem & st1 & childItems
        & Hfind & Hfilter & Hra & _ & _ & Hroot & Hchildren & ->).
  exists ra. split; [done|].
  pose proof (childNodes_filter _ _ _ Hfilter) as Hchild.
  cbn [packages]. rewrite <- Hchild.
  apply toSpdxItem_Ok in Hroot
    as (a & node & pkg & [= <-] & Ha & _ & -> & Hrec & _).
  rewrite Hra in Ha. injection Ha as <-.
  pose proof (setPackageOf_shape st ra root pkg Hra) as Hshape.
  pose proof Hchildren as [_ Hall]%toSpdxItems_Ok.
  assert (normalised lib st ->
          SPDXID rootItem = toSpdxID (pkgid lib st root)
          /\ Forall2 (fun it p =>
                        exists id, pkgidOf lib st it = Some id
                                   /\ SPDXID p = toSpdxID id)
                     childNodes childItems) as Hids.
  { intros (clean & Hclean & Hnorm).
    destruct (spdxOutput_normal lib clean Hnorm _ _ _ _ _ _ Hclean Hdoc)
      as (ra' & root' & childNodes' & rootItem' & childItems'
          & Hfind' & Hfilter' & Hra' & Hpackages & Hid & Hids).
    simpl in Hpackages. injection Hpackages as <- <-.
    rewrite Hfind in Hfind'. injection Hfind' as <-.
    rewrite Hfilter in Hfilter'. injection Hfilter' as <-.
    rewrite Hra in Hra'. injection Hra' as <-. done. }
  constructor.
  - exists ra, root. split; [done|]. split; [done|]. split; [done|].
    intros Hn. by apply Hids.
  - apply Forall2_same_length_lookup. split; [by eapply Forall2_length|].
    intros i it p Hit Hp.
    destruct (Forall2_lookup_lr _ _ _ _ _ _ Hall Hit Hp)
      as (b & n' & -> & Hb' & [Hname Hfile] & _).
    destruct (Forall2_lookup_r _ _ _ _ _ Hshape Hb') as (n & Hb & Hn).
    apply samePackageShape_fields in Hn as (Hn1 & Hn2 & _).
    exists b, n. split; [done|]. split; [done|]. split; [split; congruence|].
    intros Hnormal. destruct (Hids Hnormal) as [_ Hids'].
    destruct (Forall2_lookup_lr _ _ _ _ _ _ Hids' Hit Hp) as (id & Hid & ->).
    simpl in Hid. rewrite Hb in Hid. by injection Hid as <-.
Qed.

Lemma spdxOutput_packages_sound (env : Env) (st st' : Store)
    (nodes : list item) (pt : option string) (doc : SpdxDocument)
    (p : SpdxPackage) :
  spdxOutput lib env st nodes pt = Ok (doc, st') -> p ∈ packages doc ->
  exists b n,
    ArbNode b ∈ nodes /\ st !! b = Some n /\ recordOf n p
    /\ (normalised lib st -> SPDXID p = toSpdxID (pkgid lib st n)).
Proof.
  intros (ra & Hfind & Hall)%spdxOutput_records Hp.
  apply list_elem_of_lookup in Hp as [i Hi].
  destruct (Forall2_lookup_r _ _ _ _ _ Hall Hi)
    as (it & Hit & b & n & -> & Hb & Hrest).
  exists b, n. split; [|done].
  apply list_elem_of_lookup_2, elem_of_cons in Hit as [->|Hit].
  - by apply findM_Ok_Some in Hfind as [? _].
  - by apply list_elem_of_filter in Hit as [_ ?].
Qed.

Lemma spdxOutput_packages_complete (env : Env) (st st' : Store)
    (nodes : list item) (pt : option string) (doc : SpdxDocument)
    (b : addr) (n : Node) :
  rootUnique st ->
  spdxOutput lib env st nodes pt = Ok (doc, st') ->
  ArbNode b ∈ nodes -> st !! b = Some n ->
  exists p,
    p ∈ packages doc /\ recordOf n p
    /\ (normalised lib st -> SPDXID p = toSpdxID (pkgid lib st n)).
Proof.
  intros Hunique (ra & Hfind & Hall)%spdxOutput_records Hin Hb.
  apply findM_Ok_Some in Hfind as [_ Hflag]. simpl in Hflag.
  assert (ArbNode b
          ∈ ArbNode ra :: filter (fun it => isRoot st it = Ok false) nodes)
    as Hin'.
  { bind_inv Hflag as root Hra. apply deref_Ok in Hra.
    injection Hflag as Hflag.
    destruct (n_isRoot n) eqn:Hrootb.
    - pose proof (Hunique ra b root n Hra Hb Hflag Hrootb) as <-.
      apply elem_of_cons. by left.
    - apply elem_of_cons. right. apply list_elem_of_filter. split; [|done].
      simpl. unfold deref. rewrite Hb. simpl. by rewrite Hrootb. }
  apply list_elem_of_lookup in Hin' as [i Hi].
  destruct (Forall2_lookup_l _ _ _ _ _ Hall Hi)
    as (p & Hp & b' & n' & [= <-] & Hb' & Hrest).
  rewrite Hb in Hb'. injection Hb' as <-.
  exists p. split; [by eapply list_elem_of_lookup_2|done].
Qed.

Lemma exec_spdx_Ok (opts : Options) (env : Env) (fuel : nat)
    (st' : Store) (doc : SpdxDocument) :
  exec lib opts env fuel = Some (Ok (SpdxResponse doc, st')) ->
  exists st tree w s,
    loadTree lib opts = Ok (st, tree)
    /\ walk lib opts fuel st tree = Some (Ok w)
    /\ spdxOutput lib env st (builderInput w) (packageType opts)
       = Ok (doc, s).
Proof.
  intros H.
  destruct (exec_Some _ _ _ _ _ H)
    as [[_ [=]]|[(_ & e & _ & [=])
                |(Hfmt & st & tree & rw & Hload & Hwalk & Hr)]].
  destruct rw as [w|e]; [|discriminate].
  destruct (w_errors w); [|discriminate].
  symmetry in Hr. unfold buildResponse in Hr. case_match.
  { destruct (cyclonedxOutput lib _ _ _ _) as [[d|] s]; discriminate. }
  bind_inv Hr as r Hr'. destruct r as [d st1]. simplify_eq.
  pose proof Hwalk as [Hframe _]%walk_frame.
  destruct (spdxOutput_marks _ _ _ _ _ _ _ _ Hframe Hr') as (s & Hs & _).
  exists st, tree, w, s. eauto.
Qed.

Lemma relationshipsFrom_complete (st : Store) (nodes rest : list item)
    (rels : list Relationship) (a : addr) (node : Node) (edge : Edge)
    (r : Relationship) :
  relationshipsFrom lib st nodes rest = Ok rels ->
  ArbNode a ∈ rest -> st !! a = Some node -> edge ∈ n_edgesOut node ->
  linksIntoList lib st nodes edge = true ->
  toSpdxRelationship lib st node edge = Some r ->
  r ∈ rels.
Proof.
  revert rels. induction rest as [|it rest IH]; intros rels H Ha Hnode He Hl Hr.
  { by apply elem_of_nil in Ha. }
  simpl in H. bind_inv H as here Hhere. bind_inv H as more Hmore.
  simplify_eq. apply elem_of_app.
  apply elem_of_cons in Ha as [<-|Ha]; [left|right; by eapply IH].
  simpl in Hhere. unfold deref in Hhere. rewrite Hnode in Hhere.
  simpl in Hhere. injection Hhere as <-.
  apply list_elem_of_omap. exists edge. split; [|done].
  by apply list_elem_of_filter.
Qed.

(** Every package record of a document that a run produces stands for a
    node that the walk can reach from the tree that was loaded: it has the
    name and the location of that node, and nothing else gets into the
    document.  When the package objects of the tree are normalised as far
    as identifiers go, the record is under the SPDX identifier of that
    node's package identifier. *)
Theorem exec_packages_are_reachable_nodes (opts : Options) (env : Env)
    (fuel : nat) (st' : Store) (doc : SpdxDocument) (p : SpdxPackage) :
  exec lib opts env fuel = Some (Ok (SpdxResponse doc, st')) ->
  p ∈ packages doc ->
  exists st tree b n,
    loadTree lib opts = Ok (st, tree)
    /\ reachable lib opts st tree b /\ st !! b = Some n
    /\ recordOf n p
    /\ (normalised lib st -> SPDXID p = toSpdxID (pkgid lib st n)).
Proof.
  intros (st & tree & w & s & Hload & Hwalk & Hdoc)%exec_spdx_Ok Hp.
  destruct (spdxOutput_packages_sound _ _ _ _ _ _ _ Hdoc Hp)
    as (b & n & Hin & Hb & Hrest).
  exists st, tree, b, n. split; [done|]. split; [|done].
  by eapply builderInput_sound.
Qed.

(** When paths tell the nodes of the tree apart and only one of them is
    flagged as root, a document that a run produces has a package record
    for every node that the walk can reach from the tree, with the name and
    the location of the node; when the package objects of the tree are
    normalised as far as identifiers go, that record is under the SPDX
    identifier of the node's package identifier. *)
Theorem exec_packages_cover_reachable_nodes (opts : Options) (env : Env)
    (fuel : nat) (st st' : Store) (tree : addr) (doc : SpdxDocument)
    (b : addr) (n : Node) :
  pathsDistinct st -> rootUnique st ->
  loadTree lib opts = Ok (st, tree) ->
  exec lib opts env fuel = Some (Ok (SpdxResponse doc, st')) ->
  reachable lib opts st tree b -> st !! b = Some n ->
  exists p,
    p ∈ packages doc /\ recordOf n p
    /\ (normalised lib st -> SPDXID p = toSpdxID (pkgid lib st n)).
Proof.
  intros Hpaths Hunique Hload
    (st0 & tree0 & w & s & Hload' & Hwalk & Hdoc)%exec_spdx_Ok Hreach Hb.
  rewrite Hload in Hload'. injection Hload' as <- <-.
  eapply spdxOutput_packages_complete; [done|exact Hdoc| |done].
  by eapply builderInput_complete.
Qed.

(** The filters prune the walk, not the relationships of the document: when
    a run produces a document, every edge between two nodes that the walk
    can reach has its relationship in it, also an edge whose kind is in the
    omit set or that the workspace filter dropped. *)
Theorem exec_relationship_of_every_edge (opts : Options) (env : Env)
    (fuel : nat) (st st' : Store) (tree : addr) (doc : SpdxDocument)
    (a b : addr) (node to : Node) (edge : Edge) :
  pathsDistinct st ->
  loadTree lib opts = Ok (st, tree) ->
  exec lib opts env fuel = Some (Ok (SpdxResponse doc, st')) ->
  reachable lib opts st tree a -> reachable lib opts st tree b ->
  st !! a = Some node -> edge ∈ n_edgesOut node ->
  e_to edge = Some b -> st !! b = Some to ->
  exists r,
    toSpdxRelationship lib st node edge = Some r /\ r ∈ relationships doc.
Proof.
  intros Hpaths Hload
    (st0 & tree0 & w & s & Hload' & Hwalk & Hdoc)%exec_spdx_Ok
    Ha Hb Hnode He Hto Hb'.
  rewrite Hload in Hload'. injection Hload' as <- <-.
  pose proof (builderInput_complete _ _ _ _ _ _ _ Hpaths Hwalk Ha) as Hina.
  pose proof (builderInput_complete _ _ _ _ _ _ _ Hpaths Hwalk Hb) as Hinb.
  apply spdxOutput_Ok in Hdoc
    as (ra & root & childNodes & esc & rels & rootItem & st1 & childItems
        & _ & _ & _ & _ & Hrels & _ & _ & ->).
  assert (e_to edge ≫= (st !!.) = Some to) as Hlook
    by (rewrite Hto; exact Hb').
  unfold toSpdxRelationship. rewrite Hlook. eexists. split; [done|].
  cbn [relationships]. apply elem_of_cons. right.
  eapply relationshipsFrom_complete; [exact Hrels|exact Hina|exact Hnode
                                     |exact He| |].
  - unfold linksIntoList. rewrite Hlook. apply existsb_exists.
    exists (ArbNode b). split; [by apply list_elem_of_In|].
    apply bool_decide_eq_true. simpl. by rewrite Hb'.
  - unfold toSpdxRelationship. by rewrite Hlook.
Qed.

End Packages.

(** ** The order of the children *)

Lemma insertSorted_ascending (cmp : item -> item -> Z) (x : item)
    (l : list item) :
  (forall a b, (0 < cmp a b)%Z -> (cmp b a <= 0)%Z) ->
  ascending cmp l -> ascending cmp (insertSorted cmp x l).
Proof.
  intros Htotal. induction l as [|y r IH]; intros Hasc; [by split|].
  simpl. destruct (Z.leb_spec (cmp x y) 0) as [Hle|Hgt]; [by split|].
  destruct Hasc as [Hhd Hr]. specialize (IH Hr). split; [|done].
  destruct r as [|z r']; simpl; [by apply Htotal|].
  destruct (cmp x z <=? 0)%Z; [by apply Htotal|done].
Qed.

Lemma sort_ascending (cmp : item -> item -> Z) (l : list item) :
  (forall a b, (0 < cmp a b)%Z -> (cmp b a <= 0)%Z) ->
  ascending cmp (sort cmp l).
Proof.
  intros Htotal. induction l as [|x l IH]; [done|].
  simpl. by apply insertSorted_ascending.
Qed.

Section Order.

Variable lib : Lib.
Variable opts : Options.

(** The children of a node enter the queue in ascending order of their
    package identifiers as the comparison of the locale orders them (an
    object without identifier counting as [undefined]), provided that
    comparison never calls each of two strings greater than the other. *)
Theorem getChildren_ascending (it : item) (w w' : Walk) (kids : list item) :
  (forall a b, (0 < localeCompare lib a b)%Z -> (localeCompare lib b a <= 0)%Z) ->
  getChildren lib opts it w = Ok (kids, w') ->
  ascending (fun x y =>
               localeCompare lib (interp (pkgidOf lib (w_store w') x))
                                 (interp (pkgidOf lib (w_store w') y)))
            kids.
Proof.
  intros Htotal H. destruct it as [a|ph]; [|simpl in H; by simplify_eq].
  apply getChildren_Ok in H
    as (node & target & edges1 & nodes & kept & _ & _ & _ & _ & -> & _).
  apply (sort_ascending (sortAlphabetically lib (w_store w'))).
  intros x y. apply Htotal.
Qed.

End Order.

(** ** The marks on the children *)

Lemma mapEdgesToNodes_parts (lib : Lib) (st st' : Store) (sp sp' : list string)
    (edge : Edge) (it : item) :
  mapEdgesToNodes lib st sp edge = Ok (it, sp', st') ->
  match it with
  | Plain _ => st' = st
  | ArbNode b =>
      exists node,
        st !! b = Some node
        /\ st' = <[b := setMarks node
                          (if e_invalid edge then true else n_invalid node)
                          (Some (e_type edge))]> st
  end.
Proof.
  unfold mapEdgesToNodes. fold (isUnresolved st edge).
  destruct (isUnresolved st edge).
  - intros Hrun. bind_inv Hrun as from Hfrom. by simplify_eq.
  - destruct (e_to edge) as [b|]; [|discriminate].
    intros Hrun. bind_inv Hrun as node Hnode. apply deref_Ok in Hnode.
    simplify_eq. eauto.
Qed.

Lemma mapEdgesToNodes_invalid_kept (lib : Lib) (st st' : Store)
    (sp sp' : list string) (edge : Edge) (it : item) (b : addr) :
  mapEdgesToNodes lib st sp edge = Ok (it, sp', st') ->
  invalidAt st b -> invalidAt st' b.
Proof.
  intros H%mapEdgesToNodes_parts (n & Hn & Hinv).
  destruct it as [c|ph]; [|by subst; exists n].
  destruct H as (node & Hnode & ->).
  destruct (decide (c = b)) as [->|Hne].
  - rewrite Hn in Hnode. injection Hnode as <-. eexists. split.
    + apply list_lookup_insert_eq. by eapply lookup_lt_Some.
    + simpl. rewrite Hinv. by destruct (e_invalid edge).
  - exists n. by rewrite list_lookup_insert_ne.
Qed.

Lemma mapEdges_invalid_kept (lib : Lib) (st st' : Store)
    (sp sp' : list string) (edges : list Edge) (its : list item) (b : addr) :
  mapEdges lib st sp edges = Ok (its, sp', st') ->
  invalidAt st b -> invalidAt st' b.
Proof.
  revert st sp its. induction edges as [|e edges IH]; intros st sp its H Hb.
  { simpl in H. by simplify_eq. }
  simpl in H. bind_inv H as r1 Hr1. destruct r1 as [[it sp1] st1].
  bind_inv H as r2 Hr2. destruct r2 as [[its' sp2] st2]. simplify_eq.
  eapply IH; [exact Hr2|]. by eapply mapEdgesToNodes_invalid_kept.
Qed.

Lemma mapEdges_marks_invalid (lib : Lib) (st st' : Store)
    (sp sp' : list string) (edges : list Edge) (its : list item)
    (edge : Edge) (b : addr) :
  mapEdges lib st sp edges = Ok (its, sp', st') ->
  edge ∈ edges -> e_invalid edge = true ->
  edgeItem lib st edge = Some (ArbNode b) ->
  invalidAt st' b.
Proof.
  revert st sp its.
  induction edges as [|e edges IH]; intros st sp its H Hin Hinv Hit.
  { by apply elem_of_nil in Hin. }
  simpl in H. bind_inv H as r1 Hr1. destruct r1 as [[it sp1] st1].
  bind_inv H as r2 Hr2. destruct r2 as [[its' sp2] st2]. simplify_eq.
  apply elem_of_cons in Hin as [->|Hin].
  - eapply mapEdges_invalid_kept; [exact Hr2|].
    pose proof Hr1 as [Hit' _]%mapEdgesToNodes_Ok.
    rewrite Hit in Hit'. injection Hit' as <-.
    apply mapEdgesToNodes_parts in Hr1 as (node & Hnode & ->).
    eexists. split.
    + apply list_lookup_insert_eq. by eapply lookup_lt_Some.
    + simpl. by rewrite Hinv.
  - apply mapEdgesToNodes_Ok in Hr1 as [_ Hframe].
    eapply IH; [exact Hr2|done|done|].
    by rewrite (edgeItem_frame _ _ _ _ Hframe).
Qed.

Section InvalidEdges.

Variable lib : Lib.
Variable opts : Options.

Lemma getChildren_map (a : addr) (w w' : Walk) (kids : list item) :
  getChildren lib opts (ArbNode a) w = Ok (kids, w') ->
  exists node target edges1 nodes sp,
    w_store w !! a = Some node
    /\ w_store w !! n_target node = Some target
    /\ filterM (filterBySelectedWorkspaces opts (w_store w))
               (n_edgesOut target) = Ok edges1
    /\ mapEdges lib (w_store w) []
         (filter (fun e => filterByEdgesTypes opts e = true) edges1)
       = Ok (nodes, sp, w_store w')
    /\ w_errors w' = w_errors w.
Proof.
  unfold getChildren. intros H.
  bind_inv H as node Hnode. apply deref_Ok in Hnode.
  bind_inv H as target Htarget. apply deref_Ok in Htarget.
  bind_inv H as edges1 Hedges1.
  bind_inv H as r Hmap. destruct r as [[nodes sp] st'].
  bind_inv H as node' Hnode'. bind_inv H as extra Hextra. simplify_eq.
  by exists node, target, edges1, nodes, sp.
Qed.

Lemma getChildren_invalid_kept (it : item) (w w' : Walk) (kids : list item)
    (b : addr) :
  getChildren lib opts it w = Ok (kids, w') ->
  invalidAt (w_store w) b -> invalidAt (w_store w') b.
Proof.
  destruct it as [a|ph]; [|simpl; intros; by simplify_eq].
  intros (node & target & edges1 & nodes & sp & _ & _ & _ & Hmap & _)
    %getChildren_map.
  by eapply mapEdges_invalid_kept.
Qed.

Lemma getChildren_marks_invalid (st0 : Store) (a b : addr) (w w' : Walk)
    (kids : list item) (edge : Edge) :
  frame st0 (w_store w) ->
  getChildren lib opts (ArbNode a) w = Ok (kids, w') ->
  edgeOf st0 a edge -> survives opts st0 edge -> e_invalid edge = true ->
  edgeItem lib st0 edge = Some (ArbNode b) ->
  invalidAt (w_store w') b.
Proof.
  intros Hframe Hkids (node0 & target0 & Hnode0 & Htarget0 & Hin) [Hws Homit]
    Hinv Hitem.
  apply getChildren_map in Hkids
    as (node & target & edges1 & nodes & sp & Hnode & Htarget & Hedges1
        & Hmap & _).
  pose proof (Forall2_lookup_lr _ _ _ _ _ _ Hframe Hnode0 Hnode) as Hsh.
  destruct (sameShape_fields _ _ Hsh) as (_ & _ & Htgt & _).
  rewrite Htgt in Htarget.
  pose proof (Forall2_lookup_lr _ _ _ _ _ _ Hframe Htarget0 Htarget) as Hsh'.
  destruct (sameShape_fields _ _ Hsh') as (_ & _ & _ & Hedges & _).
  rewrite <- Hedges in Hin.
  destruct (filterM_Ok_elem _ _ _ Hedges1 _ Hin) as (x & Hx & Hx').
  rewrite (filterBySelectedWorkspaces_frame _ _ _ _ Hframe), Hws in Hx.
  injection Hx as <-. specialize (Hx' eq_refl).
  eapply mapEdges_marks_invalid; [exact Hmap| |done|].
  - by apply list_elem_of_filter.
  - by rewrite (edgeItem_frame _ _ _ _ Hframe).
Qed.

(** An invalid dependency of the tree is reported: when an edge of the tree
    that passes the filters is flagged invalid and leads to another node,
    the walk records the line of that node among its errors. *)
Theorem walk_reports_invalid_dependency_of_tree (st : Store) (tree b : addr)
    (fuel : nat) (w : Walk) (edge : Edge) (nb : Node) :
  walk lib opts fuel st tree = Some (Ok w) ->
  edgeOf st tree edge -> survives opts st edge -> e_invalid edge = true ->
  edgeItem lib st edge = Some (ArbNode b) -> b <> tree -> st !! b = Some nb ->
  ("invalid: " +:+ pkgid lib st nb +:+ " " +:+ n_path nb) ∈ w_errors w.
Proof.
  intros H He Hs Hinv Hit Hne Hnb.
  set (line := "invalid: " +:+ pkgid lib st nb +:+ " " +:+ n_path nb).
  unfold walk in H. destruct fuel as [|fuel]; [discriminate|].
  rewrite breadth_unfold in H. unfold seenHas in H.
  rewrite bool_decide_eq_false_2 in H by apply not_elem_of_nil.
  destruct (visit lib (ArbNode tree) (walkStart st)) as [w1|e1] eqn:Hvisit;
    [|discriminate].
  destruct (getChildren lib opts (ArbNode tree) w1) as [[kids w2]|e2]
    eqn:Hkids; [|discriminate].
  apply visit_Ok in Hvisit as (errs & _ & Hst1 & _).
  simpl in Hst1.
  assert (frame st (w_store w1)) as Hf1 by (rewrite Hst1; apply frame_refl).
  pose (I := fun (queue : list item) (seen : list addr) (w0 : Walk) =>
    frame st (w_store w0) /\ invalidAt (w_store w0) b
    /\ ((ArbNode b ∈ queue /\ b ∉ seen) \/ line ∈ w_errors w0)).
  assert (exists seen, I [] seen w) as (seen & _ & _ & [[Hq _]|Hline]);
    [|by apply elem_of_nil in Hq|done].
  refine (breadth_invariant lib opts I _ _ fuel kids [tree] w2 w _ H).
  - intros node rest seen w0 (Hf & Hb & Hcase) (c & -> & Hc)%seenHas_true.
    split; [done|]. split; [done|].
    destruct Hcase as [[Hin Hnot]|?]; [|auto].
    apply elem_of_cons in Hin as [[= <-]|Hin]; [done|auto].
  - intros node rest seen w0 w1' kids' w2' (Hf & Hb & Hcase) Hseen Hvisit'
      Hkids'.
    apply visit_Ok in Hvisit' as (errs' & Herrs' & Hst1' & Herr1' & _).
    pose proof (getChildren_state _ _ _ _ _ _ Hkids') as (Hf' & _ & Herr2).
    assert (frame st (w_store w2')) as Hf2.
    { eapply frame_trans; [|exact Hf']. by rewrite Hst1'. }
    split; [done|]. split.
    { eapply getChildren_invalid_kept; [exact Hkids'|]. by rewrite Hst1'. }
    rewrite Herr2, Herr1'.
    destruct Hcase as [[Hin Hnot]|Hline];
      [|right; apply setAdd_all_elem; auto].
    assert (node = ArbNode b \/ node <> ArbNode b) as [->|Hnode].
    { destruct node as [c|ph]; [|by right].
      destruct (decide (c = b)) as [->|]; [by left|right; congruence]. }
    + right. apply setAdd_all_elem. right.
      destruct Hb as (n & Hn & Hmark).
      unfold findErrors, deref in Herrs'. rewrite Hn in Herrs'.
      simpl in Herrs'. rewrite Hmark in Herrs'. injection Herrs' as <-.
      pose proof (Forall2_lookup_lr _ _ _ _ _ _ Hf Hnb Hn) as Hsh.
      destruct (sameShape_fields _ _ Hsh) as (_ & -> & _).
      rewrite (pkgid_frame lib _ _ _ _ _ Hf Hnb Hn).
      by apply list_elem_of_singleton.
    + left. apply elem_of_cons in Hin as [?|Hin]; [congruence|].
      split; [apply elem_of_app; auto|].
      rewrite seenAdd_elem. intros [?|?]; done.
  - split.
    { pose proof (getChildren_state _ _ _ _ _ _ Hkids) as (Hf' & _).
      by eapply frame_trans. }
    split; [by eapply getChildren_marks_invalid|].
    left. split.
    + by eapply getChildren_complete.
    + by intros ->%list_elem_of_singleton.
Qed.

End InvalidEdges.

(** ** The lines of the aggregated failure *)

Lemma findErrors_lines (lib : Lib) (st : Store) (it : item)
    (errs : list string) (line : string) :
  findErrors lib st it = Ok errs -> line ∈ errs ->
  String.prefix "missing: " line = true
  \/ String.prefix "invalid: " line = true.
Proof.
  destruct it as [a|ph]; simpl.
  - intros H. bind_inv H as node Hnode. simplify_eq.
    destruct (n_invalid node); [|by intros ?%elem_of_nil].
    intros ->%list_elem_of_singleton. right. apply prefix_app.
  - intros [= <-] [Hin|Hin]%elem_of_app.
    + case_match; [|by apply elem_of_nil in Hin].
      apply list_elem_of_singleton in Hin as ->. left. apply prefix_app.
    + case_match; [|by apply elem_of_nil in Hin].
      apply list_elem_of_singleton in Hin as ->. right. apply prefix_app.
Qed.

Section Lines.

Variable lib : Lib.

(** Every line of the aggregated failure reports a missing or an invalid
    dependency: it starts with [missing: ] or with [invalid: ]. *)
Theorem exec_failure_lines (opts : Options) (env : Env) (fuel : nat)
    (st' : Store) (msg : string) :
  exec lib opts env fuel = Some (Throw (ESBOMPROBLEMS msg, st')) ->
  exists lines,
    msg = join (EOL lib) lines
    /\ (forall line,
          line ∈ lines ->
          String.prefix "missing: " line = true
          \/ String.prefix "invalid: " line = true).
Proof.
  intros H.
  destruct (exec_Some _ _ _ _ _ H)
    as [[_ [=]]|[(_ & e & Hload & [= <- ->])
                |(Hfmt & st & tree & rw & Hload & Hwalk & Hr)]].
  { by destruct (loadTree_Throw _ _ _ Hload) as [?|[_ ?]]. }
  destruct rw as [w|[e s]].
  2: { injection Hr as <- <-.
       destruct (walk_frame _ _ _ _ _ _ Hwalk) as [_ Hraises].
       by destruct (Hraises _ _ eq_refl) as [? _]. }
  exists (w_errors w). split.
  { destruct (w_errors w) as [|l ls] eqn:Herrs; [|by injection Hr as -> ->].
    symmetry in Hr.
    by destruct (buildResponse_raises _ _ _ _ _ _ _ Hr) as [[?|?] _]. }
  clear H Hr.
  pose (I := fun (queue : list item) (seen : list addr) (w0 : Walk) =>
    forall line,
      line ∈ w_errors w0 ->
      String.prefix "missing: " line = true
      \/ String.prefix "invalid: " line = true).
  assert (exists seen, I [] seen w) as [seen HI]; [|exact HI].
  refine (breadth_invariant lib opts I _ _ fuel [ArbNode tree] []
            (walkStart st) w _ Hwalk).
  - by intros node rest seen w0 HI _.
  - intros node rest seen w0 w1 kids w2 HI _ Hvisit Hkids line Hline.
    apply visit_Ok in Hvisit as (errs & Herrs & _ & Herr1 & _).
    pose proof (getChildren_state _ _ _ _ _ _ Hkids) as (_ & _ & Herr2).
    rewrite Herr2, Herr1 in Hline.
    apply setAdd_all_elem in Hline as [?|?]; [by apply HI|].
    by eapply findErrors_lines.
  - by intros line ?%elem_of_nil.
Qed.

End Lines.

(** ** No false alarm *)

Lemma Forall2_functional {A B : Type} (f : A -> option B) (l : list A)
    (l1 l2 : list B) :
  Forall2 (fun x y => f x = Some y) l l1 ->
  Forall2 (fun x y => f x = Some y) l l2 ->
  l1 = l2.
Proof.
  intros H1. revert l2.
  induction H1 as [|x y l l1 Hxy _ IH]; intros l2 H2; inversion H2; subst.
  - done.
  - f_equal; [congruence|by apply IH].
Qed.

Lemma mapEdgesToNodes_invalid_source (lib : Lib) (st st' : Store)
    (sp sp' : list string) (edge : Edge) (it : item) (b : addr) (n' : Node) :
  mapEdgesToNodes lib st sp edge = Ok (it, sp', st') ->
  st' !! b = Some n' -> n_invalid n' = true ->
  (exists n, st !! b = Some n /\ n_invalid n = true)
  \/ (e_invalid edge = true /\ it = ArbNode b).
Proof.
  intros H Hb Hinv. apply mapEdgesToNodes_parts in H.
  destruct it as [c|ph]; [|subst st'; eauto].
  destruct H as (node & Hnode & ->).
  destruct (decide (c = b)) as [->|Hne].
  - rewrite list_lookup_insert_eq in Hb by by eapply lookup_lt_Some.
    injection Hb as <-. simpl in Hinv.
    destruct (e_invalid edge); [auto|]. left. eauto.
  - rewrite list_lookup_insert_ne in Hb by done. eauto.
Qed.

Lemma mapEdges_invalid_source (lib : Lib) (st st' : Store)
    (sp sp' : list string) (edges : list Edge) (its : list item) (b : addr)
    (n' : Node) :
  mapEdges lib st sp edges = Ok (its, sp', st') ->
  st' !! b = Some n' -> n_invalid n' = true ->
  (exists n, st !! b = Some n /\ n_invalid n = true)
  \/ (exists edge,
        edge ∈ edges /\ e_invalid edge = true
        /\ edgeItem lib st edge = Some (ArbNode b)).
Proof.
  revert st sp its.
  induction edges as [|e edges IH]; intros st sp its H Hb Hinv.
  { simpl in H. simplify_eq. eauto. }
  simpl in H. bind_inv H as r1 Hr1. destruct r1 as [[it sp1] st1].
  bind_inv H as r2 Hr2. destruct r2 as [[its' sp2] st2]. simplify_eq.
  pose proof Hr1 as [Hit Hframe]%mapEdgesToNodes_Ok.
  destruct (IH _ _ _ Hr2 Hb Hinv) as [(n1 & Hn1 & Hinv1)|(edge & Hin & He & Hto)].
  - destruct (mapEdgesToNodes_invalid_source _ _ _ _ _ _ _ _ _ Hr1 Hn1 Hinv1)
      as [?|[He ->]]; [auto|].
    right. exists e. split; [apply elem_of_cons; auto|done].
  - right. exists edge. split; [apply elem_of_cons; auto|].
    split; [done|]. by rewrite <- (edgeItem_frame _ _ _ _ Hframe).
Qed.

Section Alarms.

Variable lib : Lib.
Variable opts : Options.

(** The edges that [getChildren] maps are edges of the node that pass the
    filters. *)
Lemma getChildren_mapped (st0 : Store) (a : addr) (w w' : Walk)
    (kids : list item) :
  frame st0 (w_store w) ->
  getChildren lib opts (ArbNode a) w = Ok (kids, w') ->
  exists edges nodes sp,
    mapEdges lib (w_store w) [] edges = Ok (nodes, sp, w_store w')
    /\ (forall it, Plain it ∈ kids -> Plain it ∈ nodes)
    /\ (forall edge, edge ∈ edges ->
          edgeOf st0 a edge /\ survives opts st0 edge).
Proof.
  intros Hframe Hkids.
  pose proof Hkids
    as (node & target & edges1 & nodes & sp & Hnode & Htarget & Hedges1
        & Hmap & _)%getChildren_map.
  apply getChildren_Ok in Hkids
    as (node' & target' & edges1' & nodes' & kept & Hnode' & Htarget'
        & Hedges1' & Hall & -> & _).
  assert (node' = node) as -> by congruence.
  assert (target' = target) as -> by congruence.
  assert (edges1' = edges1) as -> by congruence.
  exists (filter (fun e => filterByEdgesTypes opts e = true) edges1), nodes, sp.
  split; [done|]. split.
  - intros ph Hph. rewrite sort_perm in Hph.
    apply elem_of_app in Hph as [Hph|Hph].
    + apply mapEdges_Ok in Hmap as [_ Hall'].
      by rewrite <- (Forall2_functional _ _ _ _ Hall Hall').
    + by apply list_elem_of_fmap in Hph as (? & [=] & _).
  - intros edge [Homit He]%list_elem_of_filter.
    apply (filterM_Ok_sub _ _ _ Hedges1) in He as [He Hws].
    frame_at Hframe a node0 node1 Hn0 Hn1 Hsh; [|congruence].
    rewrite Hnode in Hn1. injection Hn1 as <-.
    destruct (sameShape_fields _ _ Hsh) as (_ & _ & Htgt & _).
    rewrite Htgt in Htarget.
    frame_at Hframe (n_target node0) t0 t1 Ht0 Ht1 Hsh'; [|congruence].
    rewrite Htarget in Ht1. injection Ht1 as <-.
    destruct (sameShape_fields _ _ Hsh') as (_ & _ & _ & Hedges & _).
    rewrite Hedges in He.
    rewrite (filterBySelectedWorkspaces_frame _ _ _ _ Hframe) in Hws.
    split; [by exists node0, t0|by split].
Qed.

(** The walk raises no false alarm.  On a tree that comes without marks,
    every line of the error set reports a problem of an edge that passed
    both filters and belongs to a node the walk can reach: the edge is
    flagged invalid, or it has no target and is neither optional nor
    peerOptional. *)
Theorem walk_errors_have_a_cause (st : Store) (tree : addr) (fuel : nat)
    (w : Walk) (line : string) :
  unmarked st ->
  walk lib opts fuel st tree = Some (Ok w) ->
  line ∈ w_errors w ->
  exists edge, walked lib opts st tree edge /\ reports lib st edge line.
Proof.
  intros Hfresh H. revert line.
  pose (I := fun (queue : list item) (seen : list addr) (w : Walk) =>
    frame st (w_store w)
    /\ (forall b, ArbNode b ∈ queue -> reachable lib opts st tree b)
    /\ (forall ph, Plain ph ∈ queue ->
          exists edge,
            walked lib opts st tree edge
            /\ edgeItem lib st edge = Some (Plain ph))
    /\ (forall b n,
          w_store w !! b = Some n -> n_invalid n = true ->
          exists edge,
            walked lib opts st tree edge /\ e_invalid edge = true
            /\ edgeItem lib st edge = Some (ArbNode b))
    /\ (forall line,
          line ∈ w_errors w ->
          exists edge,
            walked lib opts st tree edge /\ reports lib st edge line)).
  assert (exists seen, I [] seen w) as (seen & _ & _ & _ & _ & Hlines);
    [|done].
  refine (breadth_invariant lib opts I _ _ fuel [ArbNode tree] []
            (walkStart st) w _ H).
  - intros node rest seen w0 (Hf & Hq & Hp & Hm & Hl) _.
    split; [done|]. split; [intros b Hb; apply Hq, elem_of_cons; auto|].
    split; [intros ph Hph; apply Hp, elem_of_cons; auto|done].
  - intros node rest seen w0 w1 kids w2 (Hf & Hq & Hp & Hm & Hl) _ Hvisit
      Hkids.
    apply visit_Ok in Hvisit as (errs & Herrs & Hst1 & Herr1 & _).
    assert (frame st (w_store w1)) as Hf1 by by rewrite Hst1.
    destruct node as [a|ph0].
    + pose proof (Hq a ltac:(apply elem_of_cons; auto)) as Ha.
      destruct (getChildren_mapped _ _ _ _ _ Hf1 Hkids)
        as (edges & nodes & sp & Hmap & Hplain & Hedges).
      pose proof Hmap as [Hf' Hall]%mapEdges_Ok.
      pose proof (getChildren_state _ _ _ _ _ _ Hkids) as (_ & _ & Herr2).
      split; [by eapply frame_trans|]. split; [|split; [|split]].
      * intros b [Hb|Hb]%elem_of_app; [apply Hq, elem_of_cons; auto|].
        by eapply getChildren_sound.
      * intros ph [Hph|Hph]%elem_of_app; [apply Hp, elem_of_cons; auto|].
        apply Hplain, list_elem_of_lookup in Hph as [i Hi].
        destruct (Forall2_lookup_r _ _ _ _ _ Hall Hi) as (edge & He & Hit).
        apply list_elem_of_lookup_2, Hedges in He as [He Hs].
        exists edge. split; [by exists a|].
        by rewrite <- (edgeItem_frame _ _ _ _ Hf1).
      * intros b n Hb Hinv.
        destruct (mapEdges_invalid_source _ _ _ _ _ _ _ _ _ Hmap Hb Hinv)
          as [(n1 & Hn1 & Hinv1)|(edge & Hin & He & Hit)].
        -- rewrite Hst1 in Hn1. eauto.
        -- apply Hedges in Hin as [Hin Hs]. exists edge.
           split; [by exists a|]. split; [done|].
           by rewrite <- (edgeItem_frame _ _ _ _ Hf1).
      * intros line. rewrite Herr2, Herr1, setAdd_all_elem.
        intros [?|Hline]; [auto|].
        unfold findErrors in Herrs. bind_inv Herrs as n Hn.
        apply deref_Ok in Hn. simplify_eq.
        destruct (n_invalid n) eqn:Hinv; [|by apply elem_of_nil in Hline].
        apply list_elem_of_singleton in Hline as ->.
        destruct (Hm a n Hn Hinv) as (edge & Hw & He & Hit).
        exists edge. split; [done|]. unfold reports. rewrite Hit.
        split; [done|].
        destruct (Forall2_lookup_r _ _ _ _ _ Hf Hn) as (n0 & Hn0 & Hsh).
        destruct (sameShape_fields _ _ Hsh) as (_ & -> & _).
        rewrite (pkgid_frame lib _ _ _ _ _ Hf Hn0 Hn). eauto.
    + simpl in Hkids. simplify_eq.
      split; [done|]. rewrite app_nil_r.
      split; [intros b Hb; apply Hq, elem_of_cons; auto|].
      split; [intros ph Hph; apply Hp, elem_of_cons; auto|].
      split; [by rewrite Hst1|].
      intros line. rewrite Herr1, setAdd_all_elem.
      intros [?|Hline]; [auto|].
      destruct (Hp ph0 ltac:(apply elem_of_cons; auto)) as (edge & Hw & Hit).
      exists edge. split; [done|]. unfold reports. rewrite Hit.
      apply edgeItem_Plain in Hit as (_ & from & _ & ->).
      simpl in Herrs. injection Herrs as <-. simpl in Hline. simpl.
      apply elem_of_app in Hline as [Hline|Hline].
      * case_match eqn:Hcond; [|by apply elem_of_nil in Hline].
        apply list_elem_of_singleton in Hline as ->. left.
        apply andb_true_iff in Hcond as [_ Hcond].
        apply negb_true_iff, orb_false_iff in Hcond as [H1 H2].
        by apply String.eqb_neq in H1, H2.
      * destruct (e_invalid edge); [|by apply elem_of_nil in Hline].
        apply list_elem_of_singleton in Hline as ->. by right.
  - split; [apply frame_refl|]. split.
    { intros b [= ->]%list_elem_of_singleton. constructor. }
    split; [by intros ph [=]%list_elem_of_singleton|].
    split; [|by intros line ?%elem_of_nil].
    intros b n Hb Hinv. simpl in Hb. by rewrite (Hfresh b n Hb) in Hinv.
Qed.

End Alarms.

(** ** The further properties on the sample data *)

Lemma toSpdxItem_no_empty_field_witness :
  exists p st',
    toSpdxItem sampleLib0 storeObjectLicense (ArbNode 0) None = Ok (p, st')
    /\ licenseDeclared p = Other "{ type: 'ISC' }"
    /\ downloadLocation p <> ""
    /\ homePage p <> Str "" /\ licenseDeclared p <> Str ""
    /\ description p <> Some (Str "") /\ filesAnalyzed p = false.
Proof.
  destruct (toSpdxItem sampleLib0 storeObjectLicense (ArbNode 0) None)
    as [[p st']|e] eqn:Hrun; [|vm_compute in Hrun; discriminate Hrun].
  exists p, st'. split; [reflexivity|]. split.
  - vm_compute in Hrun. injection Hrun as <- _. reflexivity.
  - exact (toSpdxItem_no_empty_field sampleLib0 storeObjectLicense st'
             (ArbNode 0) None p Hrun).
Defined.

Lemma spdxOutput_needs_root_and_nodes_witness :
  exists doc st',
    spdxOutput sampleLib0 sampleEnv storeResolved [ArbNode 0; ArbNode 1] None
    = Ok (doc, st')
    /\ (exists a root,
          ArbNode a ∈ [ArbNode 0; ArbNode 1] /\ storeResolved !! a = Some root
          /\ n_isRoot root = true
          /\ docName doc = pkgid sampleLib0 storeResolved root)
    /\ (forall it, it ∈ [ArbNode 0; ArbNode 1] ->
          exists a n, it = ArbNode a /\ storeResolved !! a = Some n).
Proof.
  destruct (spdxOutput sampleLib0 sampleEnv storeResolved
              [ArbNode 0; ArbNode 1] None)
    as [[doc st']|e] eqn:Hrun; [|vm_compute in Hrun; discriminate Hrun].
  exists doc, st'. split; [reflexivity|].
  exact (spdxOutput_needs_root_and_nodes sampleLib0 sampleEnv storeResolved
           st' [ArbNode 0; ArbNode 1] None doc Hrun).
Defined.

Lemma normalised_storeShared : normalised sampleLib0 storeShared.
Proof. apply sampleLib_normalised. by repeat constructor. Qed.

Lemma spdxOutput_package_order_witness :
  exists doc st',
    spdxOutput sampleLib0 sampleEnv storeShared
      [ArbNode 1; ArbNode 0; ArbNode 2] None = Ok (doc, st')
    /\ Forall2 (fun it p =>
                  exists a n,
                    it = ArbNode a /\ storeShared !! a = Some n
                    /\ recordOf n p)
               [ArbNode 0; ArbNode 1; ArbNode 2] (packages doc)
    /\ SPDXID <$> packages doc
       = [ "SPDXRef-Package-app-1.0.0"; "SPDXRef-Package-b-1.0.0";
           "SPDXRef-Package-c-1.0.0" ].
Proof.
  destruct (spdxOutput sampleLib0 sampleEnv storeShared
              [ArbNode 1; ArbNode 0; ArbNode 2] None)
    as [[doc st']|e] eqn:Hrun; [|vm_compute in Hrun; discriminate Hrun].
  exists doc, st'. split; [reflexivity|].
  destruct (spdxOutput_package_order sampleLib0 sampleEnv storeShared st'
              [ArbNode 1; ArbNode 0; ArbNode 2] None doc Hrun)
    as (ra & Hfind & Hall & _ & Hids).
  injection Hfind as <-. split; [exact Hall|].
  rewrite (Hids normalised_storeShared).
  vm_compute in Hrun. injection Hrun as <- _. reflexivity.
Defined.

Lemma exec_document_from_loaded_tree_witness :
  exists doc st' st tree w s,
    exec (sampleLib storeResolved 0) (sampleOptions []) sampleEnv 10
    = Some (Ok (SpdxResponse doc, st'))
    /\ loadTree (sampleLib storeResolved 0) (sampleOptions [])
       = Ok (st, tree)
    /\ walk (sampleLib storeResolved 0) (sampleOptions []) 10 st tree
       = Some (Ok w)
    /\ spdxOutput (sampleLib storeResolved 0) sampleEnv st (builderInput w)
         (Some "application") = Ok (doc, s)
    /\ frame s st'.
Proof.
  destruct (exec (sampleLib storeResolved 0) (sampleOptions []) sampleEnv 10)
    as [[[[doc|cdx] st']|e]|] eqn:Hrun;
    try (vm_compute in Hrun; discriminate Hrun).
  destruct (exec_document_from_loaded_tree (sampleLib storeResolved 0)
              (sampleOptions []) sampleEnv 10 st' doc Hrun)
    as (st & tree & w & s & Hrest).
  exists doc, st', st, tree, w, s. split; [reflexivity|exact Hrest].
Defined.

Lemma filterBySelectedWorkspaces_below_root_witness :
  filterBySelectedWorkspaces optionsNoWorkspaces storeTwoPaths
    (mkEdge 1 None "foo" "^1.0.0" "prod") = Ok true.
Proof.
  apply (filterBySelectedWorkspaces_below_root optionsNoWorkspaces
           storeTwoPaths (mkEdge 1 None "foo" "^1.0.0" "prod")
           (mkNode "b" "1.0.0" "node_modules/b" false false 1
              [ mkEdge 1 None "foo" "^1.0.0" "prod" ]));
    reflexivity.
Defined.

Lemma exec_workspaces_disabled_unresolved_edge_witness :
  exec (sampleLib storeMissingDev 0) optionsNoWorkspaces sampleEnv 5
  = Some (Throw (TypeError, storeMissingDev)).
Proof.
  apply (exec_workspaces_disabled_unresolved_edge
           (sampleLib storeMissingDev 0) optionsNoWorkspaces sampleEnv
           storeMissingDev 0
           (mkNode "app" "1.0.0" "" true false 0
              [ mkEdge 0 None "right" "^1.0.0" "dev" ])
           (mkNode "app" "1.0.0" "" true false 0
              [ mkEdge 0 None "right" "^1.0.0" "dev" ])
           (mkNode "app" "1.0.0" "" true false 0
              [ mkEdge 0 None "right" "^1.0.0" "dev" ])
           (mkEdge 0 None "right" "^1.0.0" "dev") 4);
    try reflexivity.
  apply elem_of_cons. by left.
Defined.

Lemma exec_failures_witness :
  exists arb,
    newArborist (sampleLib storeResolved 0) = Some arb
    /\ packageLockOnly optionsLockOnly = true
    /\ loadVirtual arb = None
    /\ exec (sampleLib storeResolved 0) optionsLockOnly sampleEnv 10
       = Some (Throw (EUSAGE "A package lock or shrinkwrap file is required in package-lock-only mode",
                      [])).
Proof.
  destruct (exec_failures (sampleLib storeResolved 0) optionsLockOnly
              sampleEnv 10
              (EUSAGE "A package lock or shrinkwrap file is required in package-lock-only mode")
              [] eq_refl)
    as [[Hfmt _]
       |[_ [[_ [[Hnone _]|(arb & Harb & [(Hlock & Hvirtual & _)|[Hlock _]])]]
           |(st & tree & Hload & _)]]].
  - discriminate Hfmt.
  - discriminate Hnone.
  - exists arb. split; [exact Harb|]. split; [exact Hlock|].
    split; [exact Hvirtual|reflexivity].
  - discriminate Hlock.
  - discriminate Hload.
Defined.

Lemma walk_hands_over_each_node_once_witness :
  exists w,
    walk sampleLib0 (sampleOptions []) 10 storeShared 0 = Some (Ok w)
    /\ builderInput w = [ArbNode 0; ArbNode 1; ArbNode 2]
    /\ NoDup (w_seenNodes w).*1 /\ NoDup (builderInput w).
Proof.
  destruct (walk sampleLib0 (sampleOptions []) 10 storeShared 0)
    as [[w|e]|] eqn:Hwalk; try (vm_compute in Hwalk; discriminate Hwalk).
  exists w. split; [reflexivity|]. split.
  - vm_compute in Hwalk. injection Hwalk as <-. reflexivity.
  - exact (walk_hands_over_each_node_once sampleLib0 (sampleOptions [])
             storeShared 0 10 w Hwalk).
Defined.

Lemma walk_hands_over_reachable_nodes_only_witness :
  exists w,
    walk sampleLib0 (sampleOptions []) 10 storeResolved 0 = Some (Ok w)
    /\ ArbNode 1 ∈ builderInput w
    /\ reachable sampleLib0 (sampleOptions []) storeResolved 0 1.
Proof.
  destruct (walk sampleLib0 (sampleOptions []) 10 storeResolved 0)
    as [[w|e]|] eqn:Hwalk; try (vm_compute in Hwalk; discriminate Hwalk).
  assert (ArbNode 1 ∈ builderInput w) as Hin.
  { vm_compute in Hwalk. injection Hwalk as <-.
    apply elem_of_cons. right. apply elem_of_cons. by left. }
  exists w. split; [reflexivity|]. split; [exact Hin|].
  exact (walk_hands_over_reachable_nodes_only sampleLib0 (sampleOptions [])
           storeResolved 0 10 w 1 Hwalk Hin).
Defined.

Lemma walk_leaves_out_omitted_nodes_witness :
  exists w,
    walk sampleLib0 (sampleOptions ["dev"]) 10 storeDevResolved 0
    = Some (Ok w)
    /\ ArbNode 2 ∉ builderInput w.
Proof.
  destruct (walk sampleLib0 (sampleOptions ["dev"]) 10 storeDevResolved 0)
    as [[w|e]|] eqn:Hwalk; try (vm_compute in Hwalk; discriminate Hwalk).
  exists w. split; [reflexivity|].
  apply (walk_leaves_out_omitted_nodes sampleLib0 (sampleOptions ["dev"])
           storeDevResolved 0 10 w 2 Hwalk).
  - discriminate.
  - intros a edge (node & target & Hnode & Htarget & Hin) Hto.
    destruct a as [|[|[|a]]]; simpl in Hnode; try discriminate Hnode;
      injection Hnode as <-; simpl in Htarget; injection Htarget as <-;
      simpl in Hin.
    + apply elem_of_cons in Hin as [->|Hin]; [discriminate Hto|].
      apply elem_of_cons in Hin as [->|Hin]; [|by apply elem_of_nil in Hin].
      apply elem_of_cons. by left.
    + by apply elem_of_nil in Hin.
    + by apply elem_of_nil in Hin.
  - intros child [= <-]. reflexivity.
Defined.

Lemma pathsDistinct_storeExtraneous : pathsDistinct storeExtraneous.
Proof.
  intros a b na nb Ha Hb Hpath.
  destruct a as [|[|a]], b as [|[|b]]; simpl in Ha, Hb;
    try discriminate Ha; try discriminate Hb; try reflexivity;
    injection Ha as <-; injection Hb as <-; discriminate Hpath.
Qed.

Lemma walk_hands_over_every_reached_node_witness :
  exists w,
    walk sampleLib0 (sampleOptions []) 10 storeExtraneous 0 = Some (Ok w)
    /\ reachable sampleLib0 (sampleOptions []) storeExtraneous 0 1
    /\ ArbNode 1 ∈ builderInput w.
Proof.
  destruct (walk sampleLib0 (sampleOptions []) 10 storeExtraneous 0)
    as [[w|e]|] eqn:Hwalk; try (vm_compute in Hwalk; discriminate Hwalk).
  assert (reachable sampleLib0 (sampleOptions []) storeExtraneous 0 1)
    as Hreach.
  { eapply (reachable_child _ _ _ _ 0 1).
    - constructor.
    - reflexivity.
    - apply elem_of_cons. by left.
    - reflexivity.
    - reflexivity. }
  exists w. split; [reflexivity|]. split; [exact Hreach|].
  exact (walk_hands_over_every_reached_node sampleLib0 (sampleOptions [])
           storeExtraneous 0 10 w 1 pathsDistinct_storeExtraneous Hwalk
           Hreach).
Defined.

Lemma sampleLib_compare_total (st : Store) (tree : addr) (a b : string) :
  (0 < localeCompare (sampleLib st tree) a b)%Z ->
  (localeCompare (sampleLib st tree) b a <= 0)%Z.
Proof.
  simpl. destruct (String.eqb_spec a b) as [->|Hne]; [lia|].
  unfold String.ltb. rewrite (String.compare_antisym b a).
  destruct (String.eqb_spec b a) as [->|_]; [done|].
  destruct (String.compare a b) eqn:Hcmp; simpl; try lia.
  apply String.compare_eq_iff in Hcmp. congruence.
Qed.

Lemma getChildren_ascending_witness :
  exists kids w',
    getChildren sampleLib0 (sampleOptions []) (ArbNode 0)
      (walkStart storeUnsorted) = Ok (kids, w')
    /\ kids = [ArbNode 2; ArbNode 1]
    /\ pkgidOf sampleLib0 (w_store w') <$> kids
       = [ Some "alpha@1.0.0"; Some "zeta@1.0.0" ]
    /\ ascending
         (fun x y =>
            localeCompare sampleLib0
              (interp (pkgidOf sampleLib0 (w_store w') x))
              (interp (pkgidOf sampleLib0 (w_store w') y)))
         kids.
Proof.
  destruct (getChildren sampleLib0 (sampleOptions []) (ArbNode 0)
              (walkStart storeUnsorted))
    as [[kids w']|e] eqn:Hrun; [|vm_compute in Hrun; discriminate Hrun].
  exists kids, w'. split; [reflexivity|].
  pose proof (getChildren_ascending sampleLib0 (sampleOptions []) (ArbNode 0)
                (walkStart storeUnsorted) w' kids
                (sampleLib_compare_total [] 0) Hrun) as Hascending.
  split; [|split; [|exact Hascending]].
  - vm_compute in Hrun. injection Hrun as <- _. reflexivity.
  - vm_compute in Hrun. injection Hrun as <- <-. reflexivity.
Defined.

Lemma walk_reports_invalid_dependency_of_tree_witness :
  exists w,
    walk sampleLib0 (sampleOptions []) 10 storeInvalid 0 = Some (Ok w)
    /\ "invalid: left@1.0.0 /p/node_modules/left" ∈ w_errors w.
Proof.
  destruct (walk sampleLib0 (sampleOptions []) 10 storeInvalid 0)
    as [[w|e]|] eqn:Hwalk; try (vm_compute in Hwalk; discriminate Hwalk).
  exists w. split; [reflexivity|].
  apply (walk_reports_invalid_dependency_of_tree sampleLib0 (sampleOptions [])
           storeInvalid 0 1 10 w edgeInvalid
           (mkNode "left" "1.0.0" "node_modules/left" false false 1 []) Hwalk).
  - eexists _, _. split; [reflexivity|]. split; [reflexivity|].
    apply elem_of_cons. by left.
  - split; reflexivity.
  - reflexivity.
  - reflexivity.
  - discriminate.
  - reflexivity.
Defined.

Lemma exec_failure_lines_witness :
  exists lines,
    "missing: right@^1.0.0, required by app@1.0.0"
    = join (EOL (sampleLib storeMissingDev 0)) lines
    /\ (forall line,
          line ∈ lines ->
          String.prefix "missing: " line = true
          \/ String.prefix "invalid: " line = true).
Proof.
  apply (exec_failure_lines (sampleLib storeMissingDev 0) (sampleOptions [])
           sampleEnv 10 storeMissingDev).
  vm_compute. reflexivity.
Defined.

Lemma exec_packages_are_reachable_nodes_witness :
  exists doc st' p b n,
    exec (sampleLib storeResolved 0) (sampleOptions []) sampleEnv 10
    = Some (Ok (SpdxResponse doc, st'))
    /\ p ∈ packages doc
    /\ reachable (sampleLib storeResolved 0) (sampleOptions []) storeResolved
         0 b
    /\ storeResolved !! b = Some n
    /\ recordOf n p
    /\ SPDXID p = toSpdxID (pkgid (sampleLib storeResolved 0) storeResolved n).
Proof.
  destruct (exec (sampleLib storeResolved 0) (sampleOptions []) sampleEnv 10)
    as [[[[doc|doc] st']|e]|] eqn:Hrun;
    try (vm_compute in Hrun; discriminate Hrun).
  assert (exists p, p ∈ packages doc) as [p Hp].
  { vm_compute in Hrun. injection Hrun as <- _. eexists.
    apply elem_of_cons. by left. }
  destruct (exec_packages_are_reachable_nodes (sampleLib storeResolved 0)
              (sampleOptions []) sampleEnv 10 st' doc p Hrun Hp)
    as (st & tree & b & n & Hload & Hreach & Hb & Hrecord & Hid).
  change (@Ok exn _ (storeResolved, 0) = Ok (st, tree)) in Hload.
  injection Hload as <- <-.
  exists doc, st', p, b, n. split; [reflexivity|]. split; [exact Hp|].
  split; [exact Hreach|]. split; [exact Hb|]. split; [exact Hrecord|].
  exact (Hid normalised_storeResolved).
Defined.

Lemma rootUnique_storeExtraneous : rootUnique storeExtraneous.
Proof.
  intros a b na nb Ha Hb Hra Hrb.
  destruct a as [|[|a]], b as [|[|b]]; simpl in Ha, Hb;
    try discriminate Ha; try discriminate Hb; try reflexivity;
    injection Ha as <-; injection Hb as <-;
    first [discriminate Hra|discriminate Hrb].
Qed.

Lemma normalised_storeExtraneous :
  normalised (sampleLib storeExtraneous 0) storeExtraneous.
Proof. apply sampleLib_normalised. by repeat constructor. Qed.

Lemma exec_packages_cover_reachable_nodes_witness :
  exists doc st',
    exec (sampleLib storeExtraneous 0) (sampleOptions []) sampleEnv 10
    = Some (Ok (SpdxResponse doc, st'))
    /\ exists p,
         p ∈ packages doc /\ name p = "stray"
         /\ SPDXID p = "SPDXRef-Package-stray-1.0.0".
Proof.
  destruct (exec (sampleLib storeExtraneous 0) (sampleOptions []) sampleEnv
              10)
    as [[[[doc|doc] st']|e]|] eqn:Hrun;
    try (vm_compute in Hrun; discriminate Hrun).
  exists doc, st'. split; [reflexivity|].
  destruct (exec_packages_cover_reachable_nodes (sampleLib storeExtraneous 0)
              (sampleOptions []) sampleEnv 10 storeExtraneous st' 0 doc 1
              (withChildren
                 (mkNode "stray" "1.0.0" "node_modules/stray" false false 1 [])
                 [] true)
              pathsDistinct_storeExtraneous rootUnique_storeExtraneous
              eq_refl Hrun)
    as (p & Hp & [Hname _] & Hid).
  - eapply (reachable_child _ _ _ _ 0 1).
    + constructor.
    + reflexivity.
    + apply elem_of_cons. by left.
    + reflexivity.
    + reflexivity.
  - reflexivity.
  - exists p. split; [exact Hp|]. split; [exact Hname|].
    exact (Hid normalised_storeExtraneous).
Defined.

Lemma edges_of_storeWorkspaces (a : addr) (edge : Edge) :
  edgeOf storeWorkspaces a edge ->
  storeWorkspaces !! e_from edge
  = Some (mkNode "app" "1.0.0" "" true false 0
            [ mkEdge 0 (Some 1) "a" "*" "workspace";
              mkEdge 0 (Some 3) "b" "*" "workspace" ]).
Proof.
  intros (node & target & Hnode & Htarget & Hin).
  destruct a as [|[|[|[|[|a]]]]]; simpl in Hnode; try discriminate Hnode;
    injection Hnode as <-; simpl in Htarget; injection Htarget as <-;
    simpl in Hin; try (by apply elem_of_nil in Hin).
  apply elem_of_cons in Hin as [->|Hin]; [reflexivity|].
  apply elem_of_cons in Hin as [->|Hin]; [reflexivity|].
  by apply elem_of_nil in Hin.
Qed.

Lemma walk_leaves_out_workspaces_when_disabled_witness :
  exists w,
    walk sampleLib0 optionsNoWorkspaces 10 storeWorkspaces 0 = Some (Ok w)
    /\ ArbNode 1 ∉ builderInput w.
Proof.
  destruct (walk sampleLib0 optionsNoWorkspaces 10 storeWorkspaces 0)
    as [[w|e]|] eqn:Hwalk; try (vm_compute in Hwalk; discriminate Hwalk).
  exists w. split; [reflexivity|].
  apply (walk_leaves_out_workspaces_when_disabled sampleLib0
           optionsNoWorkspaces storeWorkspaces 0 10 w 1
           (mkWorkspace "a" "1.0.0" "node_modules/a" true 2) Hwalk).
  - reflexivity.
  - discriminate.
  - reflexivity.
  - reflexivity.
  - reflexivity.
  - intros a edge He _. eexists.
    split; [exact (edges_of_storeWorkspaces _ _ He)|]. reflexivity.
Defined.

Lemma walk_leaves_out_unselected_dependencies_witness :
  exists w,
    walk sampleLib0 optionsWorkspaceA 10 storeWorkspaces 0 = Some (Ok w)
    /\ ArbNode 1 ∈ builderInput w
    /\ ArbNode 3 ∉ builderInput w.
Proof.
  destruct (walk sampleLib0 optionsWorkspaceA 10 storeWorkspaces 0)
    as [[w|e]|] eqn:Hwalk; try (vm_compute in Hwalk; discriminate Hwalk).
  exists w. split; [reflexivity|]. split.
  { vm_compute in Hwalk. injection Hwalk as <-.
    apply elem_of_cons. right. apply elem_of_cons. by left. }
  apply (walk_leaves_out_unselected_dependencies sampleLib0
           optionsWorkspaceA storeWorkspaces 0 10 w 3 2 []
           (mkWorkspace "b" "1.0.0" "node_modules/b" true 4) Hwalk).
  - reflexivity.
  - discriminate.
  - reflexivity.
  - reflexivity.
  - reflexivity.
  - intros a edge He _. eexists.
    split; [exact (edges_of_storeWorkspaces _ _ He)|]. reflexivity.
Defined.

Lemma unmarked_storeMissingDev : unmarked storeMissingDev.
Proof.
  intros a n Ha. destruct a as [|a]; simpl in Ha; [|discriminate Ha].
  by injection Ha as <-.
Qed.

Lemma walk_errors_have_a_cause_witness :
  exists w,
    walk sampleLib0 (sampleOptions []) 10 storeMissingDev 0 = Some (Ok w)
    /\ "missing: right@^1.0.0, required by app@1.0.0" ∈ w_errors w
    /\ exists edge,
         walked sampleLib0 (sampleOptions []) storeMissingDev 0 edge
         /\ reports sampleLib0 storeMissingDev edge
              "missing: right@^1.0.0, required by app@1.0.0".
Proof.
  destruct (walk sampleLib0 (sampleOptions []) 10 storeMissingDev 0)
    as [[w|e]|] eqn:Hwalk; try (vm_compute in Hwalk; discriminate Hwalk).
  assert ("missing: right@^1.0.0, required by app@1.0.0" ∈ w_errors w)
    as Hin.
  { vm_compute in Hwalk. injection Hwalk as <-. apply elem_of_cons. by left. }
  exists w. split; [reflexivity|]. split; [exact Hin|].
  exact (walk_errors_have_a_cause sampleLib0 (sampleOptions [])
           storeMissingDev 0 10 w _ unmarked_storeMissingDev Hwalk Hin).
Defined.

Lemma pathsDistinct_storeDevShared : pathsDistinct storeDevShared.
Proof.
  intros a b na nb Ha Hb Hpath.
  destruct a as [|[|[|a]]], b as [|[|[|b]]]; simpl in Ha, Hb;
    try discriminate Ha; try discriminate Hb; try reflexivity;
    injection Ha as <-; injection Hb as <-; discriminate Hpath.
Qed.

Lemma exec_relationship_of_every_edge_witness :
  exists doc st',
    exec (sampleLib storeDevShared 0) (sampleOptions ["dev"]) sampleEnv 10
    = Some (Ok (SpdxResponse doc, st'))
    /\ exists r,
         toSpdxRelationship (sampleLib storeDevShared 0) storeDevShared
           (mkNode "app" "1.0.0" "" true false 0
              [ mkEdge 0 (Some 1) "left" "^1.0.0" "prod";
                mkEdge 0 (Some 2) "right" "^1.0.0" "dev" ])
           (mkEdge 0 (Some 2) "right" "^1.0.0" "dev")
         = Some r
         /\ relationshipType r = "DEV_DEPENDENCY_OF"
         /\ r ∈ relationships doc.
Proof.
  destruct (exec (sampleLib storeDevShared 0) (sampleOptions ["dev"])
              sampleEnv 10)
    as [[[[doc|doc] st']|e]|] eqn:Hrun;
    try (vm_compute in Hrun; discriminate Hrun).
  exists doc, st'. split; [reflexivity|].
  assert (reachable (sampleLib storeDevShared 0) (sampleOptions ["dev"])
            storeDevShared 0 1) as Hleft.
  { apply (reachable_edge _ _ _ _ 0 1
             (mkEdge 0 (Some 1) "left" "^1.0.0" "prod")).
    - constructor.
    - eexists _, _. split; [reflexivity|]. split; [reflexivity|].
      apply elem_of_cons. by left.
    - split; reflexivity.
    - reflexivity. }
  destruct (exec_relationship_of_every_edge (sampleLib storeDevShared 0)
              (sampleOptions ["dev"]) sampleEnv 10 storeDevShared st' 0 doc
              0 2
              (mkNode "app" "1.0.0" "" true false 0
                 [ mkEdge 0 (Some 1) "left" "^1.0.0" "prod";
                   mkEdge 0 (Some 2) "right" "^1.0.0" "dev" ])
              (mkNode "right" "1.0.0" "node_modules/right" false false 2 [])
              (mkEdge 0 (Some 2) "right" "^1.0.0" "dev")
              pathsDistinct_storeDevShared eq_refl Hrun)
    as (r & Hr & Hin).
  - constructor.
  - apply (reachable_edge _ _ _ _ 1 2
             (mkEdge 1 (Some 2) "right" "^1.0.0" "prod")).
    + exact Hleft.
    + eexists _, _. split; [reflexivity|]. split; [reflexivity|].
      apply elem_of_cons. by left.
    + split; reflexivity.
    + reflexivity.
  - reflexivity.
  - apply elem_of_cons. right. apply elem_of_cons. by left.
  - reflexivity.
  - reflexivity.
  - exists r. split; [exact Hr|]. split; [|exact Hin].
    vm_compute in Hr. injection Hr as <-. reflexivity.
Defined.
